(** * pubsubschema-gen: a shallow embedding of [tools/pubsubschema-gen/main.go]

    The generator turns every [*.pubsub.proto] file of a directory into a
    Config Connector [PubSubSchema] manifest and writes a [kustomization.yaml]
    that lists the manifests.  Go strings are byte strings and are modelled
    by [string] (one [ascii] per byte).  The file system is an explicit
    state that every operation threads through. *)

From Stdlib Require Import Ascii String List Bool Arith NArith Lia.
From stdpp Require Import base option list sorting gmap strings.

Local Open Scope string_scope.

(** ** The part of Go's [strings] package the program uses *)

Module Strings.

(** The bytes written [\n] and [\r] in the Go source. *)
Definition LF : ascii := "010"%char.
Definition CR : ascii := "013"%char.

Definition str (c : ascii) : string := String c EmptyString.

(** [strings.HasPrefix]: [s] starts with the bytes of [pre]. *)
Fixpoint HasPrefix (s pre : string) {struct pre} : bool :=
  match pre with
  | EmptyString => true
  | String b pre' =>
      match s with
      | EmptyString => false
      | String a s' => Ascii.eqb a b && HasPrefix s' pre'
      end
  end.

(** [s[n:]], for [n] within the string. *)
Fixpoint drop (n : nat) (s : string) : string :=
  match n, s with
  | S k, String _ s' => drop k s'
  | _, _ => s
  end.

(** [s[:n]], for [n] within the string. *)
Fixpoint take (n : nat) (s : string) : string :=
  match n, s with
  | S k, String c s' => String c (take k s')
  | _, _ => EmptyString
  end.

(** [strings.HasSuffix]:
    [len(s) >= len(suffix) && s[len(s)-len(suffix):] == suffix]. *)
Definition HasSuffix (s suf : string) : bool :=
  (String.length suf <=? String.length s)%nat
  && String.eqb (drop (String.length s - String.length suf) s) suf.

(** [strings.TrimSuffix]: the string without the suffix when it has it,
    the string itself otherwise. *)
Definition TrimSuffix (s suf : string) : string :=
  if HasSuffix s suf
  then take (String.length s - String.length suf) s
  else s.

(** [strings.ReplaceAll] for a non-empty [old]: the occurrences of [old]
    are found from left to right and do not overlap.  [skip] counts the
    bytes of an occurrence that was already replaced and remain to be
    passed over. *)
Fixpoint replaceFrom (skip : nat) (s old new : string) : string :=
  match s with
  | EmptyString => EmptyString
  | String c s' =>
      match skip with
      | S k => replaceFrom k s' old new
      | O =>
          if HasPrefix s old
          then new ++ replaceFrom (String.length old - 1) s' old new
          else String c (replaceFrom 0 s' old new)
      end
  end.

Definition ReplaceAll (s old new : string) : string :=
  replaceFrom 0 s old new.

(** [strings.TrimRight(s, "\n")], the cutset being the one byte [c]:
    the longest prefix of [s] that does not end with [c]. *)
Fixpoint TrimRight (s : string) (c : ascii) : string :=
  match s with
  | EmptyString => EmptyString
  | String a s' =>
      match TrimRight s' c with
      | EmptyString => if Ascii.eqb a c then EmptyString else str a
      | t => String a t
      end
  end.

(** [strings.ToLower] on ASCII text: the bytes [A]..[Z] become [a]..[z],
    every other byte is kept.  Go lowers the runes of text that is not
    ASCII by the Unicode tables, which are not part of this development:
    the result is that of Go for ASCII text only, and what is proved of
    the letters of derived names is stated for ASCII file names. *)
Definition lowerByte (c : ascii) : ascii :=
  let n := Ascii.nat_of_ascii c in
  if (65 <=? n)%nat && (n <=? 90)%nat then Ascii.ascii_of_nat (n + 32) else c.

Fixpoint ToLower (s : string) : string :=
  match s with
  | EmptyString => EmptyString
  | String c s' => String (lowerByte c) (ToLower s')
  end.

(** [strings.Split(s, sep)] for the one-byte separator [sep]: the pieces
    between the separators, always at least one piece. *)
Fixpoint Split (s : string) (sep : ascii) : list string :=
  match s with
  | EmptyString => [EmptyString]
  | String c s' =>
      if Ascii.eqb c sep then EmptyString :: Split s' sep
      else match Split s' sep with
           | piece :: rest => String c piece :: rest
           | [] => [str c]
           end
  end.

(** [strings.Join]. *)
Fixpoint Join (elems : list string) (sep : string) : string :=
  match elems with
  | [] => EmptyString
  | [e] => e
  | e :: rest => e ++ sep ++ Join rest sep
  end.

(** [strings.Contains] and [strings.ContainsAny] for single bytes. *)
Fixpoint ContainsByte (s : string) (c : ascii) : bool :=
  match s with
  | EmptyString => false
  | String a s' => Ascii.eqb a c || ContainsByte s' c
  end.

Fixpoint ContainsAny (s chars : string) : bool :=
  match s with
  | EmptyString => false
  | String a s' => ContainsByte chars a || ContainsAny s' chars
  end.

(** [strings.Contains(s, sub)] for a non-empty [sub]. *)
Fixpoint Contains (s sub : string) : bool :=
  match s with
  | EmptyString => false
  | String _ s' => HasPrefix s sub || Contains s' sub
  end.

End Strings.

(** ** Manifest text *)

Definition nl : string := Strings.str Strings.LF.
Definition crlf : string := String Strings.CR nl.

(** [normalizeNewlines] (main.go, lines 108-113). *)
Definition normalizeNewlines (s : string) : string :=
  let s := Strings.ReplaceAll s crlf nl in
  let s := Strings.TrimRight s Strings.LF ++ nl in
  s.

(** [indentForYAMLLiteralBlock] (main.go, lines 115-127).  The loop
    overwrites [lines[i]] for every index, which is a map over the list. *)
Definition indentLine (indent line : string) : string :=
  if String.eqb line "" then indent else indent ++ line.

Definition indentForYAMLLiteralBlock (s indent : string) : string :=
  let lines := Strings.Split s Strings.LF in
  let lines := map (indentLine indent) lines in
  Strings.Join lines nl.

(** [schemaManifest] (main.go, lines 129-139). *)
Definition schemaManifest (schemaName protoDefinition : string) : string :=
  "" ++
  "apiVersion: pubsub.cnrm.cloud.google.com/v1beta1" ++ nl ++
  "kind: PubSubSchema" ++ nl ++
  "metadata:" ++ nl ++
  "  name: " ++ schemaName ++ nl ++
  "spec:" ++ nl ++
  "  type: PROTOCOL_BUFFER" ++ nl ++
  "  definition: |" ++ nl ++
  indentForYAMLLiteralBlock protoDefinition "    ".

(** ** The part of Go's [path/filepath] package the program uses (Unix) *)

Module Filepath.

Definition Separator : ascii := "/"%char.

(** The last piece of a path between separators. *)
Definition lastElem (path : string) : string :=
  List.last (Strings.Split path Separator) EmptyString.

(** [filepath.Base]: the last element of the path, trailing separators
    being removed first; ["."] for the empty path and ["/"] for a path of
    separators only. *)
Definition Base (path : string) : string :=
  if String.eqb path "" then "."
  else
    let path := Strings.TrimRight path Separator in
    let path := lastElem path in
    if String.eqb path "" then Strings.str Separator else path.

(** One element of a path seen by [filepath.Clean]; [stack] holds the
    elements kept so far, the last one first.  Empty and ["."] elements
    vanish, [".."] removes the element before it, is dropped at the root and
    is kept at the start of a relative path. *)
Definition cleanStep (rooted : bool) (stack : list string) (e : string)
  : list string :=
  if String.eqb e "" || String.eqb e "." then stack
  else if String.eqb e ".." then
    match stack with
    | top :: rest => if String.eqb top ".." then e :: stack else rest
    | [] => if rooted then [] else [e]
    end
  else e :: stack.

Definition isRooted (path : string) : bool :=
  Strings.HasPrefix path (Strings.str Separator).

Definition cleanElems (path : string) : list string :=
  rev (fold_left (cleanStep (isRooted path))
                 (Strings.Split path Separator) []).

(** [filepath.Clean]: the shortest path name equivalent to [path] by
    purely lexical processing. *)
Definition Clean (path : string) : string :=
  let elems := cleanElems path in
  if isRooted path then Strings.str Separator ++ Strings.Join elems "/"
  else match elems with
       | [] => "."
       | _ => Strings.Join elems "/"
       end.

(** [filepath.Join] of two elements: empty elements before the first
    non-empty one are ignored, the rest is joined with separators and
    cleaned. *)
Definition Join (a b : string) : string :=
  if negb (String.eqb a "") then Clean (a ++ "/" ++ b)
  else if negb (String.eqb b "") then Clean b
  else "".

(** [filepath.Split]: the path up to and with its last separator, and the
    rest. *)
Definition Split (path : string) : string * string :=
  let file := lastElem path in
  (Strings.take (String.length path - String.length file) path, file).

(** [filepath.Dir]. *)
Definition Dir (path : string) : string := Clean (fst (Split path)).

(** *** UTF-8 ([unicode/utf8])

    Runes are numbers; bytes are read as numbers with [byteVal]. *)

Definition RuneError : N := 65533.

Definition byteVal (c : ascii) : N := N_of_ascii c.

(** A continuation byte, [0x80] to [0xBF]. *)
Definition isCont (b : N) : bool := (128 <=? b)%N && (b <=? 191)%N.

(** [utf8.DecodeRuneInString]: the first rune of the string and its
    width in bytes; [(RuneError, 0)] for the empty string and
    [(RuneError, 1)] where the bytes are not the encoding of a rune.
    The first byte gives the width and the range allowed for the second
    byte (the tables [first] and [acceptRanges]). *)
Definition decodeRune (s : string) : N * nat :=
  match s with
  | EmptyString => (RuneError, 0)
  | String c0 s1 =>
      let b0 := byteVal c0 in
      if (b0 <? 128)%N then (b0, 1)
      else if (b0 <? 194)%N || (244 <? b0)%N then (RuneError, 1)
      else
        let lo := if (b0 =? 224)%N then 160%N
                  else if (b0 =? 240)%N then 144%N else 128%N in
        let hi := if (b0 =? 237)%N then 159%N
                  else if (b0 =? 244)%N then 143%N else 191%N in
        match s1 with
        | EmptyString => (RuneError, 1)
        | String c1 s2 =>
            let b1 := byteVal c1 in
            if (b1 <? lo)%N || (hi <? b1)%N then (RuneError, 1)
            else if (b0 <? 224)%N then
              (N.lor (N.shiftl (N.land b0 31) 6) (N.land b1 63), 2)
            else
              match s2 with
              | EmptyString => (RuneError, 1)
              | String c2 s3 =>
                  let b2 := byteVal c2 in
                  if negb (isCont b2) then (RuneError, 1)
                  else if (b0 <? 240)%N then
                    (N.lor (N.shiftl (N.land b0 15) 12)
                       (N.lor (N.shiftl (N.land b1 63) 6) (N.land b2 63)), 3)
                  else
                    match s3 with
                    | EmptyString => (RuneError, 1)
                    | String c3 _ =>
                        let b3 := byteVal c3 in
                        if negb (isCont b3) then (RuneError, 1)
                        else
                          (N.lor (N.shiftl (N.land b0 7) 18)
                             (N.lor (N.shiftl (N.land b1 63) 12)
                                (N.lor (N.shiftl (N.land b2 63) 6)
                                   (N.land b3 63))), 4)
                    end
              end
        end
  end.

(** *** Shell patterns ([filepath.Match])

    A pattern is a sequence of terms: [*] matches any sequence of
    non-separator bytes, [?] one rune that is not the separator, a class
    [[...]] or [[^...]] one rune in (or not in) its ranges of runes, a
    backslash followed by a byte that byte, and any other byte itself. *)

Inductive term :=
| Star
| AnyChar
| Lit (c : ascii)
| Class (negated : bool) (ranges : list (N * N)).

(** Where the scan of a pattern stands: outside a class, after a
    backslash, or inside a class at the places [getEsc] is called from. *)
Inductive pstate :=
| Plain
| Escaped
| ClassOpen
| ClassLo (negated : bool) (ranges : list (N * N))
| ClassLoEsc (negated : bool) (ranges : list (N * N))
| ClassMid (negated : bool) (ranges : list (N * N)) (lo : N)
| ClassHi (negated : bool) (ranges : list (N * N)) (lo : N)
| ClassHiEsc (negated : bool) (ranges : list (N * N)) (lo : N).

(** The rune that [getEsc] reads at the start of [pattern], with the
    number of bytes that follow its first byte; bytes that are not the
    encoding of a rune make the pattern malformed. *)
Definition classRune (pattern : string) : option (N * nat) :=
  let '(r, n) := decodeRune pattern in
  if (r =? RuneError)%N && (n =? 1)%nat then None else Some (r, (n - 1)%nat).

(** The start of [pattern] where a range may start: [']'] closes a class
    that has a range already; otherwise [getEsc] refuses ['-'] and [']']
    and reads a possibly escaped rune. *)
Definition classLo (negated : bool) (ranges : list (N * N))
    (c : ascii) (pattern : string) : option (pstate * list term * nat) :=
  if Ascii.eqb c "]" then
    match ranges with
    | [] => None
    | _ => Some (Plain, [Class negated ranges], 0%nat)
    end
  else if Ascii.eqb c "-" then None
  else if Ascii.eqb c "\" then Some (ClassLoEsc negated ranges, [], 0%nat)
  else match classRune pattern with
       | None => None
       | Some (r, k) => Some (ClassMid negated ranges r, [], k)
       end.

(** One step of the scan at [pattern], which starts with the byte [c]:
    the next state, the terms completed, and the number of bytes to pass
    over after [c] (the rest of a rune of several bytes), or [None] for a
    malformed pattern. *)
Definition scanByte (st : pstate) (c : ascii) (pattern : string)
  : option (pstate * list term * nat) :=
  match st with
  | Plain =>
      if Ascii.eqb c "*" then Some (Plain, [Star], 0%nat)
      else if Ascii.eqb c "?" then Some (Plain, [AnyChar], 0%nat)
      else if Ascii.eqb c "[" then Some (ClassOpen, [], 0%nat)
      else if Ascii.eqb c "\" then Some (Escaped, [], 0%nat)
      else Some (Plain, [Lit c], 0%nat)
  | Escaped => Some (Plain, [Lit c], 0%nat)
  | ClassOpen =>
      if Ascii.eqb c "^" then Some (ClassLo true [], [], 0%nat)
      else classLo false [] c pattern
  | ClassLo negated ranges => classLo negated ranges c pattern
  | ClassLoEsc negated ranges =>
      match classRune pattern with
      | None => None
      | Some (r, k) => Some (ClassMid negated ranges r, [], k)
      end
  | ClassMid negated ranges lo =>
      if Ascii.eqb c "-" then Some (ClassHi negated ranges lo, [], 0%nat)
      else classLo negated (ranges ++ [(lo, lo)])%list c pattern
  | ClassHi negated ranges lo =>
      if Ascii.eqb c "-" || Ascii.eqb c "]" then None
      else if Ascii.eqb c "\" then Some (ClassHiEsc negated ranges lo, [], 0%nat)
      else match classRune pattern with
           | None => None
           | Some (r, k) =>
               Some (ClassLo negated (ranges ++ [(lo, r)])%list, [], k)
           end
  | ClassHiEsc negated ranges lo =>
      match classRune pattern with
      | None => None
      | Some (r, k) => Some (ClassLo negated (ranges ++ [(lo, r)])%list, [], k)
      end
  end.

(** The scan of the whole pattern; [skip] bytes are passed over first. *)
Fixpoint parseFrom (skip : nat) (st : pstate) (pattern : string)
  : option (list term) :=
  match pattern with
  | EmptyString => match st with Plain => Some [] | _ => None end
  | String c rest =>
      match skip with
      | S k => parseFrom k st rest
      | O =>
          match scanByte st c pattern with
          | None => None
          | Some (st', done, skip') =>
              match parseFrom skip' st' rest with
              | None => None
              | Some ts => Some (done ++ ts)%list
              end
          end
      end
  end.

Definition parsePattern (pattern : string) : option (list term) :=
  parseFrom 0 Plain pattern.

Definition inRanges (ranges : list (N * N)) (r : N) : bool :=
  existsb (fun range => (fst range <=? r)%N && (r <=? snd range)%N) ranges.

(** [matchChunk] on a chunk (terms without [*]): the rest of the name
    when the chunk matches its start. *)
Fixpoint matchChunk (chunk : list term) (s : string) : option string :=
  match chunk with
  | [] => Some s
  | t :: chunk' =>
      match s with
      | EmptyString => None
      | String c s' =>
          match t with
          | Star => None
          | AnyChar =>
              if Ascii.eqb c Separator then None
              else matchChunk chunk' (Strings.drop (snd (decodeRune s)) s)
          | Lit a => if Ascii.eqb c a then matchChunk chunk' s' else None
          | Class negated ranges =>
              let '(r, n) := decodeRune s in
              if xorb (inRanges ranges r) negated
              then matchChunk chunk' (Strings.drop n s)
              else None
          end
      end
  end.

(** The chunks that [scanChunk] cuts the pattern into: each with the flag
    that stars stood before it.  [chunk] holds the terms of the chunk
    being read, the last one first. *)
Fixpoint chunksFrom (star : bool) (chunk : list term) (ts : list term)
  : list (bool * list term) :=
  match ts with
  | [] =>
      match chunk with
      | [] => if star then [(true, [])] else []
      | _ => [(star, rev chunk)]
      end
  | Star :: ts' =>
      match chunk with
      | [] => chunksFrom true [] ts'
      | _ => (star, rev chunk) :: chunksFrom true [] ts'
      end
  | t :: ts' => chunksFrom star (t :: chunk) ts'
  end.

(** The loop of [Match] over the chunks: a chunk is matched where the
    name stands or, after stars, at the first place further on (no
    separator is passed over) where it matches; the last chunk has to
    use up the name; stars at the end match what has no separator. *)
Fixpoint matchChunks (chunks : list (bool * list term)) (name : string) : bool :=
  match chunks with
  | [] => String.eqb name ""
  | (star, chunk) :: rest =>
      let last := match rest with [] => true | _ => false end in
      let fits (t : string) := String.eqb t "" || negb last in
      match chunk with
      | [] => negb (Strings.ContainsByte name Separator)
      | _ =>
          let further :=
            (fix skip (n : string) : bool :=
               match n with
               | EmptyString => false
               | String c n' =>
                   if Ascii.eqb c Separator then false
                   else match matchChunk chunk n' with
                        | Some t => if fits t then matchChunks rest t else skip n'
                        | None => skip n'
                        end
               end) in
          match matchChunk chunk name with
          | Some t =>
              if fits t then matchChunks rest t
              else if star then further name else false
          | None => if star then further name else false
          end
      end
  end.

(** [filepath.Match]: [None] stands for [ErrBadPattern], the only error
    it returns; a malformed pattern gives it whatever the name. *)
Definition Match (pattern name : string) : option bool :=
  match parsePattern pattern with
  | None => None
  | Some ts => Some (matchChunks (chunksFrom false [] ts) name)
  end.

(** [hasMeta]: does the path hold one of the magic bytes of a pattern. *)
Definition hasMeta (path : string) : bool := Strings.ContainsAny path "*?[\".

(** [cleanGlobPath]: the directory of a pattern, ready for [glob]. *)
Definition cleanGlobPath (path : string) : string :=
  if String.eqb path "" then "."
  else if String.eqb path "/" then path
  else Strings.take (String.length path - 1) path.

End Filepath.

(** ** Byte-wise order of strings ([sort.Strings], [slices.Sort]) *)

(** [sort.Strings]: the strings in increasing byte-wise order.  Equal
    strings cannot be told apart, so the sorting algorithm does not show
    in the result. *)
Definition sortStrings (l : list string) : list string :=
  merge_sort String.le l.

(** ** The file system and the part of Go's [os] package the program uses *)

Module OS.

(** What a path can lead to: a regular file with its contents, a
    directory, a socket (stat succeeds, neither regular nor a directory,
    cannot be opened), or a symbolic link that cannot be followed, as one
    that leads back to itself (lstat succeeds, stat and open fail with
    [ELOOP], nothing can be made through it).  Links that can be
    followed, to a file, to a directory or to a missing target, are not
    part of this file system. *)
Inductive node :=
| File (contents : string)
| Dir
| Special
| Broken.

Definition IsRegular (n : node) : bool :=
  match n with File _ => true | _ => false end.

Definition IsDir (n : node) : bool :=
  match n with Dir => true | _ => false end.

Inductive errno :=
  ENOENT | ENOTDIR | EISDIR | ENOTEMPTY | ENXIO | EEXIST | EBUSY | ELOOP.

Inductive error :=
| ErrBadPattern
| ErrorString (msg : string)
| PathError (op path : string) (e : errno).

(** [os.IsNotExist]. *)
Definition IsNotExist (e : error) : bool :=
  match e with PathError _ _ ENOENT => true | _ => false end.

Inductive result (A : Type) :=
| Ok (a : A)
| Err (e : error).
Arguments Ok {A} a.
Arguments Err {A} e.

(** A place in the file system: whether it is reached from the root or
    from the working directory, and the names on the way.  The root and
    the working directory are the two places without names and are always
    directories.  [resolve] gives the place that a path names when it is
    read as [filepath.Clean] reads it; the program hands cleaned paths
    to every operation but [os.ReadDir], which gets the output directory
    as it was given and follows it as the kernel does ([walk]). *)
Abbreviation pkey := (bool * list string)%type.

Definition resolve (path : string) : pkey :=
  (Filepath.isRooted path, Filepath.cleanElems path).

Definition parent (k : pkey) : pkey := (k.1, removelast k.2).

Definition child (k : pkey) (name : string) : pkey := (k.1, (k.2 ++ [name])%list).

(** The name of a directory entry: not empty, not ["."] or [".."], no
    separator. *)
Definition validName (name : string) : bool :=
  negb (String.eqb name "") && negb (String.eqb name ".")
  && negb (String.eqb name "..")
  && negb (Strings.ContainsByte name Filepath.Separator).

Definition nodeAt (fs : gmap pkey node) (k : pkey) : option node :=
  match k.2 with
  | [] => Some Dir
  | _ => fs !! k
  end.

(** The entry of directory [k] that a node of the file system is, if it
    is one. *)
Definition entryOf (k : pkey) (kn : pkey * node) : option (string * node) :=
  match last kn.1.2 with
  | Some name =>
      if validName name && bool_decide (kn.1 = child k name)
      then Some (name, kn.2) else None
  | None => None
  end.

Definition entry_le (a b : string * node) : Prop := String.le a.1 b.1.

#[global] Instance entry_le_dec (a b : string * node) : Decision (entry_le a b).
Proof. unfold entry_le. apply _. Defined.

(** The entries of directory [k], sorted by name as [os.ReadDir] returns
    them. *)
Definition children (fs : gmap pkey node) (k : pkey) : list (string * node) :=
  merge_sort entry_le (omap (entryOf k) (map_to_list fs)).

(** [os.Lstat] and [os.Stat]; the node stands for the [FileInfo]. *)
Definition Lstat (fs : gmap pkey node) (path : string) : result node :=
  if String.eqb path "" then Err (PathError "lstat" path ENOENT)
  else match nodeAt fs (resolve path) with
       | Some n => Ok n
       | None => Err (PathError "lstat" path ENOENT)
       end.

Definition Stat (fs : gmap pkey node) (path : string) : result node :=
  if String.eqb path "" then Err (PathError "stat" path ENOENT)
  else match nodeAt fs (resolve path) with
       | Some Broken => Err (PathError "stat" path ELOOP)
       | None => Err (PathError "stat" path ENOENT)
       | Some n => Ok n
       end.

(** [os.ReadFile]. *)
Definition ReadFile (fs : gmap pkey node) (path : string) : result string :=
  if String.eqb path "" then Err (PathError "open" path ENOENT)
  else match nodeAt fs (resolve path) with
       | Some (File contents) => Ok contents
       | Some Dir => Err (PathError "read" path EISDIR)
       | Some Special => Err (PathError "open" path ENXIO)
       | Some Broken => Err (PathError "open" path ELOOP)
       | None => Err (PathError "open" path ENOENT)
       end.

(** How the kernel follows a path as it is written, element by element:
    each element is looked up in the directory that the elements before
    it led to, so that place has to be a directory, also where the
    element is empty, [.] or [..].  [stack] holds the names of the place
    reached, the last one first; the steps are the ones of
    [filepath.Clean], which leads to the same place when nothing is in
    the way. *)
Fixpoint walkFrom (fs : gmap pkey node) (rooted : bool)
    (stack elems : list string) : errno + pkey :=
  match elems with
  | [] => inr (rooted, rev stack)
  | e :: elems' =>
      match nodeAt fs (rooted, rev stack) with
      | Some Dir => walkFrom fs rooted (Filepath.cleanStep rooted stack e) elems'
      | Some (File _) | Some Special => inl ENOTDIR
      | Some Broken => inl ELOOP
      | None => inl ENOENT
      end
  end.

Definition walk (fs : gmap pkey node) (path : string) : errno + pkey :=
  walkFrom fs (Filepath.isRooted path) []
    (Strings.Split path Filepath.Separator).

(** [os.ReadDir]: the entries of the directory, sorted by name. *)
Definition ReadDir (fs : gmap pkey node) (path : string)
  : result (list (string * node)) :=
  if String.eqb path "" then Err (PathError "open" path ENOENT)
  else match walk fs path with
       | inl e => Err (PathError "open" path e)
       | inr k =>
           match nodeAt fs k with
           | Some Dir => Ok (children fs k)
           | Some (File _) | Some Special =>
               Err (PathError "readdirent" path ENOTDIR)
           | Some Broken => Err (PathError "open" path ELOOP)
           | None => Err (PathError "open" path ENOENT)
           end
       end.

(** [os.Remove]: removes the file or the empty directory. *)
Definition Remove (fs : gmap pkey node) (path : string)
  : result (gmap pkey node) :=
  if String.eqb path "" then Err (PathError "remove" path ENOENT)
  else
    let k := resolve path in
    match k.2 with
    | [] => Err (PathError "remove" path EBUSY)
    | _ =>
        match fs !! k with
        | None => Err (PathError "remove" path ENOENT)
        | Some Dir =>
            match children fs k with
            | [] => Ok (delete k fs)
            | _ => Err (PathError "remove" path ENOTEMPTY)
            end
        | Some _ => Ok (delete k fs)
        end
    end.

(** The walk of [os.MkdirAll] down the elements of the path: [done] are
    the elements passed, [todo] the ones to come.  A directory on the way
    is entered, a missing one is made, anything else is an error. *)
Fixpoint mkdirFrom (path : string) (fs : gmap pkey node) (rooted : bool)
    (done todo : list string) : result (gmap pkey node) :=
  match todo with
  | [] => Ok fs
  | e :: todo' =>
      let k := (rooted, (done ++ [e])%list) in
      match fs !! k with
      | Some Dir => mkdirFrom path fs rooted k.2 todo'
      | Some (File _) | Some Special => Err (PathError "mkdir" path ENOTDIR)
      | Some Broken => Err (PathError "mkdir" path EEXIST)
      | None => mkdirFrom path (<[k := Dir]> fs) rooted k.2 todo'
      end
  end.

(** [os.MkdirAll]. *)
Definition MkdirAll (fs : gmap pkey node) (path : string)
  : result (gmap pkey node) :=
  if String.eqb path "" then Err (PathError "mkdir" path ENOENT)
  else mkdirFrom path fs (resolve path).1 [] (resolve path).2.

(** [os.WriteFile]: creates the file in an existing directory, or
    replaces the contents of the regular file that is there. *)
Definition WriteFile (fs : gmap pkey node) (path contents : string)
  : result (gmap pkey node) :=
  if String.eqb path "" then Err (PathError "open" path ENOENT)
  else
    let k := resolve path in
    match nodeAt fs k with
    | Some (File _) => Ok (<[k := File contents]> fs)
    | Some Dir => Err (PathError "open" path EISDIR)
    | Some Special => Err (PathError "open" path ENXIO)
    | Some Broken => Err (PathError "open" path ELOOP)
    | None =>
        match nodeAt fs (parent k) with
        | Some Dir => Ok (<[k := File contents]> fs)
        | Some Broken => Err (PathError "open" path ELOOP)
        | None => Err (PathError "open" path ENOENT)
        | Some _ => Err (PathError "open" path ENOTDIR)
        end
    end.

End OS.

(** ** [filepath.Glob] *)

Import OS.

(** [glob]: the entries of directory [dir] whose names match [pattern],
    as paths under [dir], after the matches found so far.  A directory
    that cannot be read gives no match and no error. *)
Fixpoint globNames (dir pattern : string) (names matches : list string)
  : result (list string) :=
  match names with
  | [] => Ok matches
  | n :: names' =>
      match Filepath.Match pattern n with
      | None => Err ErrBadPattern
      | Some matched =>
          globNames dir pattern names'
            (if matched then (matches ++ [Filepath.Join dir n])%list
             else matches)
      end
  end.

Definition glob (fs : gmap pkey node) (dir pattern : string)
    (matches : list string) : result (list string) :=
  match Stat fs dir with
  | Err _ => Ok matches
  | Ok fi =>
      if negb (IsDir fi) then Ok matches
      else
        match ReadDir fs dir with
        | Err _ => Ok matches
        | Ok entries =>
            globNames dir pattern (sortStrings (map fst entries)) matches
        end
  end.

(** The loop of [globWithLimit] over the directories that matched. *)
Fixpoint globDirs (fs : gmap pkey node) (file : string)
    (dirs matches : list string) : result (list string) :=
  match dirs with
  | [] => Ok matches
  | d :: dirs' =>
      match glob fs d file matches with
      | Err e => Err e
      | Ok matches' => globDirs fs file dirs' matches'
      end
  end.

(** [globWithLimit]; [fuel] is what is left of [pathSeparatorsLimit]
    at the current depth. *)
Fixpoint globWithLimit (fuel : nat) (fs : gmap pkey node) (pattern : string)
  : result (list string) :=
  match fuel with
  | O => Err ErrBadPattern
  | S fuel' =>
      match Filepath.Match pattern "" with
      | None => Err ErrBadPattern
      | Some _ =>
          if negb (Filepath.hasMeta pattern) then
            match Lstat fs pattern with
            | Err _ => Ok []
            | Ok _ => Ok [pattern]
            end
          else
            let '(dir, file) := Filepath.Split pattern in
            let dir := Filepath.cleanGlobPath dir in
            if negb (Filepath.hasMeta dir) then glob fs dir file []
            else if String.eqb dir pattern then Err ErrBadPattern
            else
              match globWithLimit fuel' fs dir with
              | Err e => Err e
              | Ok m => globDirs fs file m []
              end
      end
  end.

(** [pathSeparatorsLimit = 10000]. *)
Definition pathSeparatorsLimit : nat := 100 * 100.

Definition Glob (fs : gmap pkey node) (pattern : string)
  : result (list string) :=
  globWithLimit pathSeparatorsLimit fs pattern.

(** ** The run: a state of files and standard output, and errors *)

Record world := World {
  files : gmap pkey node;
  stdout : list string
}.

Definition M (A : Type) : Type := world -> result A * world.

Definition ret {A} (a : A) : M A := fun w => (Ok a, w).

Definition fail {A} (e : error) : M A := fun w => (Err e, w).

Definition bind {A B} (m : M A) (f : A -> M B) : M B :=
  fun w =>
    match m w with
    | (Ok a, w') => f a w'
    | (Err e, w') => (Err e, w')
    end.

Notation "x <- m ;; k" := (bind m (fun x => k))
  (at level 100, m at next level, right associativity).
Notation "m ;;; k" := (bind m (fun _ => k))
  (at level 100, right associativity).

(** An operation that reads the files. *)
Definition reading {A} (f : gmap pkey node -> result A) : M A :=
  fun w => (f (files w), w).

(** An operation that changes the files, or fails and changes nothing. *)
Definition writing (f : gmap pkey node -> result (gmap pkey node)) : M unit :=
  fun w =>
    match f (files w) with
    | Ok fs' => (Ok tt, World fs' (stdout w))
    | Err e => (Err e, w)
    end.

(** [fmt.Printf] of one line to standard output. *)
Definition Printf (line : string) : M unit :=
  fun w => (Ok tt, World (files w) (stdout w ++ [line])%list).

(** ** Name derivation *)

(** [deriveSchemaNameFromFilename] (main.go, lines 185-193). *)
Definition deriveSchemaNameFromFilename (filename : string) : string :=
  let base := Filepath.Base filename in
  let base := Strings.TrimSuffix base ".pubsub.proto" in
  let safe := Strings.ToLower base in
  let safe := Strings.ReplaceAll safe "." "-" in
  let safe := Strings.ReplaceAll safe "_" "-" in
  safe.


(** ** The generator *)

(** [resolveInputs] (main.go, lines 55-73). *)
Definition keepRegular (fs : gmap pkey node) (files : list string)
    (m : string) : list string :=
  match Stat fs m with
  | Err _ => files
  | Ok st => if IsRegular st then (files ++ [m])%list else files
  end.

Definition resolveInputs (fs : gmap pkey node) (pubsubDir globPattern : string)
  : result (list string) :=
  let pattern := Filepath.Join pubsubDir globPattern in
  match Glob fs pattern with
  | Err err => Err err
  | Ok matches =>
      let files := fold_left (keepRegular fs) matches [] in
      Ok (sortStrings files)
  end.

(** [writeFile] (main.go, lines 141-148). *)
Definition writeFile (path contents : string) : M unit :=
  writing (fun fs => MkdirAll fs (Filepath.Dir path)) ;;;
  let contents := Strings.ReplaceAll contents crlf nl in
  writing (fun fs => WriteFile fs path contents).

(** The loop of [removeGeneratedSchemas] over the directory entries. *)
Fixpoint removeEntries (outputDir : string) (entries : list (string * node))
  : M unit :=
  match entries with
  | [] => ret tt
  | e :: entries' =>
      if IsDir e.2 then removeEntries outputDir entries'
      else
        let name := e.1 in
        if Strings.HasSuffix name ".schema.yaml" then
          writing (fun fs => Remove fs (Filepath.Join outputDir name)) ;;;
          removeEntries outputDir entries'
        else removeEntries outputDir entries'
  end.

(** [removeGeneratedSchemas] (main.go, lines 150-170). *)
Definition removeGeneratedSchemas (outputDir : string) : M unit :=
  fun w =>
    match ReadDir (files w) outputDir with
    | Err err => if IsNotExist err then (Ok tt, w) else (Err err, w)
    | Ok entries => removeEntries outputDir entries w
    end.

(** The text that [writeKustomization] builds. *)
Definition kustomizationText (resources : list string) : string :=
  let b := "" in
  let b := b ++ "apiVersion: kustomize.config.k8s.io/v1beta1" ++ nl in
  let b := b ++ "kind: Kustomization" ++ nl ++ nl in
  let b := b ++ "resources:" ++ nl in
  fold_left (fun b r => b ++ "  - " ++ r ++ nl) resources b.

(** [writeKustomization] (main.go, lines 172-183). *)
Definition writeKustomization (outputDir : string) (resources : list string)
  : M unit :=
  writeFile (Filepath.Join outputDir "kustomization.yaml")
            (kustomizationText resources).

(** The loop of [generateAll] over the input files; [generated] is the
    list of base names written so far. *)
Fixpoint generateEach (outputDir : string) (pubsubFiles generated : list string)
  : M (list string) :=
  match pubsubFiles with
  | [] => ret generated
  | p :: rest =>
      proto <- reading (fun fs => ReadFile fs p) ;;
      let name := deriveSchemaNameFromFilename p in
      let out := Filepath.Join outputDir (name ++ ".schema.yaml") in
      let manifest := schemaManifest name (normalizeNewlines proto) in
      writeFile out manifest ;;;
      Printf ("Wrote " ++ name ++ " -> " ++ out ++ nl) ;;;
      generateEach outputDir rest (generated ++ [Filepath.Base out])%list
  end.

(** [generateAll] (main.go, lines 75-106). *)
Definition generateAll (pubsubFiles : list string) (outputDir : string)
  : M unit :=
  match pubsubFiles with
  | [] => fail (ErrorString "no pubsub proto files found")
  | _ =>
      removeGeneratedSchemas outputDir ;;;
      generated <- generateEach outputDir pubsubFiles [] ;;
      let generated := sortStrings generated in
      writeKustomization outputDir generated
  end.

(** [run] (main.go, lines 21-40), the flags being parsed already: a
    missing [--output-dir] is the empty string. *)
Definition run (pubsubDir globPattern outputDir : string) : M unit :=
  if String.eqb outputDir "" then
    fail (ErrorString "missing required flag: --output-dir")
  else
    files <- reading (fun fs => resolveInputs fs pubsubDir globPattern) ;;
    generateAll files outputDir.


(** ** Definitions used to state the properties *)

(** [n] copies of the byte [c]. *)
Fixpoint repeatByte (n : nat) (c : ascii) : string :=
  match n with
  | O => EmptyString
  | S k => String c (repeatByte k c)
  end.

(** Does the string end with the byte [c]. *)
Fixpoint endsWith (s : string) (c : ascii) : bool :=
  match s with
  | EmptyString => false
  | String a EmptyString => Ascii.eqb a c
  | String _ s' => endsWith s' c
  end.

(** The three bytes CR CR LF. *)
Definition crcrlf : string := String Strings.CR crlf.

(** Undoing the indentation of a literal block: every line must start
    with the indent, which is cut off. *)
Definition stripLine (indent line : string) : option string :=
  if Strings.HasPrefix line indent
  then Some (Strings.drop (String.length indent) line)
  else None.

Definition stripIndent (s indent : string) : option string :=
  match mapM (stripLine indent) (Strings.Split s Strings.LF) with
  | Some lines => Some (Strings.Join lines nl)
  | None => None
  end.

(** Every byte of the string satisfies the test. *)
Fixpoint allBytes (p : ascii -> bool) (s : string) : bool :=
  match s with
  | EmptyString => true
  | String a s' => p a && allBytes p s'
  end.

(** The string with every byte replaced by its image. *)
Fixpoint mapBytes (f : ascii -> ascii) (s : string) : string :=
  match s with
  | EmptyString => EmptyString
  | String a s' => String (f a) (mapBytes f s')
  end.


Definition inRange (lo hi : nat) (c : ascii) : bool :=
  (lo <=? Ascii.nat_of_ascii c)%nat && (Ascii.nat_of_ascii c <=? hi)%nat.

(** ASCII letters and digits. *)
Definition isAlnum (c : ascii) : bool :=
  inRange 48 57 c || inRange 65 90 c || inRange 97 122 c.

(** The bytes of a raw schema identifier: alphanumerics, [.] and [_]. *)
Definition identByte (c : ascii) : bool :=
  isAlnum c || Ascii.eqb c "." || Ascii.eqb c "_".

(** The bytes of a derived name: lower-case letters, digits and [-]. *)
Definition nameByte (c : ascii) : bool :=
  inRange 48 57 c || inRange 97 122 c || Ascii.eqb c "-".

(** What name derivation does to one byte of the identifier. *)
Definition deriveByte (c : ascii) : ascii :=
  let c := Strings.lowerByte c in
  let c := if Ascii.eqb c "." then "-"%char else c in
  if Ascii.eqb c "_" then "-"%char else c.

(** Does [os.Stat] succeed on the path and report a regular file. *)
Definition statsRegular (fs : gmap pkey node) (path : string) : bool :=
  match Stat fs path with
  | Ok st => IsRegular st
  | Err _ => false
  end.

(** The exit status of [main] (main.go, lines 14-19). *)
Definition exitCode (r : result unit) : nat :=
  match r with
  | Ok _ => 0
  | Err _ => 1
  end.

(** ** Example file systems *)

(** The file system of the end-to-end example: the default input
    directory holds the one file [coreapp.test.v1.TestEvent.pubsub.proto]. *)
Definition exampleFS : gmap pkey node :=
  <[resolve "gen/proto/infra/pubsub/coreapp.test.v1.TestEvent.pubsub.proto"
      := File ("message TestEvent {}" ++ nl)]>
  (<[resolve "gen/proto/infra/pubsub" := Dir]>
  (<[resolve "gen/proto/infra" := Dir]>
  (<[resolve "gen/proto" := Dir]>
  (<[resolve "gen" := Dir]> ∅)))).

(** An input directory [in] with two schema files, a directory, a broken
    link and a socket that all match the default pattern, and an output
    directory [out] with a stale manifest, a directory whose name has the
    manifest suffix, and a file of another name. *)
Definition demoFS : gmap pkey node :=
  <[resolve "in/b.v1.Two.pubsub.proto" := File ("message Two {}" ++ crlf)]>
  (<[resolve "in/a.v1.One.pubsub.proto" := File "message One {}"]>
  (<[resolve "in/dir.pubsub.proto" := Dir]>
  (<[resolve "in/link.pubsub.proto" := Broken]>
  (<[resolve "in/sock.pubsub.proto" := Special]>
  (<[resolve "in" := Dir]>
  (<[resolve "out/old.schema.yaml" := File "stale"]>
  (<[resolve "out/keep.schema.yaml" := Dir]>
  (<[resolve "out/keep.schema.yaml/inner.schema.yaml" := File "inner"]>
  (<[resolve "out/README.md" := File "notes"]>
  (<[resolve "out" := Dir]> ∅)))))))))).

(** ** Cleaned paths *)

(** An element that [filepath.Clean] keeps: not empty, not ["."], without
    a separator. *)
Definition okElem (e : string) : bool :=
  negb (String.eqb e "") && negb (String.eqb e ".")
  && negb (Strings.ContainsByte e Filepath.Separator).

(** The stacks that [cleanStep] builds (last element first): [".."]
    elements only at the start of a relative path. *)
Fixpoint stackOK (rooted : bool) (stack : list string) : bool :=
  match stack with
  | [] => true
  | e :: rest =>
      okElem e
      && (if String.eqb e ".."
          then negb rooted && forallb (fun x => String.eqb x "..") rest
          else true)
      && stackOK rooted rest
  end.

(** The cleaned path of the directory with elements [st], ready for the
    name of an entry to be put after it. *)
Definition cleanPrefix (rooted : bool) (st : list string) : string :=
  (if rooted then "/" else "")
  ++ match st with
     | [] => ""
     | _ => Strings.Join st "/" ++ "/"
     end.

(** ** The effect of the run on the files *)

(** The files without the nodes at the given paths. *)
Definition removeKeys (ks : list pkey) (fs : gmap pkey node) : gmap pkey node :=
  fold_left (fun fs k => delete k fs) ks fs.

(** The suffix of a generated manifest. *)
Definition manifestSuffix : string := ".schema.yaml".

(** The entries that [removeGeneratedSchemas] deletes: the ones that are
    not directories and whose name has the manifest suffix. *)
Definition isStaleEntry (e : string * node) : bool :=
  negb (IsDir e.2) && Strings.HasSuffix e.1 manifestSuffix.

Definition staleKeys (dir : pkey) (entries : list (string * node)) : list pkey :=
  map (fun e => child dir e.1) (List.filter isStaleEntry entries).

(** The paths of the directories on the way to [done ++ todo], below
    [done]: the ones that [mkdirFrom] visits. *)
Fixpoint dirKeysFrom (rooted : bool) (done todo : list string) : list pkey :=
  match todo with
  | [] => []
  | e :: todo' =>
      (rooted, (done ++ [e])%list) :: dirKeysFrom rooted (done ++ [e])%list todo'
  end.

Definition dirKeys (k : pkey) : list pkey := dirKeysFrom k.1 [] k.2.

(** The files with a directory made at each of the paths that had none. *)
Definition withDirs (ks : list pkey) (fs : gmap pkey node) : gmap pkey node :=
  fold_left (fun fs k => match fs !! k with
                         | None => <[k := Dir]> fs
                         | Some _ => fs
                         end) ks fs.

(** The base name of the manifest written for an input file, and the
    text written into it when the input holds [proto]. *)
Definition manifestName (p : string) : string :=
  deriveSchemaNameFromFilename p ++ manifestSuffix.

Definition manifestBody (p proto : string) : string :=
  Strings.ReplaceAll
    (schemaManifest (deriveSchemaNameFromFilename p) (normalizeNewlines proto))
    crlf nl.

(** The text written into [kustomization.yaml] for the input files. *)
Definition indexBody (ps : list string) : string :=
  Strings.ReplaceAll
    (kustomizationText (sortStrings (map manifestName ps))) crlf nl.

(** The files after the manifests of the inputs [pcs] (path and contents)
    were written into directory [dir], in order. *)
Definition putAll (dir : pkey) (pcs : list (string * string))
    (fs : gmap pkey node) : gmap pkey node :=
  fold_left (fun fs pc =>
               <[child dir (manifestName pc.1) := File (manifestBody pc.1 pc.2)]> fs)
            pcs fs.

(** The path is free or holds a directory: [os.MkdirAll] can pass. *)
Definition dirOrFree (fs : gmap pkey node) (k : pkey) : Prop :=
  fs !! k = None \/ fs !! k = Some Dir.

(** The path is free or holds a regular file: [os.WriteFile] can write
    (into an existing directory). *)
Definition fileOrFree (fs : gmap pkey node) (k : pkey) : Prop :=
  fs !! k = None \/ exists c, fs !! k = Some (File c).

(** One round of the loop of [generateAll] that succeeds: the directories
    down to the output directory exist afterwards and the manifest of input
    [p], which held [proto], is in the output directory [dir]. *)
Definition stepFiles (dir : pkey) (p proto : string) (fs : gmap pkey node)
  : gmap pkey node :=
  <[child dir (manifestName p) := File (manifestBody p proto)]>
    (withDirs (dirKeys dir) fs).

(** What the writes of one round need: no file in the way of the
    directories, no directory in the way of the manifest. *)
Definition stepOK (dir : pkey) (p : string) (fs : gmap pkey node) : Prop :=
  Forall (dirOrFree fs) (dirKeys dir)
  /\ fileOrFree fs (child dir (manifestName p)).

(** The progress line of one round. *)
Definition progressLine (outputDir p : string) : string :=
  "Wrote " ++ deriveSchemaNameFromFilename p ++ " -> "
  ++ Filepath.Join outputDir (manifestName p) ++ nl.

(** The base name of the index manifest. *)
Definition indexName : string := "kustomization.yaml".

(** Example inputs and files for the order of the index: two schema
    files whose derived names are [a] and [b]. *)
Definition abFS : gmap pkey node :=
  <[resolve "in/a.pubsub.proto" := File ("message A {}" ++ nl)]>
  (<[resolve "in/b.pubsub.proto" := File ("message B {}" ++ nl)]>
  (<[resolve "in" := Dir]> ∅)).

(** Two schema files with the same derived name [x-y]. *)
Definition dupFS : gmap pkey node :=
  <[resolve "in/x.y.pubsub.proto" := File ("message First {}" ++ nl)]>
  (<[resolve "in/x_y.pubsub.proto" := File ("message Second {}" ++ nl)]>
  (<[resolve "in" := Dir]> ∅)).

(** The input file does not lie directly in directory [dir]. *)
Definition outsideDir (dir : pkey) (p : string) : Prop :=
  parent (resolve p) <> dir.

(** The files after the rounds of the loop for the inputs [pcs] (path
    and contents). *)
Definition runFiles (dir : pkey) (pcs : list (string * string))
    (fs : gmap pkey node) : gmap pkey node :=
  fold_left (fun fs pc => stepFiles dir pc.1 pc.2 fs) pcs fs.

(** The files after a run that succeeds: [fs] are the files after the
    stale manifests were removed, [cs] the contents of the inputs [ps]. *)
Definition finalFiles (dir : pkey) (ps cs : list string)
    (fs : gmap pkey node) : gmap pkey node :=
  <[child dir indexName := File (indexBody ps)]>
    (putAll dir (zip ps cs) (withDirs (dirKeys dir) fs)).

(** The files after [removeGeneratedSchemas] succeeded. *)
Definition cleanedFiles (outputDir : string) (fs : gmap pkey node)
  : gmap pkey node :=
  match ReadDir fs outputDir with
  | Ok entries => removeKeys (staleKeys (resolve outputDir) entries) fs
  | Err _ => fs
  end.

(** Every node below the root or the working directory lies in a
    directory. *)
Definition wellFormed (fs : gmap pkey node) : Prop :=
  forall k n, fs !! k = Some n -> k.2 <> [] -> nodeAt fs (parent k) = Some Dir.

(** The same, as a test that can be run. *)
Definition wellFormedb (fs : gmap pkey node) : bool :=
  forallb (fun kn =>
             match kn.1.2 with
             | [] => true
             | _ => match nodeAt fs (parent kn.1) with
                    | Some Dir => true
                    | _ => false
                    end
             end) (map_to_list fs).

(** Two runs of the loop side by side, the first from the files [fa]
    and now at [K], the second from [fb] and now at [L]: once the
    directories [ks] are made, a path holds the same in both, or it is
    none of the paths [written] so far and holds in each run what it held
    at the start of that run. *)
Definition replayed (ks written : list pkey) (fa fb K L : gmap pkey node)
  : Prop :=
  forall k,
    withDirs ks K !! k = withDirs ks L !! k
    \/ ((k ∉ written)
        /\ withDirs ks K !! k = withDirs ks fa !! k
        /\ withDirs ks L !! k = withDirs ks fb !! k).

(** What a run may do to the path [k], apart from the files it writes
    and removes: leave it as it is, or make the missing directory there
    when [k] is one of the paths [ks]. *)
Definition keptOrMade (ks : list pkey) (fs fs' : gmap pkey node) (k : pkey)
  : Prop :=
  fs' !! k = fs !! k
  \/ (k ∈ ks /\ fs !! k = None /\ fs' !! k = Some Dir).

(** Files for a run that fails half-way: the manifest of the second
    input would have the name of a directory of the output directory. *)
Definition failFS : gmap pkey node :=
  <[resolve "in/a.pubsub.proto" := File ("message A {}" ++ nl)]>
  (<[resolve "in/keep.pubsub.proto" := File ("message Keep {}" ++ nl)]>
  (<[resolve "in" := Dir]>
  (<[resolve "out/old.schema.yaml" := File "stale"]>
  (<[resolve "out/keep.schema.yaml" := Dir]>
  (<[resolve "out/kustomization.yaml" := File "the index before"]>
  (<[resolve "out" := Dir]> ∅)))))).

(** ** Following a path as the kernel does *)

(** The places that the walk along the elements passes: each has to be a
    directory for the walk to go on. *)
Fixpoint walkKeysFrom (rooted : bool) (stack elems : list string) : list pkey :=
  match elems with
  | [] => []
  | e :: elems' =>
      (rooted, rev stack)
        :: walkKeysFrom rooted (Filepath.cleanStep rooted stack e) elems'
  end.

Definition walkKeys (path : string) : list pkey :=
  walkKeysFrom (Filepath.isRooted path) []
    (Strings.Split path Filepath.Separator).

(** What the path leads to when it is followed element by element, as
    [lstat] reports it: the node, or the error. *)
Definition lookupPath (fs : gmap pkey node) (path : string) : errno + node :=
  if String.eqb path "" then inl ENOENT
  else match walk fs path with
       | inl e => inl e
       | inr k => match nodeAt fs k with
                  | Some n => inr n
                  | None => inl ENOENT
                  end
       end.

(** * Properties *)

(** ** Results *)

Lemma result_pair {A : Type} (x : result A * world) (a : A) :
  x.1 = Ok a -> x = (Ok a, x.2).
Proof. destruct x as [r w]. cbn [fst snd]. intros ->. reflexivity. Qed.

(** ** Strings *)

Lemma str_app_cons (a : ascii) (s t : string) : String a s ++ t = String a (s ++ t).
Proof. reflexivity. Qed.

Lemma str_app_nil_l (s : string) : "" ++ s = s.
Proof. reflexivity. Qed.

Lemma str_app_nil_r (s : string) : s ++ "" = s.
Proof. induction s as [|a s IH]; [reflexivity|]. rewrite str_app_cons, IH. reflexivity. Qed.

Lemma str_app_assoc (s t u : string) : (s ++ t) ++ u = s ++ t ++ u.
Proof.
  induction s as [|a s IH]; [reflexivity|].
  rewrite !str_app_cons, IH. reflexivity.
Qed.

Lemma str_length_app (s t : string) :
  String.length (s ++ t) = String.length s + String.length t.
Proof.
  induction s as [|a s IH]; [reflexivity|].
  rewrite str_app_cons. simpl. rewrite IH. reflexivity.
Qed.

Lemma str_take_drop (n : nat) (s : string) : Strings.take n s ++ Strings.drop n s = s.
Proof.
  revert n. induction s as [|a s IH]; intros [|n]; try reflexivity.
  simpl. rewrite str_app_cons, IH. reflexivity.
Qed.

Lemma str_take_app_length (s t : string) : Strings.take (String.length s) (s ++ t) = s.
Proof.
  induction s as [|a s IH].
  - destruct t; reflexivity.
  - rewrite str_app_cons. simpl. rewrite IH. reflexivity.
Qed.

Lemma str_drop_app_length (s t : string) : Strings.drop (String.length s) (s ++ t) = t.
Proof.
  induction s as [|a s IH].
  - destruct t; reflexivity.
  - rewrite str_app_cons. simpl. exact IH.
Qed.

Lemma HasSuffix_app (s suf : string) : Strings.HasSuffix (s ++ suf) suf = true.
Proof.
  unfold Strings.HasSuffix. rewrite str_length_app.
  replace (String.length s + String.length suf - String.length suf)
    with (String.length s) by lia.
  rewrite str_drop_app_length, String.eqb_refl, andb_true_r.
  apply Nat.leb_le. lia.
Qed.

Lemma HasSuffix_inv (s suf : string) :
  Strings.HasSuffix s suf = true ->
  s = Strings.take (String.length s - String.length suf) s ++ suf.
Proof.
  unfold Strings.HasSuffix. intros [_ H]%andb_prop.
  apply String.eqb_eq in H.
  remember (String.length s - String.length suf) as n eqn:En.
  rewrite <- H. symmetry. apply str_take_drop.
Qed.

Lemma HasSuffix_iff (s suf : string) :
  Strings.HasSuffix s suf = true <-> exists t, s = t ++ suf.
Proof.
  split.
  - intros H. eexists. apply HasSuffix_inv, H.
  - intros [t ->]. apply HasSuffix_app.
Qed.

Lemma TrimSuffix_app (s suf : string) : Strings.TrimSuffix (s ++ suf) suf = s.
Proof.
  unfold Strings.TrimSuffix. rewrite HasSuffix_app, str_length_app.
  replace (String.length s + String.length suf - String.length suf)
    with (String.length s) by lia.
  apply str_take_app_length.
Qed.

Lemma app_snoc_inj (s t : string) (a b : ascii) :
  s ++ Strings.str a = t ++ Strings.str b -> s = t /\ a = b.
Proof.
  revert t. induction s as [|x s IH]; intros [|y t] H.
  - injection H as ->. auto.
  - rewrite str_app_cons in H. injection H as -> H. destruct t; discriminate.
  - rewrite str_app_cons in H. injection H as -> H. destruct s; discriminate.
  - rewrite !str_app_cons in H. injection H as -> H.
    destruct (IH _ H) as [-> ->]. auto.
Qed.

Lemma endsWith_snoc (s : string) (a c : ascii) :
  endsWith (s ++ Strings.str a) c = Ascii.eqb a c.
Proof.
  induction s as [|x s IH]; [reflexivity|].
  rewrite str_app_cons. simpl. rewrite IH.
  destruct (s ++ Strings.str a) eqn:E; [|reflexivity].
  destruct s; discriminate.
Qed.

Lemma endsWith_iff (s : string) (c : ascii) :
  endsWith s c = true <-> exists t, s = t ++ Strings.str c.
Proof.
  split.
  - induction s as [|a s IH]; [discriminate|].
    destruct s as [|b s].
    + simpl. intros ->%Ascii.eqb_eq. exists "". reflexivity.
    + intros H. destruct (IH H) as [t Ht]. exists (String a t).
      rewrite str_app_cons, <- Ht. reflexivity.
  - intros [t ->]. rewrite endsWith_snoc. apply Ascii.eqb_refl.
Qed.

Lemma HasSuffix_endsWith (s : string) (c : ascii) :
  Strings.HasSuffix s (Strings.str c) = endsWith s c.
Proof.
  apply eq_true_iff_eq. rewrite HasSuffix_iff, endsWith_iff. reflexivity.
Qed.
Lemma repeatByte_snoc (k : nat) (c : ascii) :
  repeatByte k c ++ Strings.str c = repeatByte (S k) c.
Proof.
  induction k as [|k IH]; [reflexivity|].
  simpl. rewrite str_app_cons, IH. reflexivity.
Qed.

Lemma TrimRight_decomp (s : string) (c : ascii) :
  exists k, s = Strings.TrimRight s c ++ repeatByte k c.
Proof.
  induction s as [|a s [k IH]].
  - exists 0. reflexivity.
  - simpl. destruct (Strings.TrimRight s c) as [|b t] eqn:E.
    + destruct (Ascii.eqb_spec a c) as [->|_].
      * exists (S k). rewrite IH at 1. reflexivity.
      * exists k. rewrite IH at 1. reflexivity.
    + exists k. rewrite IH at 1. reflexivity.
Qed.

Lemma TrimRight_endsWith (s : string) (c : ascii) :
  endsWith (Strings.TrimRight s c) c = false.
Proof.
  induction s as [|a s IH]; [reflexivity|].
  simpl. destruct (Strings.TrimRight s c) as [|b t] eqn:E.
  - destruct (Ascii.eqb_spec a c) as [->|Hne]; [reflexivity|].
    simpl. apply Ascii.eqb_neq, Hne.
  - exact IH.
Qed.

Lemma ReplaceAll_crlf_hit (s : string) :
  Strings.ReplaceAll (String Strings.CR (String Strings.LF s)) crlf nl
  = String Strings.LF (Strings.ReplaceAll s crlf nl).
Proof. reflexivity. Qed.

Lemma ReplaceAll_miss (a : ascii) (s old new : string) :
  Strings.HasPrefix (String a s) old = false ->
  Strings.ReplaceAll (String a s) old new
  = String a (Strings.ReplaceAll s old new).
Proof. intros H. unfold Strings.ReplaceAll. simpl. rewrite H. reflexivity. Qed.

Lemma HasPrefix_crlf (a : ascii) (s : string) :
  Strings.HasPrefix (String a s) crlf
  = Ascii.eqb a Strings.CR && Strings.HasPrefix s nl.
Proof. reflexivity. Qed.

Lemma HasPrefix_nl (s : string) :
  Strings.HasPrefix s nl = match s with String a _ => Ascii.eqb a Strings.LF | _ => false end.
Proof. destruct s as [|a s]; [reflexivity|]. simpl. apply andb_true_r. Qed.

Lemma Contains_cons (a : ascii) (s sub : string) :
  Strings.Contains (String a s) sub
  = Strings.HasPrefix (String a s) sub || Strings.Contains s sub.
Proof. reflexivity. Qed.

Lemma Contains_repeat_LF (n : nat) :
  Strings.Contains (repeatByte n Strings.LF) crlf = false.
Proof. induction n as [|n IH]; [reflexivity|]. simpl. exact IH. Qed.

Lemma Contains_crlf_trailing (t : string) (k : nat) :
  Strings.Contains (t ++ repeatByte (S k) Strings.LF) crlf
  = Strings.Contains (t ++ nl) crlf.
Proof.
  induction t as [|a t IH].
  - rewrite !str_app_nil_l. rewrite Contains_repeat_LF. reflexivity.
  - rewrite !str_app_cons, !Contains_cons, !HasPrefix_crlf, IH.
    f_equal. f_equal. rewrite !HasPrefix_nl.
    destruct t; reflexivity.
Qed.

Lemma Contains_crlf_TrimRight (r : string) :
  Strings.Contains (Strings.TrimRight r Strings.LF ++ nl) crlf
  = Strings.Contains (r ++ nl) crlf.
Proof.
  destruct (TrimRight_decomp r Strings.LF) as [k E].
  rewrite E at 2. rewrite str_app_assoc.
  change nl with (Strings.str Strings.LF) at 2.
  rewrite repeatByte_snoc. symmetry. apply Contains_crlf_trailing.
Qed.

Lemma ReplaceAll_crlf_cons (a : ascii) (s : string) :
  Strings.ReplaceAll (String a s) crlf nl
  = if Ascii.eqb a Strings.CR && Strings.HasPrefix s nl
    then String Strings.LF (Strings.ReplaceAll (Strings.drop 1 s) crlf nl)
    else String a (Strings.ReplaceAll s crlf nl).
Proof.
  destruct (Ascii.eqb a Strings.CR && Strings.HasPrefix s nl) eqn:E.
  - apply andb_prop in E as [->%Ascii.eqb_eq E]. rewrite HasPrefix_nl in E.
    destruct s as [|b s]; [discriminate|]. apply Ascii.eqb_eq in E as ->.
    reflexivity.
  - apply ReplaceAll_miss. rewrite HasPrefix_crlf. exact E.
Qed.

Lemma endsWith_cons (a c : ascii) (s : string) :
  endsWith (String a s) c
  = match s with EmptyString => Ascii.eqb a c | _ => endsWith s c end.
Proof. destruct s; reflexivity. Qed.

Lemma HasPrefix_crcrlf (a : ascii) (s : string) :
  Strings.HasPrefix (String a s) crcrlf
  = Ascii.eqb a Strings.CR && Strings.HasPrefix s crlf.
Proof. reflexivity. Qed.

Lemma HasPrefix_ReplaceAll_crlf (s : string) :
  Strings.HasPrefix (Strings.ReplaceAll s crlf nl ++ nl) nl
  = match s with
    | EmptyString => true
    | _ => Strings.HasPrefix s nl || Strings.HasPrefix s crlf
    end.
Proof.
  destruct s as [|a s]; [reflexivity|].
  rewrite ReplaceAll_crlf_cons, HasPrefix_crlf.
  destruct (Ascii.eqb a Strings.CR && Strings.HasPrefix s nl) eqn:E.
  - rewrite orb_true_r. reflexivity.
  - rewrite orb_false_r, str_app_cons, !HasPrefix_nl. reflexivity.
Qed.

Lemma Contains_ReplaceAll_crlf (n : nat) (s : string) :
  String.length s <= n ->
  Strings.Contains (Strings.ReplaceAll s crlf nl ++ nl) crlf
  = Strings.Contains s crcrlf || endsWith s Strings.CR.
Proof.
  revert s. induction n as [|n IH]; intros s Hn.
  - destruct s; [reflexivity|simpl in Hn; lia].
  - destruct s as [|a s]; [reflexivity|]. simpl in Hn.
    rewrite ReplaceAll_crlf_cons, (Contains_cons a s), HasPrefix_crcrlf,
      endsWith_cons.
    destruct (Ascii.eqb a Strings.CR && Strings.HasPrefix s nl) eqn:E.
    + apply andb_prop in E as [-> E]. rewrite HasPrefix_nl in E.
      destruct s as [|b s]; [discriminate|]. apply Ascii.eqb_eq in E as ->.
      simpl in Hn. simpl Strings.drop.
      rewrite str_app_cons, Contains_cons, IH by lia.
      rewrite (Contains_cons Strings.LF s), endsWith_cons.
      destruct s; reflexivity.
    + rewrite str_app_cons, Contains_cons, HasPrefix_crlf, IH by lia.
      rewrite HasPrefix_ReplaceAll_crlf.
      destruct s as [|b s].
      * simpl. destruct (Ascii.eqb a Strings.CR); reflexivity.
      * rewrite HasPrefix_crlf in *.
        destruct (Ascii.eqb a Strings.CR); simpl in E |- *.
        -- rewrite E, orb_false_l, !orb_assoc. reflexivity.
        -- reflexivity.
Qed.

Lemma Contains_normalizeNewlines (s : string) :
  Strings.Contains (normalizeNewlines s) crlf
  = Strings.Contains s crcrlf || endsWith s Strings.CR.
Proof.
  unfold normalizeNewlines. rewrite Contains_crlf_TrimRight.
  apply (Contains_ReplaceAll_crlf (String.length s)). lia.
Qed.

(** ** Newline normalization *)

(** C3, the claim as stated fails: the input that is a single carriage
    return is normalized to the two bytes CR LF, so the result does hold a
    CRLF sequence. *)
Lemma normalizeNewlines_lone_CR_gives_CRLF :
  normalizeNewlines (Strings.str Strings.CR) = crlf
  /\ Strings.Contains (normalizeNewlines (Strings.str Strings.CR)) crlf = true.
Proof. split; reflexivity. Qed.

(** C3, amended: for every input, [normalizeNewlines] replaces the CRLF
    pairs by LF, strips all trailing LF bytes and appends one LF: the result
    is [t ++ LF] where the replaced text is [t] followed by LF bytes only
    and [t] does not end with LF, so that the result ends with exactly one
    newline.  The result holds a CRLF sequence exactly when the input holds
    CR CR LF or ends with CR. *)
Theorem normalizeNewlines_one_trailing_newline (s : string) :
  let r := Strings.ReplaceAll s crlf nl in
  let t := Strings.TrimRight r Strings.LF in
  normalizeNewlines s = t ++ nl
  /\ (exists k, r = t ++ repeatByte k Strings.LF)
  /\ Strings.HasSuffix t nl = false
  /\ Strings.HasSuffix (normalizeNewlines s) nl = true
  /\ Strings.HasSuffix (normalizeNewlines s) (nl ++ nl) = false
  /\ (Strings.Contains (normalizeNewlines s) crlf = true <->
      Strings.Contains s crcrlf = true
      \/ Strings.HasSuffix s (Strings.str Strings.CR) = true).
Proof.
  intros r t.
  assert (Ht : Strings.HasSuffix t nl = false).
  { unfold nl. rewrite HasSuffix_endsWith. apply TrimRight_endsWith. }
  split; [reflexivity|]. split; [apply TrimRight_decomp|].
  split; [exact Ht|]. split; [apply HasSuffix_app|]. split.
  - destruct (Strings.HasSuffix (normalizeNewlines s) (nl ++ nl)) eqn:E;
      [|reflexivity].
    apply HasSuffix_iff in E as [u E]. unfold normalizeNewlines in E.
    fold r in E. fold t in E. rewrite <- str_app_assoc in E.
    apply app_snoc_inj in E as [E _].
    rewrite <- Ht. symmetry. apply HasSuffix_iff. exists u. exact E.
  - rewrite Contains_normalizeNewlines, HasSuffix_endsWith.
    apply orb_true_iff.
Qed.

(** ** Splitting and joining *)

Lemma ContainsByte_app (s t : string) (c : ascii) :
  Strings.ContainsByte (s ++ t) c
  = Strings.ContainsByte s c || Strings.ContainsByte t c.
Proof.
  induction s as [|a s IH]; [reflexivity|].
  rewrite str_app_cons. simpl. rewrite IH, orb_assoc. reflexivity.
Qed.

Lemma Split_nonempty (s : string) (c : ascii) : Strings.Split s c <> [].
Proof.
  induction s as [|a s IH]; [discriminate|].
  simpl. destruct (Ascii.eqb a c); [discriminate|].
  destruct (Strings.Split s c); [contradiction|discriminate].
Qed.

Lemma Split_cons_other (a c : ascii) (s : string) :
  Ascii.eqb a c = false ->
  exists piece rest,
    Strings.Split s c = piece :: rest
    /\ Strings.Split (String a s) c = String a piece :: rest.
Proof.
  intros H. simpl. rewrite H.
  destruct (Strings.Split s c) as [|piece rest] eqn:E.
  - destruct (Split_nonempty _ _ E).
  - eauto.
Qed.

Lemma Split_no_sep (s : string) (c : ascii) :
  Strings.ContainsByte s c = false -> Strings.Split s c = [s].
Proof.
  induction s as [|a s IH]; [reflexivity|].
  simpl. intros [Ha Hs]%orb_false_elim. rewrite Ha, (IH Hs). reflexivity.
Qed.

Lemma Split_app_sep (e x : string) (c : ascii) :
  Strings.ContainsByte e c = false ->
  Strings.Split (e ++ String c x) c = e :: Strings.Split x c.
Proof.
  induction e as [|a e IH].
  - intros _. rewrite str_app_nil_l. simpl. rewrite Ascii.eqb_refl. reflexivity.
  - simpl. intros [Ha He]%orb_false_elim.
    rewrite ?str_app_cons. simpl. rewrite Ha, (IH He). reflexivity.
Qed.

Lemma Split_pieces (s : string) (c : ascii) :
  Forall (fun piece => Strings.ContainsByte piece c = false) (Strings.Split s c).
Proof.
  induction s as [|a s IH]; [repeat constructor|].
  simpl. destruct (Ascii.eqb a c) eqn:Ha.
  - constructor; [reflexivity|exact IH].
  - destruct (Strings.Split s c) as [|piece rest]; [repeat constructor; simpl; rewrite Ha; reflexivity|].
    inversion IH as [|? ? Hp Hr]; subst. constructor; [|exact Hr].
    simpl. rewrite Ha, Hp. reflexivity.
Qed.

Lemma Join_cons (e : string) (l : list string) (sep : string) :
  l <> [] -> Strings.Join (e :: l) sep = e ++ sep ++ Strings.Join l sep.
Proof. destruct l; [contradiction|reflexivity]. Qed.

Lemma Join_Split (s : string) (c : ascii) :
  Strings.Join (Strings.Split s c) (Strings.str c) = s.
Proof.
  induction s as [|a s IH]; [reflexivity|].
  simpl Strings.Split. destruct (Ascii.eqb_spec a c) as [->|Ha].
  - rewrite Join_cons by apply Split_nonempty. rewrite IH. reflexivity.
  - destruct (Strings.Split s c) as [|piece rest] eqn:E.
    + destruct (Split_nonempty _ _ E).
    + destruct rest as [|q rest].
      * simpl in *. rewrite IH. reflexivity.
      * rewrite Join_cons in * by discriminate.
        rewrite str_app_cons, IH. reflexivity.
Qed.

Lemma Split_Join (l : list string) (c : ascii) :
  l <> [] ->
  Forall (fun piece => Strings.ContainsByte piece c = false) l ->
  Strings.Split (Strings.Join l (Strings.str c)) c = l.
Proof.
  induction l as [|e l IH]; [contradiction|]. intros _ Hl.
  inversion Hl as [|? ? He Hl']; subst.
  destruct l as [|e' l].
  - apply Split_no_sep, He.
  - rewrite Join_cons by discriminate.
    transitivity (e :: Strings.Split (Strings.Join (e' :: l) (Strings.str c)) c).
    + apply (Split_app_sep e _ c He).
    + rewrite IH by (discriminate || exact Hl'). reflexivity.
Qed.

(** ** Indentation *)

Lemma HasPrefix_app (s t : string) : Strings.HasPrefix (s ++ t) s = true.
Proof.
  induction s as [|a s IH]; [reflexivity|].
  rewrite str_app_cons. simpl. rewrite Ascii.eqb_refl. exact IH.
Qed.

Lemma stripLine_indentLine (indent line : string) :
  stripLine indent (indentLine indent line) = Some line.
Proof.
  unfold stripLine, indentLine.
  destruct (String.eqb_spec line "") as [->|_].
  - pose proof (HasPrefix_app indent "") as Hp.
    pose proof (str_drop_app_length indent "") as Hd.
    rewrite str_app_nil_r in Hp, Hd. rewrite Hp, Hd. reflexivity.
  - rewrite HasPrefix_app, str_drop_app_length. reflexivity.
Qed.

Lemma indentLine_no_sep (indent line : string) (c : ascii) :
  Strings.ContainsByte indent c = false ->
  Strings.ContainsByte line c = false ->
  Strings.ContainsByte (indentLine indent line) c = false.
Proof.
  intros Hi Hl. unfold indentLine. destruct (String.eqb line ""); [exact Hi|].
  rewrite ContainsByte_app, Hi, Hl. reflexivity.
Qed.

Lemma stripIndent_indent (s indent : string) :
  Strings.ContainsByte indent Strings.LF = false ->
  stripIndent (indentForYAMLLiteralBlock s indent) indent = Some s.
Proof.
  intros Hi. unfold stripIndent, indentForYAMLLiteralBlock.
  change nl with (Strings.str Strings.LF).
  rewrite Split_Join.
  - change (map (indentLine indent)) with (fmap (M:=list) (indentLine indent)).
    rewrite mapM_fmap_Some by apply stripLine_indentLine.
    rewrite Join_Split. reflexivity.
  - destruct (Strings.Split s Strings.LF) eqn:E; [|discriminate].
    destruct (Split_nonempty _ _ E).
  - apply Forall_forall. intros x Hx.
    apply (list_elem_of_fmap_1 (indentLine indent)) in Hx as [line [-> Hin]].
    apply indentLine_no_sep; [exact Hi|].
    pose proof (Split_pieces s Strings.LF) as Hp.
    rewrite Forall_forall in Hp. apply Hp, Hin.
Qed.

(** C4: indenting the normalized text by four spaces and then cutting the
    four spaces off every line gives the normalized text back, for every
    input text; no line of the indented block lacks the indent. *)
Theorem indent_roundtrip (s : string) :
  stripIndent (indentForYAMLLiteralBlock (normalizeNewlines s) "    ") "    "
  = Some (normalizeNewlines s).
Proof. apply stripIndent_indent. reflexivity. Qed.

(** ** Name derivation *)

Lemma ReplaceAll_byte (s : string) (a b : ascii) :
  Strings.ReplaceAll s (Strings.str a) (Strings.str b)
  = mapBytes (fun c => if Ascii.eqb c a then b else c) s.
Proof.
  unfold Strings.ReplaceAll.
  induction s as [|c s IH]; [reflexivity|].
  simpl. rewrite andb_true_r. destruct (Ascii.eqb c a).
  - rewrite ?str_app_cons, ?str_app_nil_l, IH. reflexivity.
  - rewrite IH. reflexivity.
Qed.

Lemma ToLower_mapBytes (s : string) : Strings.ToLower s = mapBytes Strings.lowerByte s.
Proof. induction s as [|c s IH]; [reflexivity|]. simpl. rewrite IH. reflexivity. Qed.

Lemma mapBytes_mapBytes (f g : ascii -> ascii) (s : string) :
  mapBytes f (mapBytes g s) = mapBytes (fun c => f (g c)) s.
Proof. induction s as [|c s IH]; [reflexivity|]. simpl. rewrite IH. reflexivity. Qed.

Lemma mapBytes_id (f : ascii -> ascii) (p : ascii -> bool) (s : string) :
  (forall c, p c = true -> f c = c) -> allBytes p s = true -> mapBytes f s = s.
Proof.
  intros Hf. induction s as [|c s IH]; [reflexivity|].
  simpl. intros [Hc Hs]%andb_prop. rewrite (Hf c Hc), (IH Hs). reflexivity.
Qed.

Lemma allBytes_mapBytes (f : ascii -> ascii) (p q : ascii -> bool) (s : string) :
  (forall c, p c = true -> q (f c) = true) ->
  allBytes p s = true -> allBytes q (mapBytes f s) = true.
Proof.
  intros Hf. induction s as [|c s IH]; [reflexivity|].
  simpl. intros [Hc Hs]%andb_prop. rewrite (Hf c Hc), (IH Hs). reflexivity.
Qed.

Lemma allBytes_not_Contains (p : ascii -> bool) (s : string) (c : ascii) :
  p c = false -> allBytes p s = true -> Strings.ContainsByte s c = false.
Proof.
  intros Hc. induction s as [|a s IH]; [reflexivity|].
  simpl. intros [Ha Hs]%andb_prop. rewrite (IH Hs), orb_false_r.
  destruct (Ascii.eqb_spec a c) as [->|]; [congruence|reflexivity].
Qed.

Lemma deriveByte_name (c : ascii) : identByte c = true -> nameByte (deriveByte c) = true.
Proof.
  destruct c as [[] [] [] [] [] [] [] []]; vm_compute; congruence.
Qed.

Lemma deriveByte_fixes_name (c : ascii) : nameByte c = true -> deriveByte c = c.
Proof.
  destruct c as [[] [] [] [] [] [] [] []]; vm_compute; congruence.
Qed.

Lemma derive_as_mapBytes (filename : string) :
  deriveSchemaNameFromFilename filename
  = mapBytes deriveByte
      (Strings.TrimSuffix (Filepath.Base filename) ".pubsub.proto").
Proof.
  unfold deriveSchemaNameFromFilename.
  change "." with (Strings.str "."%char).
  change "_" with (Strings.str "_"%char).
  change "-" with (Strings.str "-"%char).
  rewrite !ReplaceAll_byte, ToLower_mapBytes, !mapBytes_mapBytes.
  reflexivity.
Qed.

Lemma TrimRight_no_byte (s : string) (c : ascii) :
  Strings.ContainsByte s c = false -> Strings.TrimRight s c = s.
Proof.
  induction s as [|a s IH]; [reflexivity|].
  simpl. intros [Ha Hs]%orb_false_elim. rewrite (IH Hs), Ha.
  destruct s; reflexivity.
Qed.

Lemma Base_plain (s : string) :
  s <> "" -> Strings.ContainsByte s Filepath.Separator = false ->
  Filepath.Base s = s.
Proof.
  intros Hne Hs. unfold Filepath.Base.
  destruct (String.eqb_spec s "") as [|_]; [contradiction|].
  rewrite TrimRight_no_byte by exact Hs.
  unfold Filepath.lastElem. rewrite Split_no_sep by exact Hs. simpl.
  destruct (String.eqb_spec s "") as [|_]; [contradiction|reflexivity].
Qed.

Lemma TrimSuffix_absent (s suf : string) (c : ascii) :
  Strings.ContainsByte suf c = true -> Strings.ContainsByte s c = false ->
  Strings.TrimSuffix s suf = s.
Proof.
  intros Hsuf Hs. unfold Strings.TrimSuffix.
  destruct (Strings.HasSuffix s suf) eqn:E; [|reflexivity].
  apply HasSuffix_iff in E as [t ->].
  rewrite ContainsByte_app, Hsuf, orb_true_r in Hs. discriminate.
Qed.

Lemma derive_of_name (s : string) :
  s <> "" -> allBytes nameByte s = true -> deriveSchemaNameFromFilename s = s.
Proof.
  intros Hne Hs. rewrite derive_as_mapBytes.
  rewrite Base_plain;
    [|exact Hne|apply (allBytes_not_Contains nameByte); [reflexivity|exact Hs]].
  rewrite (TrimSuffix_absent s _ "."%char);
    [|reflexivity|apply (allBytes_not_Contains nameByte); [reflexivity|exact Hs]].
  apply (mapBytes_id _ nameByte); [apply deriveByte_fixes_name|exact Hs].
Qed.

(** C2, the claim as stated fails: the file [.pubsub.proto] has the empty
    raw identifier, which has no byte outside the allowed ones; its derived
    name is empty, and deriving from the empty name gives ["-"]. *)
Lemma derive_empty_identifier_not_idempotent :
  Filepath.Base ".pubsub.proto" = "" ++ ".pubsub.proto"
  /\ allBytes identByte "" = true
  /\ deriveSchemaNameFromFilename ".pubsub.proto" = ""
  /\ deriveSchemaNameFromFilename (deriveSchemaNameFromFilename ".pubsub.proto") = "-"
  /\ deriveSchemaNameFromFilename (deriveSchemaNameFromFilename ".pubsub.proto")
     <> deriveSchemaNameFromFilename ".pubsub.proto".
Proof. repeat split; try reflexivity. discriminate. Qed.

(** C2, amended: for every filename whose base name is a non-empty raw
    identifier of alphanumerics, [.] and [_] followed by [.pubsub.proto],
    the derived name is the identifier with every byte lowered and [.] and
    [_] turned into [-]; it is the same for equal filenames, it is made of
    lower-case letters, digits and [-], and deriving from it gives it
    back. *)
Theorem derive_idempotent (filename raw : string) :
  Filepath.Base filename = raw ++ ".pubsub.proto" ->
  allBytes identByte raw = true ->
  raw <> "" ->
  deriveSchemaNameFromFilename filename = mapBytes deriveByte raw
  /\ (forall filename', filename' = filename ->
        deriveSchemaNameFromFilename filename'
        = deriveSchemaNameFromFilename filename)
  /\ allBytes nameByte (deriveSchemaNameFromFilename filename) = true
  /\ deriveSchemaNameFromFilename (deriveSchemaNameFromFilename filename)
     = deriveSchemaNameFromFilename filename.
Proof.
  intros Hbase Hraw Hne.
  assert (E : deriveSchemaNameFromFilename filename = mapBytes deriveByte raw).
  { rewrite derive_as_mapBytes, Hbase, TrimSuffix_app. reflexivity. }
  assert (Hname : allBytes nameByte (mapBytes deriveByte raw) = true).
  { apply (allBytes_mapBytes _ identByte); [apply deriveByte_name|exact Hraw]. }
  split; [exact E|]. split; [intros ? ->; reflexivity|].
  rewrite E. split; [exact Hname|].
  apply derive_of_name; [|exact Hname].
  destruct raw; [contradiction|discriminate].
Qed.

(** The derivation on the file of the end-to-end example. *)
Lemma derive_idempotent_witness :
  let filename := "gen/proto/infra/pubsub/coreapp.test.v1.TestEvent.pubsub.proto" in
  deriveSchemaNameFromFilename filename = "coreapp-test-v1-testevent"
  /\ deriveSchemaNameFromFilename (deriveSchemaNameFromFilename filename)
     = deriveSchemaNameFromFilename filename.
Proof.
  intros filename.
  destruct (derive_idempotent filename "coreapp.test.v1.TestEvent")
    as (E & _ & _ & I); [reflexivity|reflexivity|discriminate|].
  split; [exact E|exact I].
Defined.

(** ** The run *)

(** C5: with no input file [generateAll] returns its error before it
    touches anything, so a run whose input resolution finds nothing ends in
    an error, exits with status 1 and leaves every file as it was: nothing
    is written and no stale manifest is removed. *)
Theorem empty_inputs_fail_untouched (pubsubDir globPattern outputDir : string)
    (w : world) :
  resolveInputs (files w) pubsubDir globPattern = Ok [] ->
  generateAll [] outputDir w
  = (Err (ErrorString "no pubsub proto files found"), w)
  /\ (run pubsubDir globPattern outputDir w).2 = w
  /\ exitCode (run pubsubDir globPattern outputDir w).1 = 1
  /\ (outputDir <> "" ->
      run pubsubDir globPattern outputDir w
      = (Err (ErrorString "no pubsub proto files found"), w)).
Proof.
  intros H. split; [reflexivity|].
  unfold run. destruct (String.eqb_spec outputDir "") as [->|Hne].
  - repeat split. intros []. reflexivity.
  - unfold bind, reading. rewrite H. repeat split.
Qed.

(** A pattern that matches nothing: the run fails and the stale manifest
    of the example output directory is still there. *)
Lemma empty_inputs_fail_untouched_witness :
  let w := World demoFS [] in
  ReadFile (files w) "out/old.schema.yaml" = Ok "stale"
  /\ run "in" "*.proto.txt" "out" w
     = (Err (ErrorString "no pubsub proto files found"), w).
Proof.
  intros w. split; [reflexivity|].
  apply (empty_inputs_fail_untouched "in" "*.proto.txt" "out" w).
  - vm_compute. reflexivity.
  - discriminate.
Defined.

(** C1: with the one input file [coreapp.test.v1.TestEvent.pubsub.proto]
    holding [message TestEvent {}] and a newline, the default directory and
    pattern and the output directory [out], the run succeeds; the manifest
    [out/coreapp-test-v1-testevent.schema.yaml] is the fixed header with the
    derived name, followed by the indented definition line and a line of
    four spaces with no newline after it; [out/kustomization.yaml] lists the
    one manifest; the output directory holds these two files only. *)
Theorem end_to_end_example :
  let w := run "gen/proto/infra/pubsub" "*.pubsub.proto" "out"
               (World exampleFS []) in
  w.1 = Ok tt
  /\ ReadFile (files w.2) "out/coreapp-test-v1-testevent.schema.yaml"
     = Ok ("apiVersion: pubsub.cnrm.cloud.google.com/v1beta1" ++ nl ++
           "kind: PubSubSchema" ++ nl ++
           "metadata:" ++ nl ++
           "  name: coreapp-test-v1-testevent" ++ nl ++
           "spec:" ++ nl ++
           "  type: PROTOCOL_BUFFER" ++ nl ++
           "  definition: |" ++ nl ++
           "    message TestEvent {}" ++ nl ++
           "    ")
  /\ ReadFile (files w.2) "out/kustomization.yaml"
     = Ok ("apiVersion: kustomize.config.k8s.io/v1beta1" ++ nl ++
           "kind: Kustomization" ++ nl ++
           nl ++
           "resources:" ++ nl ++
           "  - coreapp-test-v1-testevent.schema.yaml" ++ nl)
  /\ map fst (children (files w.2) (resolve "out"))
     = ["coreapp-test-v1-testevent.schema.yaml"; "kustomization.yaml"]
  /\ stdout w.2
     = ["Wrote coreapp-test-v1-testevent -> out/coreapp-test-v1-testevent.schema.yaml" ++ nl].
Proof. vm_compute. repeat split. Qed.

(** ** Paths *)

Lemma cleanStep_ok (rooted : bool) (stack : list string) (e : string) :
  stackOK rooted stack = true ->
  Strings.ContainsByte e Filepath.Separator = false ->
  stackOK rooted (Filepath.cleanStep rooted stack e) = true.
Proof.
  intros Hs He. unfold Filepath.cleanStep.
  destruct (String.eqb_spec e "") as [->|Hne]; [exact Hs|].
  destruct (String.eqb_spec e ".") as [->|Hnd]; [exact Hs|]. simpl orb.
  destruct (String.eqb_spec e "..") as [->|Hndd].
  - destruct stack as [|top rest].
    + destruct rooted; reflexivity.
    + simpl in Hs. apply andb_prop in Hs as [[Ht Hd]%andb_prop Hr].
      destruct (String.eqb_spec top "..") as [->|_]; [|exact Hr].
      simpl. rewrite Hd, Hr. reflexivity.
  - simpl. unfold okElem. rewrite He, Hs.
    apply String.eqb_neq in Hne, Hnd, Hndd. rewrite Hne, Hnd, Hndd. reflexivity.
Qed.

Lemma cleanFold_ok (rooted : bool) (l stack : list string) :
  stackOK rooted stack = true ->
  Forall (fun e => Strings.ContainsByte e Filepath.Separator = false) l ->
  stackOK rooted (fold_left (Filepath.cleanStep rooted) l stack) = true.
Proof.
  revert stack. induction l as [|e l IH]; intros stack Hs Hl; [exact Hs|].
  inversion Hl as [|? ? He Hl']; subst. simpl.
  apply IH; [apply cleanStep_ok; assumption|exact Hl'].
Qed.

Lemma cleanStep_push (rooted : bool) (stack : list string) (e : string) :
  stackOK rooted (e :: stack) = true ->
  Filepath.cleanStep rooted stack e = e :: stack.
Proof.
  simpl. intros [[He Hd]%andb_prop Hs]%andb_prop.
  unfold okElem in He. apply andb_prop in He as [[H1 H2]%andb_prop H3].
  unfold Filepath.cleanStep.
  apply negb_true_iff in H1, H2. rewrite H1, H2. simpl orb.
  destruct (String.eqb e "..") eqn:E; [|reflexivity].
  apply andb_prop in Hd as [Hr Hd]. apply negb_true_iff in Hr. subst rooted.
  destruct stack as [|top rest]; [reflexivity|].
  simpl in Hd. apply andb_prop in Hd as [Ht _].
  rewrite Ht. reflexivity.
Qed.

Lemma stackOK_tail (rooted : bool) (e : string) (stack : list string) :
  stackOK rooted (e :: stack) = true -> stackOK rooted stack = true.
Proof. simpl. intros [_ H]%andb_prop. exact H. Qed.

Lemma cleanFold_rev (rooted : bool) (stack : list string) :
  stackOK rooted stack = true ->
  fold_left (Filepath.cleanStep rooted) (rev stack) [] = stack.
Proof.
  induction stack as [|e stack IH]; intros H; [reflexivity|].
  simpl rev. rewrite fold_left_app. simpl.
  rewrite IH by (eapply stackOK_tail, H).
  apply cleanStep_push, H.
Qed.

Lemma stackOK_elems (rooted : bool) (stack : list string) :
  stackOK rooted stack = true -> Forall (fun e => okElem e = true) stack.
Proof.
  induction stack as [|e stack IH]; intros H; [constructor|].
  simpl in H. apply andb_prop in H as [[He _]%andb_prop Hs].
  constructor; [exact He|apply IH, Hs].
Qed.

Lemma okElem_inv (e : string) :
  okElem e = true ->
  e <> "" /\ e <> "." /\ Strings.ContainsByte e Filepath.Separator = false.
Proof.
  unfold okElem. intros [[H1 H2]%andb_prop H3]%andb_prop.
  apply negb_true_iff in H1, H2, H3.
  apply String.eqb_neq in H1, H2. auto.
Qed.

Lemma validName_inv (n : string) :
  validName n = true -> okElem n = true /\ n <> "..".
Proof.
  unfold validName, okElem.
  intros [[[H1 H2]%andb_prop H3]%andb_prop H4]%andb_prop.
  rewrite H1, H2, H4. split; [reflexivity|].
  apply negb_true_iff, String.eqb_neq in H3. exact H3.
Qed.

Lemma cleanStep_name (rooted : bool) (stack : list string) (n : string) :
  validName n = true -> Filepath.cleanStep rooted stack n = n :: stack.
Proof.
  intros [Hok Hdd]%validName_inv. apply okElem_inv in Hok as (H1 & H2 & _).
  unfold Filepath.cleanStep.
  apply String.eqb_neq in H1, H2, Hdd. rewrite H1, H2, Hdd. reflexivity.
Qed.

Lemma Split_app (d x : string) (c : ascii) :
  Strings.Split (d ++ String c x) c
  = (removelast (Strings.Split d c)
     ++ [List.last (Strings.Split d c) ""] ++ Strings.Split x c)%list.
Proof.
  induction d as [|a d IH].
  - rewrite str_app_nil_l. simpl. rewrite Ascii.eqb_refl. reflexivity.
  - rewrite str_app_cons. simpl Strings.Split.
    destruct (Ascii.eqb a c) eqn:Ha.
    + rewrite IH.
      destruct (Strings.Split d c) as [|p rest] eqn:E;
        [destruct (Split_nonempty _ _ E)|]. reflexivity.
    + rewrite IH.
      destruct (Strings.Split d c) as [|p rest] eqn:E;
        [destruct (Split_nonempty _ _ E)|].
      destruct rest as [|q rest]; reflexivity.
Qed.

Lemma Split_app_list (d x : string) (c : ascii) :
  Strings.Split (d ++ String c x) c = (Strings.Split d c ++ Strings.Split x c)%list.
Proof.
  rewrite Split_app, app_assoc. f_equal.
  symmetry. apply app_removelast_last, Split_nonempty.
Qed.

Lemma isRooted_app (d x : string) :
  d <> "" -> Filepath.isRooted (d ++ x) = Filepath.isRooted d.
Proof. destruct d; [contradiction|reflexivity]. Qed.

Lemma isRooted_no_sep (e : string) :
  Strings.ContainsByte e Filepath.Separator = false -> Filepath.isRooted e = false.
Proof.
  destruct e as [|a e]; [reflexivity|]. simpl.
  intros [H _]%orb_false_elim. unfold Filepath.isRooted. simpl.
  rewrite H. reflexivity.
Qed.

Lemma cleanElems_ok (path : string) :
  stackOK (Filepath.isRooted path)
    (fold_left (Filepath.cleanStep (Filepath.isRooted path))
       (Strings.Split path Filepath.Separator) []) = true.
Proof. apply cleanFold_ok; [reflexivity|apply Split_pieces]. Qed.

Lemma resolve_app_name (d n : string) :
  d <> "" -> validName n = true ->
  resolve (d ++ "/" ++ n) = child (resolve d) n.
Proof.
  intros Hd Hn. unfold resolve, child, Filepath.cleanElems. simpl fst. simpl snd.
  rewrite isRooted_app by exact Hd. f_equal.
  change (d ++ "/" ++ n) with (d ++ String Filepath.Separator n).
  rewrite Split_app_list, fold_left_app.
  rewrite (Split_no_sep n).
  - simpl. rewrite cleanStep_name by exact Hn. reflexivity.
  - apply validName_inv in Hn as [Hn _]. apply okElem_inv in Hn. tauto.
Qed.

Lemma resolve_name (n : string) :
  validName n = true -> resolve n = (false, [n]).
Proof.
  intros Hn. pose proof Hn as [Hok _]%validName_inv.
  apply okElem_inv in Hok as (_ & _ & Hs).
  unfold resolve, Filepath.cleanElems.
  rewrite isRooted_no_sep, Split_no_sep by exact Hs.
  simpl. rewrite cleanStep_name by exact Hn. reflexivity.
Qed.

Lemma okElems_no_sep (st : list string) :
  Forall (fun e => okElem e = true) st ->
  Forall (fun e => Strings.ContainsByte e Filepath.Separator = false) st.
Proof.
  intros H. eapply Forall_impl; [exact H|].
  intros e He. apply okElem_inv in He. tauto.
Qed.

Lemma Split_Join_elems (st : list string) :
  st <> [] -> Forall (fun e => okElem e = true) st ->
  Strings.Split (Strings.Join st "/") Filepath.Separator = st.
Proof.
  intros Hne H. apply (Split_Join st Filepath.Separator Hne), okElems_no_sep, H.
Qed.

Lemma isRooted_Join (e : string) (st : list string) :
  okElem e = true -> Filepath.isRooted (Strings.Join (e :: st) "/") = false.
Proof.
  intros (Hne & _ & Hs)%okElem_inv.
  destruct st as [|e' st].
  - apply isRooted_no_sep, Hs.
  - rewrite Join_cons by discriminate.
    rewrite isRooted_app by exact Hne. apply isRooted_no_sep, Hs.
Qed.

Lemma cleanFold_skip_empty (rooted : bool) (l : list string) :
  fold_left (Filepath.cleanStep rooted) ("" :: l) []
  = fold_left (Filepath.cleanStep rooted) l [].
Proof. reflexivity. Qed.

Lemma resolve_rooted_Join (st : list string) (stack : list string) :
  st = rev stack -> stackOK true stack = true ->
  resolve ("/" ++ Strings.Join st "/") = (true, st).
Proof.
  intros -> Hok. unfold resolve, Filepath.cleanElems.
  change (Filepath.isRooted ("/" ++ Strings.Join (rev stack) "/")) with true.
  f_equal.
  change (Strings.Split ("/" ++ Strings.Join (rev stack) "/") Filepath.Separator)
    with ("" :: Strings.Split (Strings.Join (rev stack) "/") Filepath.Separator).
  rewrite cleanFold_skip_empty.
  destruct stack as [|e stack]; [reflexivity|].
  rewrite Split_Join_elems.
  - rewrite cleanFold_rev by exact Hok. reflexivity.
  - simpl. destruct (rev stack); discriminate.
  - apply Forall_rev, (stackOK_elems true), Hok.
Qed.

Lemma resolve_relative_Join (st : list string) (stack : list string) :
  st = rev stack -> st <> [] -> stackOK false stack = true ->
  resolve (Strings.Join st "/") = (false, st).
Proof.
  intros -> Hne Hok. unfold resolve, Filepath.cleanElems.
  pose proof (stackOK_elems false _ Hok) as Hel. apply Forall_rev in Hel.
  destruct (rev stack) as [|e st] eqn:E; [contradiction|].
  inversion Hel as [|? ? He _]; subst.
  rewrite isRooted_Join by exact He.
  rewrite Split_Join_elems by (discriminate || exact Hel).
  rewrite <- E, cleanFold_rev by exact Hok. reflexivity.
Qed.

Lemma resolve_Clean (path : string) : resolve (Filepath.Clean path) = resolve path.
Proof.
  pose proof (cleanElems_ok path) as Hok.
  unfold Filepath.Clean.
  unfold resolve at 2. unfold Filepath.cleanElems in *.
  set (stack := fold_left _ _ _) in *.
  destruct (Filepath.isRooted path).
  - apply (resolve_rooted_Join _ stack); [reflexivity|exact Hok].
  - destruct (rev stack) as [|e st] eqn:E; [reflexivity|].
    rewrite <- E. apply (resolve_relative_Join _ stack); [reflexivity| |exact Hok].
    rewrite E. discriminate.
Qed.

Lemma resolve_Join_name (d n : string) :
  validName n = true -> resolve (Filepath.Join d n) = child (resolve d) n.
Proof.
  intros Hn. unfold Filepath.Join.
  destruct (String.eqb_spec d "") as [->|Hd].
  - assert (Hne : n <> "").
    { apply validName_inv in Hn as [Hn _]. apply okElem_inv in Hn. tauto. }
    apply String.eqb_neq in Hne. cbv iota beta delta [negb]. rewrite Hne.
    rewrite resolve_Clean, resolve_name by exact Hn. reflexivity.
  - cbv iota beta delta [negb].
    rewrite resolve_Clean. apply resolve_app_name; assumption.
Qed.

Lemma Join_snoc (st : list string) (n sep : string) :
  Strings.Join (st ++ [n]) sep
  = match st with
    | [] => n
    | _ => Strings.Join st sep ++ sep ++ n
    end.
Proof.
  induction st as [|e st IH]; [reflexivity|].
  destruct st as [|e' st]; [reflexivity|].
  change ((e :: e' :: st) ++ [n])%list with (e :: ((e' :: st) ++ [n]))%list.
  rewrite Join_cons by discriminate. rewrite IH.
  rewrite (Join_cons e (e' :: st)) by discriminate.
  rewrite !str_app_assoc. reflexivity.
Qed.

Lemma Clean_snoc (path : string) (st : list string) (n : string) :
  Filepath.cleanElems path = (st ++ [n])%list ->
  Filepath.Clean path = cleanPrefix (Filepath.isRooted path) st ++ n.
Proof.
  intros E. unfold Filepath.Clean, cleanPrefix. rewrite E, Join_snoc.
  destruct (Filepath.isRooted path), st as [|e st];
    rewrite ?str_app_assoc; try reflexivity.
Qed.

Lemma resolve_trailing_sep (x : string) :
  x <> "" -> resolve (x ++ "/") = resolve x.
Proof.
  intros Hx. unfold resolve, Filepath.cleanElems.
  rewrite isRooted_app by exact Hx.
  change (x ++ "/") with (x ++ String Filepath.Separator "").
  rewrite Split_app_list, fold_left_app. reflexivity.
Qed.

Lemma resolve_cleanPrefix (rooted : bool) (st stack : list string) :
  st = rev stack -> stackOK rooted stack = true ->
  cleanPrefix rooted st <> "" ->
  resolve (cleanPrefix rooted st) = (rooted, st).
Proof.
  intros -> Hok Hne. unfold cleanPrefix in *.
  destruct rooted.
  - destruct (rev stack) as [|e st] eqn:E.
    + reflexivity.
    + rewrite <- str_app_assoc, resolve_trailing_sep by discriminate.
      rewrite <- E. apply (resolve_rooted_Join _ stack); [reflexivity|exact Hok].
  - destruct (rev stack) as [|e st] eqn:E; [contradiction|].
    rewrite str_app_nil_l.
    assert (Hj : Strings.Join (e :: st) "/" <> "").
    { pose proof (stackOK_elems false _ Hok) as Hel. apply Forall_rev in Hel.
      rewrite E in Hel. inversion Hel as [|? ? He _]; subst.
      apply okElem_inv in He as (He & _).
      destruct st; [exact He|]. rewrite Join_cons by discriminate.
      destruct e; [contradiction|discriminate]. }
    rewrite resolve_trailing_sep by exact Hj.
    rewrite <- E. apply (resolve_relative_Join _ stack); [reflexivity| |exact Hok].
    rewrite E. discriminate.
Qed.

Lemma endsWith_app (s t : string) (c : ascii) :
  t <> "" -> endsWith (s ++ t) c = endsWith t c.
Proof.
  intros Ht. induction s as [|a s IH]; [reflexivity|].
  rewrite str_app_cons, endsWith_cons, IH.
  destruct (s ++ t) eqn:E; [|reflexivity].
  destruct s; [|discriminate]. rewrite str_app_nil_l in E. contradiction.
Qed.

Lemma endsWith_Contains (s : string) (c : ascii) :
  endsWith s c = true -> Strings.ContainsByte s c = true.
Proof.
  intros [t ->]%endsWith_iff. rewrite ContainsByte_app. simpl.
  rewrite Ascii.eqb_refl, orb_true_r. reflexivity.
Qed.

Lemma TrimRight_id (s : string) (c : ascii) :
  endsWith s c = false -> Strings.TrimRight s c = s.
Proof.
  induction s as [|a s IH]; [reflexivity|].
  rewrite endsWith_cons. simpl. destruct s as [|b s].
  - intros ->. reflexivity.
  - intros H. rewrite (IH H). reflexivity.
Qed.

Lemma name_facts (n : string) :
  validName n = true ->
  n <> "" /\ Strings.ContainsByte n Filepath.Separator = false
  /\ endsWith n Filepath.Separator = false.
Proof.
  intros [Hok _]%validName_inv. apply okElem_inv in Hok as (H1 & _ & H2).
  split; [exact H1|]. split; [exact H2|].
  destruct (endsWith n Filepath.Separator) eqn:E; [|reflexivity].
  apply endsWith_Contains in E. congruence.
Qed.

Lemma lastElem_app_name (pre n : string) :
  validName n = true ->
  pre = "" \/ endsWith pre Filepath.Separator = true ->
  Filepath.lastElem (pre ++ n) = n.
Proof.
  intros (_ & Hs & _)%name_facts [->|[q ->]%endsWith_iff];
    unfold Filepath.lastElem.
  - rewrite str_app_nil_l, Split_no_sep by exact Hs. reflexivity.
  - rewrite str_app_assoc.
    change (Strings.str Filepath.Separator ++ n) with (String Filepath.Separator n).
    rewrite Split_app_list, (Split_no_sep n) by exact Hs.
    apply last_last.
Qed.

Lemma Base_app_name (pre n : string) :
  validName n = true ->
  pre = "" \/ endsWith pre Filepath.Separator = true ->
  Filepath.Base (pre ++ n) = n.
Proof.
  intros Hn Hpre. pose proof (name_facts n Hn) as (Hne & Hs & He).
  unfold Filepath.Base.
  destruct (String.eqb_spec (pre ++ n) "") as [E|_].
  - destruct pre; [rewrite str_app_nil_l in E; contradiction|discriminate].
  - rewrite TrimRight_id by (rewrite endsWith_app by exact Hne; exact He).
    rewrite lastElem_app_name by assumption.
    apply String.eqb_neq in Hne. rewrite Hne. reflexivity.
Qed.

Lemma Split_app_name (pre n : string) :
  validName n = true ->
  pre = "" \/ endsWith pre Filepath.Separator = true ->
  Filepath.Split (pre ++ n) = (pre, n).
Proof.
  intros Hn Hpre. unfold Filepath.Split.
  rewrite lastElem_app_name by assumption. f_equal.
  rewrite str_length_app.
  replace (String.length pre + String.length n - String.length n)
    with (String.length pre) by lia.
  apply str_take_app_length.
Qed.

Lemma cleanPrefix_ends (rooted : bool) (st : list string) :
  cleanPrefix rooted st = ""
  \/ endsWith (cleanPrefix rooted st) Filepath.Separator = true.
Proof.
  unfold cleanPrefix. destruct rooted, st as [|e st]; auto; right.
  - rewrite <- str_app_assoc. apply (endsWith_snoc _ "/"%char).
  - rewrite str_app_nil_l. apply (endsWith_snoc _ "/"%char).
Qed.

Lemma Clean_nonempty (path : string) : Filepath.Clean path <> "".
Proof.
  pose proof (cleanElems_ok path) as Hok.
  unfold Filepath.Clean, Filepath.cleanElems.
  set (stack := fold_left _ _ _) in *.
  destruct (Filepath.isRooted path); [discriminate|].
  pose proof (stackOK_elems false _ Hok) as Hel. apply Forall_rev in Hel.
  destruct (rev stack) as [|e st]; [discriminate|].
  inversion Hel as [|? ? He _]; subst. apply okElem_inv in He as (He & _).
  destruct st; [exact He|]. rewrite Join_cons by discriminate.
  destruct e; [contradiction|discriminate].
Qed.

(** The path of an entry [n] of directory [d], as [filepath.Join] builds
    it: it leads to the entry [n] of what [d] leads to, its base name is
    [n] and its directory leads to what [d] leads to. *)
Lemma Join_name (d n : string) :
  validName n = true ->
  resolve (Filepath.Join d n) = child (resolve d) n
  /\ Filepath.Base (Filepath.Join d n) = n
  /\ Filepath.Join d n <> ""
  /\ Filepath.Dir (Filepath.Join d n) <> ""
  /\ resolve (Filepath.Dir (Filepath.Join d n)) = resolve d.
Proof.
  intros Hn. pose proof (name_facts n Hn) as (Hne & _ & _).
  pose proof (resolve_Join_name d n Hn) as Hres.
  assert (Hx : exists x, Filepath.Join d n = Filepath.Clean x).
  { unfold Filepath.Join. destruct (String.eqb_spec d "") as [->|Hd];
      cbv iota beta delta [negb].
    - apply String.eqb_neq in Hne. rewrite Hne. eauto.
    - eauto. }
  destruct Hx as [x Hx]. rewrite Hx in *.
  rewrite resolve_Clean in Hres.
  destruct (resolve d) as [r st] eqn:Ed. unfold child in Hres. simpl in Hres.
  unfold resolve in Hres. injection Hres as Hr Hst.
  pose proof (cleanElems_ok x) as Hok.
  assert (Hstack : stackOK r (rev st) = true).
  { pose proof Hst as Hst'. unfold Filepath.cleanElems in Hst'.
    apply (f_equal (@rev string)) in Hst'. rewrite rev_involutive in Hst'.
    rewrite Hst', rev_unit, Hr in Hok. eapply stackOK_tail, Hok. }
  rewrite (Clean_snoc x st n Hst), Hr.
  pose proof (cleanPrefix_ends r st) as Hends.
  split; [|split; [|split; [|split]]].
  - unfold child. simpl. rewrite <- Hr, <- Hst, <- (Clean_snoc x st n Hst).
    apply resolve_Clean.
  - apply Base_app_name; assumption.
  - destruct (cleanPrefix r st); [rewrite str_app_nil_l; exact Hne|discriminate].
  - apply Clean_nonempty.
  - unfold Filepath.Dir. rewrite Split_app_name by assumption. simpl fst.
    rewrite resolve_Clean.
    destruct (String.eqb_spec (cleanPrefix r st) "") as [E|E].
    + rewrite E. unfold cleanPrefix in E.
      destruct r; [discriminate|]. destruct st as [|e st]; [reflexivity|].
      rewrite str_app_nil_l in E.
      destruct (Strings.Join (e :: st) "/"); discriminate.
    + apply (resolve_cleanPrefix r st (rev st));
        [symmetry; apply rev_involutive|exact Hstack|exact E].
Qed.

(** ** Malformed patterns *)

Lemma ContainsAny_app (s t chars : string) :
  Strings.ContainsAny (s ++ t) chars
  = Strings.ContainsAny s chars || Strings.ContainsAny t chars.
Proof.
  induction s as [|a s IH]; [reflexivity|].
  rewrite str_app_cons. simpl. rewrite IH, orb_assoc. reflexivity.
Qed.

Lemma Split_pieces_any (s chars : string) (c : ascii) :
  Strings.ContainsAny s chars = false ->
  Forall (fun e => Strings.ContainsAny e chars = false) (Strings.Split s c).
Proof.
  induction s as [|a s IH]; [repeat constructor|].
  simpl. intros [Ha Hs]%orb_false_elim. specialize (IH Hs).
  destruct (Ascii.eqb a c).
  - constructor; [reflexivity|exact IH].
  - destruct (Strings.Split s c) as [|piece rest];
      [repeat constructor; simpl; rewrite Ha; reflexivity|].
    inversion IH as [|? ? Hp Hr]; subst. constructor; [|exact Hr].
    simpl. rewrite Ha, Hp. reflexivity.
Qed.

Lemma cleanStep_keeps (P : string -> Prop) (rooted : bool)
    (stack : list string) (e : string) :
  Forall P stack -> P e -> Forall P (Filepath.cleanStep rooted stack e).
Proof.
  intros Hs He. unfold Filepath.cleanStep.
  destruct (String.eqb e "" || String.eqb e "."); [exact Hs|].
  destruct (String.eqb e "..").
  - destruct stack as [|top rest].
    + destruct rooted; repeat constructor; exact He.
    + destruct (String.eqb top ".."); [constructor; assumption|].
      inversion Hs; assumption.
  - constructor; assumption.
Qed.

Lemma cleanFold_keeps (P : string -> Prop) (rooted : bool)
    (l stack : list string) :
  Forall P l -> Forall P stack ->
  Forall P (fold_left (Filepath.cleanStep rooted) l stack).
Proof.
  revert stack. induction l as [|e l IH]; intros stack Hl Hs; [exact Hs|].
  inversion Hl; subst. simpl. apply IH; [assumption|].
  apply cleanStep_keeps; assumption.
Qed.

Lemma Join_no_meta (st : list string) :
  Forall (fun e => Filepath.hasMeta e = false) st ->
  Filepath.hasMeta (Strings.Join st "/") = false.
Proof.
  unfold Filepath.hasMeta. induction st as [|e st IH]; intros H; [reflexivity|].
  inversion H as [|? ? He Hst]; subst.
  destruct st as [|e' st]; [exact He|].
  rewrite Join_cons by discriminate.
  rewrite !ContainsAny_app, He, (IH Hst). reflexivity.
Qed.

Lemma cleanPrefix_no_meta (d : string) :
  Filepath.hasMeta d = false ->
  Filepath.hasMeta (cleanPrefix (resolve d).1 (resolve d).2) = false.
Proof.
  intros Hd. unfold cleanPrefix, resolve. cbn [fst snd].
  assert (Hst : Forall (fun e => Filepath.hasMeta e = false)
                  (Filepath.cleanElems d)).
  { unfold Filepath.cleanElems. apply Forall_rev.
    apply cleanFold_keeps; [|constructor].
    apply Split_pieces_any, Hd. }
  apply Join_no_meta in Hst. unfold Filepath.hasMeta in *.
  rewrite ContainsAny_app.
  destruct (Filepath.cleanElems d) as [|e st];
    [destruct (Filepath.isRooted d); reflexivity|].
  rewrite ContainsAny_app, Hst.
  destruct (Filepath.isRooted d); reflexivity.
Qed.

Lemma scanByte_plain (c : ascii) (pattern : string) :
  Strings.ContainsByte "*?[\" c = false ->
  Filepath.scanByte Filepath.Plain c pattern
  = Some (Filepath.Plain, [Filepath.Lit c], 0).
Proof.
  destruct c as [[] [] [] [] [] [] [] []]; vm_compute;
    intros H; try discriminate H; reflexivity.
Qed.


Lemma Join_name_string (d n : string) :
  validName n = true ->
  Filepath.Join d n = cleanPrefix (resolve d).1 (resolve d).2 ++ n.
Proof.
  intros Hn. pose proof (name_facts n Hn) as (Hne & _ & _).
  pose proof (resolve_Join_name d n Hn) as Hres.
  assert (Hx : exists x, Filepath.Join d n = Filepath.Clean x).
  { unfold Filepath.Join. destruct (String.eqb_spec d "") as [->|Hd];
      cbv iota beta delta [negb].
    - apply String.eqb_neq in Hne. rewrite Hne. eauto.
    - eauto. }
  destruct Hx as [x Hx]. rewrite Hx in *. rewrite resolve_Clean in Hres.
  destruct (resolve d) as [r st]. unfold child in Hres. cbn [fst snd] in *.
  unfold resolve in Hres. injection Hres as Hr Hst.
  rewrite (Clean_snoc x st n Hst), Hr. reflexivity.
Qed.


Lemma Match_None (pattern name : string) :
  Filepath.Match pattern name = None <-> Filepath.parsePattern pattern = None.
Proof.
  unfold Filepath.Match. destruct (Filepath.parsePattern pattern);
    split; intros H; congruence.
Qed.


(** ** Input resolution *)

Lemma keepRegular_filter (fs : gmap pkey node) (matches acc : list string) :
  fold_left (keepRegular fs) matches acc
  = (acc ++ List.filter (statsRegular fs) matches)%list.
Proof.
  revert acc. induction matches as [|m matches IH]; intros acc.
  - simpl. rewrite app_nil_r. reflexivity.
  - simpl. rewrite IH. unfold keepRegular, statsRegular.
    destruct (Stat fs m) as [st|e]; [|reflexivity].
    destruct (IsRegular st); [|reflexivity].
    rewrite <- app_assoc. reflexivity.
Qed.


Lemma sortStrings_sorted (l : list string) : StronglySorted String.le (sortStrings l).
Proof. apply StronglySorted_merge_sort; apply _. Qed.

Lemma sortStrings_perm (l : list string) : sortStrings l ≡ₚ l.
Proof. apply merge_sort_Permutation. Qed.

Lemma sortStrings_permutation_invariant (l1 l2 : list string) :
  l1 ≡ₚ l2 -> sortStrings l1 = sortStrings l2.
Proof.
  intros H. apply (StronglySorted_unique String.le).
  - apply sortStrings_sorted.
  - apply sortStrings_sorted.
  - rewrite !sortStrings_perm. exact H.
Qed.

Lemma resolveInputs_of_matches (fs : gmap pkey node) (pubsubDir globPattern : string)
    (matches : list string) :
  Glob fs (Filepath.Join pubsubDir globPattern) = Ok matches ->
  resolveInputs fs pubsubDir globPattern
  = Ok (sortStrings (List.filter (statsRegular fs) matches)).
Proof.
  intros H. unfold resolveInputs. rewrite H, keepRegular_filter. reflexivity.
Qed.




(** C7, the counterexample: the pattern [[/../*.pubsub.proto] is
    malformed (its class is not closed: [Match] reports it for every
    name), but joined with the directory [in] it is cleaned to
    [in/*.pubsub.proto], and [resolveInputs] returns the two schema files
    without an error. *)
Lemma resolveInputs_malformed_pattern_accepted :
  (forall name, Filepath.Match "[/../*.pubsub.proto" name = None)
  /\ Filepath.Join "in" "[/../*.pubsub.proto" = "in/*.pubsub.proto"
  /\ resolveInputs demoFS "in" "[/../*.pubsub.proto"
     = Ok ["in/a.v1.One.pubsub.proto"; "in/b.v1.Two.pubsub.proto"].
Proof.
  split; [|split].
  - intros name. unfold Filepath.Match.
    replace (Filepath.parsePattern "[/../*.pubsub.proto") with (@None (list Filepath.term))
      by (vm_compute; reflexivity).
    reflexivity.
  - vm_compute. reflexivity.
  - vm_compute. reflexivity.
Qed.

(** ** Directory listings *)

Lemma entryOf_Some (k : pkey) (kn : pkey * node) (name : string) (n : node) :
  entryOf k kn = Some (name, n)
  <-> validName name = true /\ kn = (child k name, n).
Proof.
  unfold entryOf. destruct kn as [k' n']. simpl. split.
  - destruct (last k'.2) as [name'|] eqn:El; [|discriminate].
    destruct (validName name') eqn:Hv; [|discriminate].
    destruct (bool_decide_reflect (k' = child k name')) as [->|]; [|discriminate].
    simpl. intros [= -> ->]. auto.
  - intros [Hv [= -> ->]]. unfold child. simpl. rewrite last_snoc, Hv.
    rewrite bool_decide_eq_true_2 by reflexivity. reflexivity.
Qed.

Lemma elem_of_children (fs : gmap pkey node) (k : pkey) (name : string) (n : node) :
  (name, n) ∈ children fs k
  <-> validName name = true /\ fs !! child k name = Some n.
Proof.
  unfold children. rewrite merge_sort_Permutation, list_elem_of_omap. split.
  - intros [[k' n'] [Hin [Hv [= -> ->]]%entryOf_Some]].
    apply elem_of_map_to_list in Hin. auto.
  - intros [Hv Hl]. exists (child k name, n). split.
    + apply elem_of_map_to_list, Hl.
    + apply entryOf_Some. auto.
Qed.

Lemma child_inj (k : pkey) (n1 n2 : string) : child k n1 = child k n2 -> n1 = n2.
Proof.
  unfold child. intros [= H]. apply app_inj_tail in H as [_ H]. exact H.
Qed.

Lemma NoDup_entries (k : pkey) (l : list (pkey * node)) :
  NoDup (l.*1) -> NoDup ((omap (entryOf k) l).*1).
Proof.
  induction l as [|[k' n'] l IH]; [constructor|].
  rewrite fmap_cons. intros [Hk Hl]%NoDup_cons. simpl.
  destruct (entryOf k (k', n')) as [[name n]|] eqn:E; [|apply IH, Hl].
  rewrite fmap_cons. apply NoDup_cons. split; [|apply IH, Hl].
  apply entryOf_Some in E as [_ [= -> ->]].
  intros [[name' n2] [Hname Hin]]%list_elem_of_fmap. simpl in Hname. subst name'.
  apply list_elem_of_omap in Hin as [[k2 n3] [Hin [_ [= -> ->]]%entryOf_Some]].
  apply Hk. apply list_elem_of_fmap. exists (child k name, n2). auto.
Qed.

Lemma NoDup_children (fs : gmap pkey node) (k : pkey) :
  NoDup ((children fs k).*1).
Proof.
  unfold children. rewrite merge_sort_Permutation.
  apply NoDup_entries, NoDup_fst_map_to_list.
Qed.

Lemma lookup_removeKeys (ks : list pkey) (fs : gmap pkey node) (k : pkey) :
  removeKeys ks fs !! k = if bool_decide (k ∈ ks) then None else fs !! k.
Proof.
  unfold removeKeys. revert fs. induction ks as [|k' ks IH]; intros fs.
  - reflexivity.
  - simpl. rewrite IH.
    destruct (decide (k = k')) as [->|Hne].
    + rewrite (bool_decide_eq_true_2 (k' ∈ k' :: ks)) by left.
      rewrite lookup_delete_eq. case_bool_decide; reflexivity.
    + rewrite lookup_delete_ne by congruence.
      rewrite (bool_decide_ext (k ∈ k' :: ks) (k ∈ ks)); [reflexivity|].
      rewrite elem_of_cons. tauto.
Qed.

(** ** Stale-output cleanup *)

Lemma Remove_entry (fs : gmap pkey node) (d name : string) (n : node) :
  validName name = true ->
  fs !! child (resolve d) name = Some n ->
  IsDir n = false ->
  Remove fs (Filepath.Join d name) = Ok (delete (child (resolve d) name) fs).
Proof.
  intros Hv Hl Hd. destruct (Join_name d name Hv) as (Hres & _ & Hne & _).
  unfold Remove. apply String.eqb_neq in Hne. rewrite Hne, Hres.
  cbv zeta.
  assert (Hk : (child (resolve d) name).2 <> []).
  { unfold child. simpl. intros H. apply (f_equal length) in H.
    rewrite length_app in H. simpl in H. lia. }
  destruct ((child (resolve d) name).2) eqn:E; [contradiction|].
  rewrite Hl. destruct n; try reflexivity. discriminate.
Qed.

Lemma removeEntries_spec (outputDir : string) (entries : list (string * node))
    (fs : gmap pkey node) (out : list string) :
  (forall name n, (name, n) ∈ entries ->
     validName name = true /\ fs !! child (resolve outputDir) name = Some n) ->
  NoDup (entries.*1) ->
  removeEntries outputDir entries (World fs out)
  = (Ok tt, World (removeKeys (staleKeys (resolve outputDir) entries) fs) out).
Proof.
  revert fs. induction entries as [|[name n] entries IH]; intros fs Hent Hnd;
    [reflexivity|].
  rewrite fmap_cons in Hnd. apply NoDup_cons in Hnd as [Hname Hnd].
  destruct (Hent name n) as [Hv Hl]; [left|].
  assert (Hrest : forall fs' : gmap pkey node,
    (forall k, k <> child (resolve outputDir) name -> fs' !! k = fs !! k) ->
    forall name' n', (name', n') ∈ entries ->
      validName name' = true /\ fs' !! child (resolve outputDir) name' = Some n').
  { intros fs' Hfs' name' n' Hin. destruct (Hent name' n') as [Hv' Hl'];
      [right; exact Hin|]. split; [exact Hv'|]. rewrite Hfs'; [exact Hl'|].
    intros ->%child_inj. apply Hname. apply list_elem_of_fmap.
    exists (name, n'). auto. }
  simpl removeEntries. unfold staleKeys. simpl List.filter.
  unfold isStaleEntry at 1. simpl fst. simpl snd.
  destruct (IsDir n) eqn:Hd; simpl negb; simpl andb.
  - apply IH; [apply Hrest; reflexivity|exact Hnd].
  - fold manifestSuffix.
    destruct (Strings.HasSuffix name manifestSuffix) eqn:Hs.
    + unfold bind, writing. simpl files.
      rewrite (Remove_entry fs outputDir name n Hv Hl Hd).
      rewrite IH; [reflexivity| |exact Hnd].
      apply Hrest. intros k Hk. apply lookup_delete_ne. congruence.
    + apply IH; [apply Hrest; reflexivity|exact Hnd].
Qed.

Lemma walkFrom_key (fs : gmap pkey node) (rooted : bool)
    (stack elems : list string) (k : pkey) :
  walkFrom fs rooted stack elems = inr k ->
  k = (rooted, rev (fold_left (Filepath.cleanStep rooted) elems stack)).
Proof.
  revert stack. induction elems as [|e elems IH]; intros stack; cbn [walkFrom fold_left].
  - intros [= <-]. reflexivity.
  - destruct (nodeAt fs (rooted, rev stack)) as [[| | |]|]; try discriminate.
    apply IH.
Qed.

Lemma walk_resolve (fs : gmap pkey node) (path : string) (k : pkey) :
  walk fs path = inr k -> k = resolve path.
Proof. apply walkFrom_key. Qed.

Lemma walkFrom_same (fs fs' : gmap pkey node) (rooted : bool)
    (stack elems : list string) :
  (forall v, v ∈ walkKeysFrom rooted stack elems -> nodeAt fs' v = nodeAt fs v) ->
  walkFrom fs' rooted stack elems = walkFrom fs rooted stack elems.
Proof.
  revert stack. induction elems as [|e elems IH]; intros stack H; [reflexivity|].
  cbn [walkFrom walkKeysFrom] in *.
  rewrite (H (rooted, rev stack)) by (left).
  destruct (nodeAt fs (rooted, rev stack)) as [[| | |]|]; try reflexivity.
  apply IH. intros v Hv. apply H. right. exact Hv.
Qed.

Lemma walkFrom_dirs (fs : gmap pkey node) (rooted : bool)
    (stack elems : list string) :
  (exists k, walkFrom fs rooted stack elems = inr k)
  <-> Forall (fun v => nodeAt fs v = Some Dir) (walkKeysFrom rooted stack elems).
Proof.
  revert stack. induction elems as [|e elems IH]; intros stack;
    cbn [walkFrom walkKeysFrom].
  - split; [constructor|eauto].
  - rewrite Forall_cons, <- IH.
    destruct (nodeAt fs (rooted, rev stack)) as [[c| | |]|]; split;
      try (intros [k Hk]; discriminate Hk);
      try (intros [Hd _]; discriminate Hd).
    + intros H. split; [reflexivity|exact H].
    + intros [_ H]. exact H.
Qed.

Lemma walk_dirs (fs : gmap pkey node) (path : string) :
  walk fs path = inr (resolve path)
  <-> Forall (fun v => nodeAt fs v = Some Dir) (walkKeys path).
Proof.
  unfold walkKeys. rewrite <- walkFrom_dirs. split; [eauto|].
  intros [k H]. pose proof (walk_resolve _ _ _ H). subst k. exact H.
Qed.

Lemma ReadDir_Ok (fs : gmap pkey node) (path : string)
    (entries : list (string * node)) :
  ReadDir fs path = Ok entries <->
  path <> "" /\ walk fs path = inr (resolve path)
  /\ nodeAt fs (resolve path) = Some Dir
  /\ entries = children fs (resolve path).
Proof.
  unfold ReadDir. destruct (String.eqb_spec path "") as [->|Hne].
  { split; [discriminate|]. intros [[] _]. reflexivity. }
  destruct (walk fs path) as [e|k] eqn:Ew.
  { split; [discriminate|]. intros (_ & Hw & _). discriminate Hw. }
  pose proof (walk_resolve _ _ _ Ew). subst k.
  destruct (nodeAt fs (resolve path)) as [[| | |]|]; split;
    try discriminate; try (intros (_ & _ & Hd & _); discriminate Hd).
  - intros [= <-]. auto.
  - intros (_ & _ & _ & ->). reflexivity.
Qed.

Lemma ReadDir_entries (fs : gmap pkey node) (path : string)
    (entries : list (string * node)) :
  ReadDir fs path = Ok entries ->
  entries = children fs (resolve path) /\ path <> ""
  /\ nodeAt fs (resolve path) = Some Dir.
Proof. intros (H1 & _ & H2 & H3)%ReadDir_Ok. auto. Qed.

Lemma removeGeneratedSchemas_listed (outputDir : string) (w : world)
    (entries : list (string * node)) :
  ReadDir (files w) outputDir = Ok entries ->
  removeGeneratedSchemas outputDir w
  = (Ok tt, World (removeKeys (staleKeys (resolve outputDir) entries) (files w))
                  (stdout w)).
Proof.
  intros H. unfold removeGeneratedSchemas. rewrite H.
  apply ReadDir_entries in H as (-> & _ & _). destruct w as [fs out].
  apply removeEntries_spec.
  - intros name n Hin. apply elem_of_children, Hin.
  - apply NoDup_children.
Qed.

Lemma elem_of_staleKeys (fs : gmap pkey node) (dir k : pkey) :
  k ∈ staleKeys dir (children fs dir)
  <-> exists name n,
        k = child dir name /\ validName name = true /\ fs !! k = Some n
        /\ IsDir n = false /\ Strings.HasSuffix name manifestSuffix = true.
Proof.
  unfold staleKeys. rewrite list_elem_of_fmap. split.
  - intros [[name n] [-> Hin]]. apply list_elem_of_In, filter_In in Hin as [Hin Hst].
    apply list_elem_of_In, elem_of_children in Hin as [Hv Hl].
    unfold isStaleEntry in Hst. apply andb_prop in Hst as [Hd%negb_true_iff Hs].
    exists name, n. auto.
  - intros (name & n & -> & Hv & Hl & Hd & Hs). exists (name, n). split; [reflexivity|].
    apply list_elem_of_In, filter_In. split.
    + apply list_elem_of_In, elem_of_children. auto.
    + unfold isStaleEntry. simpl. rewrite Hd, Hs. reflexivity.
Qed.

Lemma ReadDir_lookupPath (fs : gmap pkey node) (path : string) :
  match lookupPath fs path with
  | inr Dir => ReadDir fs path = Ok (children fs (resolve path))
  | inr _ => ReadDir fs path = Err (PathError "readdirent" path ENOTDIR)
             \/ ReadDir fs path = Err (PathError "open" path ELOOP)
  | inl e => ReadDir fs path = Err (PathError "open" path e)
  end.
Proof.
  unfold lookupPath, ReadDir. destruct (String.eqb path ""); [reflexivity|].
  destruct (walk fs path) as [e|k] eqn:Ew; [reflexivity|].
  apply walk_resolve in Ew as ->.
  destruct (nodeAt fs (resolve path)) as [[| | |]|]; auto.
Qed.

(** C6, the counterexample: the path [out/README.md/x] names no
    directory, since [out/README.md] is a regular file; reading it fails
    with an error other than "does not exist", and the cleanup returns
    this error instead of succeeding. *)
Lemma removeGeneratedSchemas_missing_dir_error :
  lookupPath demoFS "out/README.md/x" = inl ENOTDIR
  /\ removeGeneratedSchemas "out/README.md/x" (World demoFS [])
     = (Err (PathError "open" "out/README.md/x" ENOTDIR), World demoFS []).
Proof. split; vm_compute; reflexivity. Qed.



(** ** Making directories and writing files *)

Lemma lookup_withDirs (ks : list pkey) (fs : gmap pkey node) (k : pkey) :
  withDirs ks fs !! k
  = match fs !! k with
    | Some n => Some n
    | None => if bool_decide (k ∈ ks) then Some Dir else None
    end.
Proof.
  unfold withDirs. revert fs. induction ks as [|k' ks IH]; intros fs.
  - simpl. destruct (fs !! k); reflexivity.
  - simpl. rewrite IH. destruct (fs !! k') as [n'|] eqn:E'.
    + destruct (fs !! k) as [n|] eqn:E; [reflexivity|].
      assert (k <> k') by congruence.
      repeat case_bool_decide; try reflexivity; exfalso.
      * apply H1. right. assumption.
      * apply elem_of_cons in H1 as [?|?]; contradiction.
    + destruct (decide (k = k')) as [->|Hne].
      * rewrite lookup_insert_eq, E'.
        rewrite bool_decide_eq_true_2 by left. reflexivity.
      * rewrite lookup_insert_ne by congruence.
        destruct (fs !! k) as [n|]; [reflexivity|].
        repeat case_bool_decide; try reflexivity; exfalso.
        -- apply H0. right. assumption.
        -- apply elem_of_cons in H0 as [?|?]; contradiction.
Qed.

Lemma mkdirFrom_cons (path : string) (fs : gmap pkey node) (rooted : bool)
    (done : list string) (e : string) (todo : list string) :
  mkdirFrom path fs rooted done (e :: todo)
  = match fs !! (rooted, (done ++ [e])%list) with
    | Some Dir => mkdirFrom path fs rooted (done ++ [e])%list todo
    | Some (File _) | Some Special => Err (PathError "mkdir" path ENOTDIR)
    | Some Broken => Err (PathError "mkdir" path EEXIST)
    | None =>
        mkdirFrom path (<[(rooted, (done ++ [e])%list) := Dir]> fs) rooted
                  (done ++ [e])%list todo
    end.
Proof. reflexivity. Qed.

Lemma withDirs_cons (k : pkey) (ks : list pkey) (fs : gmap pkey node) :
  withDirs (k :: ks) fs
  = withDirs ks (match fs !! k with
                 | None => <[k := Dir]> fs
                 | Some _ => fs
                 end).
Proof. reflexivity. Qed.

Lemma dirOrFree_insert (fs : gmap pkey node) (k k' : pkey) :
  fs !! k = None ->
  dirOrFree (<[k := Dir]> fs) k' <-> dirOrFree fs k'.
Proof.
  intros Hk. unfold dirOrFree.
  destruct (decide (k = k')) as [<-|Hne].
  - rewrite lookup_insert_eq, Hk. split; auto.
  - rewrite lookup_insert_ne by exact Hne. reflexivity.
Qed.

Lemma mkdirFrom_ok (path : string) (fs : gmap pkey node) (rooted : bool)
    (done todo : list string) :
  Forall (dirOrFree fs) (dirKeysFrom rooted done todo) ->
  mkdirFrom path fs rooted done todo
  = Ok (withDirs (dirKeysFrom rooted done todo) fs).
Proof.
  revert fs done. induction todo as [|e todo IH]; intros fs done H; [reflexivity|].
  change (dirKeysFrom rooted done (e :: todo))
    with ((rooted, (done ++ [e])%list)
          :: dirKeysFrom rooted (done ++ [e])%list todo) in *.
  rewrite mkdirFrom_cons, withDirs_cons.
  inversion H as [|? ? [Hk|Hk] Hrest]; subst; rewrite Hk.
  - apply IH. eapply Forall_impl; [exact Hrest|].
    intros k Hf. apply dirOrFree_insert; assumption.
  - apply IH, Hrest.
Qed.

Lemma mkdirFrom_inv (path : string) (fs fs' : gmap pkey node) (rooted : bool)
    (done todo : list string) :
  mkdirFrom path fs rooted done todo = Ok fs' ->
  Forall (dirOrFree fs) (dirKeysFrom rooted done todo).
Proof.
  revert fs done. induction todo as [|e todo IH]; intros fs done H; [constructor|].
  change (dirKeysFrom rooted done (e :: todo))
    with ((rooted, (done ++ [e])%list)
          :: dirKeysFrom rooted (done ++ [e])%list todo).
  rewrite mkdirFrom_cons in H.
  destruct (fs !! (rooted, (done ++ [e])%list)) as [[| | |]|] eqn:E;
    try discriminate.
  - constructor; [right; exact E|]. apply (IH _ _ H).
  - constructor; [left; exact E|].
    eapply Forall_impl; [apply (IH _ _ H)|].
    intros k Hk. apply dirOrFree_insert in Hk; assumption.
Qed.

Lemma MkdirAll_spec (fs fs' : gmap pkey node) (path : string) :
  path <> "" ->
  MkdirAll fs path = Ok fs' <->
  Forall (dirOrFree fs) (dirKeys (resolve path))
  /\ fs' = withDirs (dirKeys (resolve path)) fs.
Proof.
  intros Hne. unfold MkdirAll, dirKeys.
  apply String.eqb_neq in Hne. rewrite Hne. split.
  - intros H. pose proof (mkdirFrom_inv _ _ _ _ _ _ H) as Hf.
    rewrite (mkdirFrom_ok _ _ _ _ _ Hf) in H. injection H as <-. auto.
  - intros [Hf ->]. apply mkdirFrom_ok, Hf.
Qed.

Lemma parent_child (k : pkey) (n : string) : parent (child k n) = k.
Proof.
  unfold parent, child. simpl. rewrite removelast_last. destruct k; reflexivity.
Qed.

Lemma child_not_root (k : pkey) (n : string) : (child k n).2 <> [].
Proof.
  unfold child. simpl. intros H. apply (f_equal length) in H.
  rewrite length_app in H. simpl in H. lia.
Qed.

Lemma nodeAt_child (fs : gmap pkey node) (k : pkey) (n : string) :
  nodeAt fs (child k n) = fs !! child k n.
Proof.
  unfold nodeAt. pose proof (child_not_root k n).
  destruct (child k n).2 eqn:E; [contradiction|reflexivity].
Qed.

Lemma WriteFile_entry (fs fs' : gmap pkey node) (d n contents : string) :
  validName n = true ->
  nodeAt fs (resolve d) = Some Dir ->
  WriteFile fs (Filepath.Join d n) contents = Ok fs' <->
  fileOrFree fs (child (resolve d) n)
  /\ fs' = <[child (resolve d) n := File contents]> fs.
Proof.
  intros Hv Hd. destruct (Join_name d n Hv) as (Hres & _ & Hne & _).
  unfold WriteFile. apply String.eqb_neq in Hne. rewrite Hne, Hres.
  cbv zeta. rewrite nodeAt_child, parent_child, Hd. unfold fileOrFree.
  destruct (fs !! child (resolve d) n) as [[c| | |]|]; split;
    try discriminate; try (intros [= <-]; eauto);
    try (intros [[|[c' ?]] ->]; congruence).
Qed.

(** ** The names of the manifests *)

Lemma deriveByte_sep (c : ascii) :
  Ascii.eqb (deriveByte c) Filepath.Separator = Ascii.eqb c Filepath.Separator.
Proof. destruct c as [[] [] [] [] [] [] [] []]; reflexivity. Qed.

Lemma ContainsByte_mapBytes_derive (s : string) :
  Strings.ContainsByte (mapBytes deriveByte s) Filepath.Separator
  = Strings.ContainsByte s Filepath.Separator.
Proof.
  induction s as [|a s IH]; [reflexivity|].
  simpl. rewrite deriveByte_sep, IH. reflexivity.
Qed.

Lemma ContainsByte_take (n : nat) (s : string) (c : ascii) :
  Strings.ContainsByte s c = false -> Strings.ContainsByte (Strings.take n s) c = false.
Proof.
  revert n. induction s as [|a s IH]; intros [|n]; try reflexivity.
  simpl. intros [Ha Hs]%orb_false_elim. rewrite Ha, (IH _ Hs). reflexivity.
Qed.

Lemma ContainsByte_TrimSuffix (s suf : string) (c : ascii) :
  Strings.ContainsByte s c = false ->
  Strings.ContainsByte (Strings.TrimSuffix s suf) c = false.
Proof.
  intros H. unfold Strings.TrimSuffix.
  destruct (Strings.HasSuffix s suf); [apply ContainsByte_take, H|exact H].
Qed.

Lemma derive_no_sep (p : string) :
  Strings.ContainsByte (Filepath.Base p) Filepath.Separator = false ->
  Strings.ContainsByte (deriveSchemaNameFromFilename p) Filepath.Separator = false.
Proof.
  intros H. rewrite derive_as_mapBytes, ContainsByte_mapBytes_derive.
  apply ContainsByte_TrimSuffix, H.
Qed.

Lemma validName_long (x : string) :
  2 < String.length x ->
  Strings.ContainsByte x Filepath.Separator = false ->
  validName x = true.
Proof.
  intros Hlen Hs. unfold validName. rewrite Hs.
  destruct x as [|a [|b [|c x]]]; simpl in Hlen; try lia.
  destruct (String.eqb_spec (String a (String b (String c x))) ".");
    [discriminate|].
  destruct (String.eqb_spec (String a (String b (String c x))) "..");
    [discriminate|]. reflexivity.
Qed.

Lemma validName_manifestName (p : string) :
  Strings.ContainsByte (Filepath.Base p) Filepath.Separator = false ->
  validName (manifestName p) = true.
Proof.
  intros H. unfold manifestName. apply validName_long.
  - rewrite str_length_app. simpl. lia.
  - rewrite ContainsByte_app, derive_no_sep by exact H. reflexivity.
Qed.

Lemma last_Split_no_sep (s : string) (c : ascii) :
  Strings.ContainsByte (List.last (Strings.Split s c) "") c = false.
Proof.
  pose proof (Split_pieces s c) as H.
  pose proof (Split_nonempty s c) as Hne.
  destruct (app_removelast_last "" Hne) as [].
  rewrite (app_removelast_last "" Hne) in H.
  apply Forall_app in H as [_ H]. inversion H; assumption.
Qed.

Lemma lastElem_empty (t : string) :
  Filepath.lastElem t = "" ->
  t = "" \/ endsWith t Filepath.Separator = true.
Proof.
  unfold Filepath.lastElem. intros H.
  pose proof (Join_Split t Filepath.Separator) as E.
  rewrite (app_removelast_last "" (Split_nonempty t Filepath.Separator)) in E.
  rewrite H, Join_snoc in E.
  destruct (removelast (Strings.Split t Filepath.Separator)) as [|e l].
  - left. symmetry. exact E.
  - right. apply endsWith_iff. eexists. rewrite <- E, str_app_nil_r. reflexivity.
Qed.

Lemma cleanFold_empties (rooted : bool) (l stack : list string) :
  Forall (fun e => e = "") l ->
  fold_left (Filepath.cleanStep rooted) l stack = stack.
Proof.
  revert stack. induction l as [|e l IH]; intros stack H; [reflexivity|].
  inversion H; subst. simpl. apply IH. assumption.
Qed.

Lemma Split_separators (k : nat) (c : ascii) :
  Forall (fun e => e = "") (Strings.Split (repeatByte k c) c).
Proof.
  induction k as [|k IH]; [repeat constructor|].
  simpl. rewrite Ascii.eqb_refl. constructor; [reflexivity|exact IH].
Qed.

Lemma Base_no_sep (p : string) :
  Filepath.cleanElems p <> [] ->
  Strings.ContainsByte (Filepath.Base p) Filepath.Separator = false.
Proof.
  intros Hel. unfold Filepath.Base.
  destruct (String.eqb_spec p "") as [|Hp]; [reflexivity|].
  destruct (String.eqb_spec
              (Filepath.lastElem (Strings.TrimRight p Filepath.Separator)) "")
    as [E|_]; [|apply last_Split_no_sep].
  exfalso. apply Hel.
  apply lastElem_empty in E as [E|E].
  - destruct (TrimRight_decomp p Filepath.Separator) as [k Hk].
    rewrite E, str_app_nil_l in Hk. rewrite Hk.
    unfold Filepath.cleanElems.
    rewrite cleanFold_empties by apply Split_separators. reflexivity.
  - rewrite TrimRight_endsWith in E. discriminate.
Qed.

Lemma ReadFile_Ok (fs : gmap pkey node) (p c : string) :
  ReadFile fs p = Ok c <->
  p <> "" /\ (resolve p).2 <> [] /\ fs !! resolve p = Some (File c).
Proof.
  unfold ReadFile, nodeAt.
  destruct (String.eqb_spec p "") as [->|Hp].
  { split; [discriminate|]. intros [[] _]. reflexivity. }
  destruct (resolve p).2 as [|e l] eqn:E.
  { split; [discriminate|]. intros (_ & [] & _). reflexivity. }
  destruct (fs !! resolve p) as [n|].
  - destruct n as [c'| | |].
    + split; [intros [= ->]; auto|intros (_ & _ & [= ->]); reflexivity].
    + split; [discriminate|intros (_ & _ & [=])].
    + split; [discriminate|intros (_ & _ & [=])].
    + split; [discriminate|intros (_ & _ & [=])].
  - split; [discriminate|intros (_ & _ & [=])].
Qed.

Lemma ReadFile_validName (fs : gmap pkey node) (p c : string) :
  ReadFile fs p = Ok c -> validName (manifestName p) = true.
Proof.
  intros (_ & H & _)%ReadFile_Ok.
  apply validName_manifestName, Base_no_sep. exact H.
Qed.

(** ** One round of the loop *)

Lemma elem_of_dirKeysFrom (rooted : bool) (done todo : list string) (k : pkey) :
  k ∈ dirKeysFrom rooted done todo ->
  k.1 = rooted /\ length done < length k.2 <= length done + length todo.
Proof.
  revert done. induction todo as [|e todo IH]; intros done H.
  - apply elem_of_nil in H. contradiction.
  - simpl in H. apply elem_of_cons in H as [->|H].
    + simpl. rewrite length_app. simpl. split; [reflexivity|lia].
    + apply IH in H as [H1 H2]. rewrite length_app in H2. simpl in *.
      split; [exact H1|lia].
Qed.

Lemma last_dirKey (rooted : bool) (done todo : list string) :
  todo <> [] -> (rooted, (done ++ todo)%list) ∈ dirKeysFrom rooted done todo.
Proof.
  revert done. induction todo as [|e todo IH]; intros done H; [contradiction|].
  simpl. destruct todo as [|e' todo].
  - left.
  - right. rewrite (cons_middle e), app_assoc. apply IH. discriminate.
Qed.

Lemma child_not_dirKey (k : pkey) (n : string) : child k n ∉ dirKeys k.
Proof.
  unfold dirKeys. intros [_ H]%elem_of_dirKeysFrom.
  unfold child in H. simpl in H. rewrite length_app in H. simpl in H. lia.
Qed.

Lemma lookup_withDirs_child (k : pkey) (n : string) (fs : gmap pkey node) :
  withDirs (dirKeys k) fs !! child k n = fs !! child k n.
Proof.
  rewrite lookup_withDirs. destruct (fs !! child k n); [reflexivity|].
  rewrite bool_decide_eq_false_2 by apply child_not_dirKey. reflexivity.
Qed.

Lemma nodeAt_withDirs_self (k : pkey) (fs : gmap pkey node) :
  Forall (dirOrFree fs) (dirKeys k) ->
  nodeAt (withDirs (dirKeys k) fs) k = Some Dir.
Proof.
  intros H. unfold nodeAt. destruct k as [r l]. simpl.
  destruct l as [|e l]; [reflexivity|].
  assert (Hin : (r, e :: l) ∈ dirKeys (r, e :: l)).
  { unfold dirKeys. simpl fst. simpl snd.
    apply (last_dirKey r [] (e :: l)). discriminate. }
  rewrite lookup_withDirs. rewrite Forall_forall in H.
  destruct (H _ Hin) as [-> | ->]; [|reflexivity].
  rewrite bool_decide_eq_true_2 by exact Hin. reflexivity.
Qed.

Lemma writeFile_entry (d n contents : string) (fs : gmap pkey node)
    (out : list string) (w' : world) :
  validName n = true ->
  writeFile (Filepath.Join d n) contents (World fs out) = (Ok tt, w') <->
  Forall (dirOrFree fs) (dirKeys (resolve d))
  /\ fileOrFree fs (child (resolve d) n)
  /\ w' = World (<[child (resolve d) n
                    := File (Strings.ReplaceAll contents crlf nl)]>
                   (withDirs (dirKeys (resolve d)) fs)) out.
Proof.
  intros Hv. destruct (Join_name d n Hv) as (_ & _ & _ & Hdne & Hdir).
  unfold writeFile, bind, writing. simpl files. simpl stdout.
  destruct (MkdirAll fs (Filepath.Dir (Filepath.Join d n))) as [fs1|e] eqn:E1.
  - apply (MkdirAll_spec _ _ _ Hdne) in E1 as [Hf ->]. rewrite Hdir in *.
    pose proof (nodeAt_withDirs_self _ _ Hf) as Hd. cbn [files stdout].
    destruct (WriteFile (withDirs (dirKeys (resolve d)) fs)
                (Filepath.Join d n) (Strings.ReplaceAll contents crlf nl))
      as [fs2|e] eqn:E2.
    + apply (WriteFile_entry _ _ _ _ _ Hv Hd) in E2 as [Hfree ->].
      unfold fileOrFree in *. rewrite lookup_withDirs_child in Hfree.
      split; [intros [= <-]; auto|intros (_ & _ & ->); reflexivity].
    + split; [discriminate|]. intros (_ & Hfree & _). exfalso.
      assert (Hok : exists fs2, WriteFile (withDirs (dirKeys (resolve d)) fs)
                (Filepath.Join d n) (Strings.ReplaceAll contents crlf nl) = Ok fs2).
      { eexists. apply (WriteFile_entry _ _ _ _ _ Hv Hd). split; [|reflexivity].
        unfold fileOrFree. rewrite lookup_withDirs_child. exact Hfree. }
      destruct Hok as [fs2 Hok]. congruence.
  - split; [discriminate|]. intros (Hf & _ & _). exfalso.
    assert (Hok : MkdirAll fs (Filepath.Dir (Filepath.Join d n))
                  = Ok (withDirs (dirKeys (resolve d)) fs)).
    { apply (MkdirAll_spec _ _ _ Hdne). rewrite Hdir. auto. }
    congruence.
Qed.

Lemma generateEach_unfold (outputDir p : string) (rest gen : list string)
    (fs : gmap pkey node) (out : list string) :
  generateEach outputDir (p :: rest) gen (World fs out)
  = match ReadFile fs p with
    | Err e => (Err e, World fs out)
    | Ok proto =>
        match writeFile (Filepath.Join outputDir (manifestName p))
                (schemaManifest (deriveSchemaNameFromFilename p)
                   (normalizeNewlines proto)) (World fs out) with
        | (Ok _, w1) =>
            generateEach outputDir rest
              (gen ++ [Filepath.Base (Filepath.Join outputDir (manifestName p))])
              (World (files w1) (stdout w1 ++ [progressLine outputDir p]))
        | (Err e, w1) => (Err e, w1)
        end
    end.
Proof.
  cbn [generateEach]. unfold bind, reading, Printf. cbn [files stdout].
  destruct (ReadFile fs p); [|reflexivity].
  fold manifestSuffix. fold (manifestName p).
  destruct (writeFile _ _ _) as [[[]|e] w1]; reflexivity.
Qed.

Lemma stepFiles_eq (dir : pkey) (p proto : string) (fs : gmap pkey node) :
  <[child dir (manifestName p)
      := File (Strings.ReplaceAll
                 (schemaManifest (deriveSchemaNameFromFilename p)
                    (normalizeNewlines proto)) crlf nl)]>
    (withDirs (dirKeys dir) fs)
  = stepFiles dir p proto fs.
Proof. unfold stepFiles, manifestBody. reflexivity. Qed.

Lemma generateEach_cons (outputDir p : string) (rest gen g : list string)
    (fs : gmap pkey node) (out : list string) (w' : world) :
  generateEach outputDir (p :: rest) gen (World fs out) = (Ok g, w') <->
  exists proto,
    ReadFile fs p = Ok proto
    /\ stepOK (resolve outputDir) p fs
    /\ generateEach outputDir rest (gen ++ [manifestName p])
         (World (stepFiles (resolve outputDir) p proto fs)
                (out ++ [progressLine outputDir p]))
       = (Ok g, w').
Proof.
  rewrite generateEach_unfold.
  destruct (ReadFile fs p) as [proto|e] eqn:Er.
  2:{ split; [discriminate|]. intros (proto & [=] & _). }
  pose proof (ReadFile_validName _ _ _ Er) as Hv.
  destruct (Join_name outputDir (manifestName p) Hv) as (_ & Hbase & _).
  rewrite Hbase.
  destruct (writeFile (Filepath.Join outputDir (manifestName p))
              (schemaManifest (deriveSchemaNameFromFilename p)
                 (normalizeNewlines proto)) (World fs out))
    as [[[]|e] w1] eqn:Ew.
  - apply (writeFile_entry _ _ _ _ _ _ Hv) in Ew as (Hd & Hf & ->).
    cbn [files stdout]. rewrite stepFiles_eq.
    split.
    + intros H. exists proto. split; [reflexivity|]. split; [split; assumption|].
      exact H.
    + intros (proto' & [= <-] & _ & H). exact H.
  - split; [discriminate|]. intros (proto' & [= <-] & [Hd Hf] & _). exfalso.
    assert (Hok : writeFile (Filepath.Join outputDir (manifestName p))
              (schemaManifest (deriveSchemaNameFromFilename p)
                 (normalizeNewlines proto)) (World fs out)
            = (Ok tt, World (stepFiles (resolve outputDir) p proto fs) out)).
    { rewrite <- stepFiles_eq. apply (writeFile_entry _ _ _ _ _ _ Hv). auto. }
    rewrite Hok in Ew. discriminate.
Qed.

Lemma generateEach_names (outputDir : string) (ps gen g : list string)
    (w w' : world) :
  generateEach outputDir ps gen w = (Ok g, w') ->
  g = (gen ++ map manifestName ps)%list
  /\ stdout w' = (stdout w ++ map (progressLine outputDir) ps)%list.
Proof.
  revert gen w. induction ps as [|p ps IH]; intros gen [fs out] H.
  - injection H as <- <-. rewrite !app_nil_r. auto.
  - apply generateEach_cons in H as (proto & _ & _ & H).
    apply IH in H as [-> ->]. cbn [stdout map].
    rewrite <- !app_assoc. auto.
Qed.

(** ** The whole run *)

Lemma validName_indexName : validName indexName = true.
Proof. reflexivity. Qed.

Lemma generateAll_unfold (ps : list string) (outputDir : string) (w : world) :
  ps <> [] ->
  generateAll ps outputDir w
  = match removeGeneratedSchemas outputDir w with
    | (Err e, w1) => (Err e, w1)
    | (Ok _, w1) =>
        match generateEach outputDir ps [] w1 with
        | (Err e, w2) => (Err e, w2)
        | (Ok g, w2) =>
            writeFile (Filepath.Join outputDir indexName)
              (kustomizationText (sortStrings g)) w2
        end
    end.
Proof.
  intros Hne. destruct ps as [|p ps]; [contradiction|].
  unfold generateAll, writeKustomization. fold indexName. unfold bind at 1.
  destruct (removeGeneratedSchemas outputDir w) as [[[]|e] w1]; [|reflexivity].
  unfold bind at 1.
  destruct (generateEach outputDir (p :: ps) [] w1) as [[g|e] w2]; reflexivity.
Qed.

Lemma generateAll_Ok (ps : list string) (outputDir : string) (w w' : world) :
  generateAll ps outputDir w = (Ok tt, w') <->
  ps <> []
  /\ exists w1 g w2,
       removeGeneratedSchemas outputDir w = (Ok tt, w1)
       /\ generateEach outputDir ps [] w1 = (Ok g, w2)
       /\ writeFile (Filepath.Join outputDir indexName)
            (kustomizationText (sortStrings g)) w2 = (Ok tt, w').
Proof.
  destruct ps as [|p ps].
  { split; [discriminate|]. intros [[] _]. reflexivity. }
  unfold generateAll, writeKustomization. fold indexName.
  unfold bind at 1.
  destruct (removeGeneratedSchemas outputDir w) as [[[]|e] w1] eqn:E1.
  2:{ split; [discriminate|]. intros (_ & ? & ? & ? & [=] & _). }
  unfold bind at 1.
  destruct (generateEach outputDir (p :: ps) [] w1) as [[g|e] w2] eqn:E2.
  2:{ split; [discriminate|].
      intros (_ & w1' & g & w2' & [= <-] & H & _). congruence. }
  split.
  - intros H. split; [discriminate|]. exists w1, g, w2. auto.
  - intros (_ & w1' & g' & w2' & [= <-] & H & H3).
    rewrite E2 in H. injection H as <- <-. exact H3.
Qed.

Lemma ReadFile_insert (fs : gmap pkey node) (d n contents : string) :
  validName n = true ->
  ReadFile (<[child (resolve d) n := File contents]> fs) (Filepath.Join d n)
  = Ok contents.
Proof.
  intros Hv. destruct (Join_name d n Hv) as (Hres & _ & Hne & _).
  apply ReadFile_Ok. split; [exact Hne|]. rewrite Hres.
  split; [apply child_not_root|apply lookup_insert_eq].
Qed.

Lemma generateAll_index (ps : list string) (outputDir : string) (w w' : world) :
  generateAll ps outputDir w = (Ok tt, w') ->
  ReadFile (files w') (Filepath.Join outputDir indexName) = Ok (indexBody ps).
Proof.
  intros (_ & w1 & g & [fs2 out2] & _ & Hg & Hw)%generateAll_Ok.
  apply generateEach_names in Hg as [-> _].
  apply (writeFile_entry _ _ _ _ _ _ validName_indexName) in Hw as (_ & _ & ->).
  cbn [files]. apply ReadFile_insert, validName_indexName.
Qed.

Lemma indexBody_permutation (ps1 ps2 : list string) :
  ps1 ≡ₚ ps2 -> indexBody ps1 = indexBody ps2.
Proof.
  intros H. unfold indexBody. f_equal. f_equal.
  apply sortStrings_permutation_invariant.
  change (map manifestName) with (fmap (M:=list) manifestName).
  rewrite H. reflexivity.
Qed.

(** C8: when the generator succeeds on two enumerations of the same
    inputs, both leave the same index manifest: the fixed header and one
    resource line per input, the manifest names in increasing byte-wise
    order whatever the order of the inputs.  For two inputs with derived
    names [a] and [b] the resources are [a.schema.yaml], then
    [b.schema.yaml], in either order of the inputs. *)
Theorem index_order_invariant (ps1 ps2 : list string) (outputDir : string)
    (w w1 w2 : world) :
  ps1 ≡ₚ ps2 ->
  generateAll ps1 outputDir w = (Ok tt, w1) ->
  generateAll ps2 outputDir w = (Ok tt, w2) ->
  let resources := sortStrings (map manifestName ps1) in
  ReadFile (files w1) (Filepath.Join outputDir indexName)
  = Ok (Strings.ReplaceAll (kustomizationText resources) crlf nl)
  /\ ReadFile (files w2) (Filepath.Join outputDir indexName)
     = ReadFile (files w1) (Filepath.Join outputDir indexName)
  /\ StronglySorted String.le resources
  /\ resources ≡ₚ map manifestName ps1
  /\ (forall p q,
        ps1 = [p; q] \/ ps1 = [q; p] ->
        deriveSchemaNameFromFilename p = "a" ->
        deriveSchemaNameFromFilename q = "b" ->
        resources = ["a.schema.yaml"; "b.schema.yaml"]).
Proof.
  intros Hperm H1 H2 resources.
  apply generateAll_index in H1, H2.
  rewrite H1, H2, <- (indexBody_permutation _ _ Hperm).
  split; [reflexivity|]. split; [reflexivity|].
  split; [apply sortStrings_sorted|]. split; [apply sortStrings_perm|].
  intros p q Hps Hp Hq. unfold resources.
  destruct Hps as [-> | ->]; cbn [map]; unfold manifestName;
    rewrite Hp, Hq; reflexivity.
Qed.

(** The two orders of the inputs with derived names [a] and [b]. *)
Lemma index_order_invariant_witness :
  let w := World abFS [] in
  exists w1 w2,
    generateAll ["in/b.pubsub.proto"; "in/a.pubsub.proto"] "out" w = (Ok tt, w1)
    /\ generateAll ["in/a.pubsub.proto"; "in/b.pubsub.proto"] "out" w = (Ok tt, w2)
    /\ ReadFile (files w1) "out/kustomization.yaml"
       = Ok ("apiVersion: kustomize.config.k8s.io/v1beta1" ++ nl ++
             "kind: Kustomization" ++ nl ++ nl ++
             "resources:" ++ nl ++
             "  - a.schema.yaml" ++ nl ++
             "  - b.schema.yaml" ++ nl)
    /\ ReadFile (files w2) "out/kustomization.yaml"
       = ReadFile (files w1) "out/kustomization.yaml".
Proof.
  intros w.
  assert (E1 : (generateAll ["in/b.pubsub.proto"; "in/a.pubsub.proto"] "out" w).1
               = Ok tt) by (vm_compute; reflexivity).
  assert (E2 : (generateAll ["in/a.pubsub.proto"; "in/b.pubsub.proto"] "out" w).1
               = Ok tt) by (vm_compute; reflexivity).
  destruct (generateAll ["in/b.pubsub.proto"; "in/a.pubsub.proto"] "out" w)
    as [r1 w1] eqn:G1.
  destruct (generateAll ["in/a.pubsub.proto"; "in/b.pubsub.proto"] "out" w)
    as [r2 w2] eqn:G2.
  simpl in E1, E2. subst r1 r2. exists w1, w2.
  split; [reflexivity|]. split; [reflexivity|].
  destruct (index_order_invariant
              ["in/b.pubsub.proto"; "in/a.pubsub.proto"]
              ["in/a.pubsub.proto"; "in/b.pubsub.proto"] "out" w w1 w2)
    as (I1 & I2 & _); [apply Permutation_swap|exact G1|exact G2|].
  split; [|exact I2].
  etransitivity; [exact I1|]. vm_compute. reflexivity.
Defined.

(** ** The loop on inputs outside the output directory *)

Lemma lookup_stepFiles (dir : pkey) (p proto : string) (fs : gmap pkey node)
    (k : pkey) :
  stepFiles dir p proto fs !! k
  = if bool_decide (k = child dir (manifestName p))
    then Some (File (manifestBody p proto))
    else withDirs (dirKeys dir) fs !! k.
Proof.
  unfold stepFiles. case_bool_decide as Hk.
  - rewrite Hk. apply lookup_insert_eq.
  - apply lookup_insert_ne. congruence.
Qed.

Lemma outsideDir_not_child (dir : pkey) (p n : string) :
  outsideDir dir p -> resolve p <> child dir n.
Proof. intros H E. apply H. rewrite E. apply parent_child. Qed.

Lemma withDirs_File (ks : list pkey) (fs : gmap pkey node) (k : pkey) (c : string) :
  withDirs ks fs !! k = Some (File c) <-> fs !! k = Some (File c).
Proof.
  rewrite lookup_withDirs. destruct (fs !! k) as [n|]; [reflexivity|].
  case_bool_decide; split; discriminate.
Qed.

Lemma ReadFile_stepFiles (dir : pkey) (p' proto' : string)
    (fs : gmap pkey node) (p c : string) :
  outsideDir dir p ->
  ReadFile (stepFiles dir p' proto' fs) p = Ok c <-> ReadFile fs p = Ok c.
Proof.
  intros Hout. rewrite !ReadFile_Ok, lookup_stepFiles.
  rewrite bool_decide_eq_false_2 by (apply outsideDir_not_child, Hout).
  rewrite withDirs_File. reflexivity.
Qed.

Lemma dirKey_not_child (dir k : pkey) (n : string) :
  k ∈ dirKeys dir -> k <> child dir n.
Proof. intros H ->. exact (child_not_dirKey dir n H). Qed.

Lemma withDirs_dirKey (dir : pkey) (fs : gmap pkey node) (k : pkey) :
  Forall (dirOrFree fs) (dirKeys dir) -> k ∈ dirKeys dir ->
  withDirs (dirKeys dir) fs !! k = Some Dir.
Proof.
  intros Hf Hk. rewrite Forall_forall in Hf. rewrite lookup_withDirs.
  destruct (Hf k Hk) as [-> | ->]; [|reflexivity].
  rewrite bool_decide_eq_true_2 by exact Hk. reflexivity.
Qed.

Lemma stepOK_stepFiles (dir : pkey) (p proto p' : string) (fs : gmap pkey node) :
  stepOK dir p fs ->
  stepOK dir p' (stepFiles dir p proto fs)
  <-> fileOrFree fs (child dir (manifestName p')).
Proof.
  intros [Hd Hf]. unfold stepOK, fileOrFree.
  assert (Hdirs : Forall (dirOrFree (stepFiles dir p proto fs)) (dirKeys dir)).
  { apply Forall_forall. intros k Hk. right. rewrite lookup_stepFiles.
    rewrite bool_decide_eq_false_2 by (apply dirKey_not_child, Hk).
    apply withDirs_dirKey; assumption. }
  rewrite lookup_stepFiles. case_bool_decide as Hk.
  - rewrite Hk. split; [intros _; exact Hf|]. intros _. split; [exact Hdirs|].
    right. eauto.
  - rewrite lookup_withDirs_child. split; [intros [_ H]; exact H|auto].
Qed.

Lemma reads_stepFiles (dir : pkey) (p0 c0 : string) (fs : gmap pkey node)
    (ps cs : list string) :
  Forall (outsideDir dir) ps ->
  Forall2 (fun p c => ReadFile (stepFiles dir p0 c0 fs) p = Ok c) ps cs
  <-> Forall2 (fun p c => ReadFile fs p = Ok c) ps cs.
Proof.
  intros Hout. revert cs. induction Hout as [|p ps Hp Hps IH]; intros cs.
  - split; intros H; inversion H; constructor.
  - split; intros H; inversion H as [|? c ? cs' Hr Hrest]; subst;
      constructor; try (apply IH; exact Hrest).
    + apply (ReadFile_stepFiles dir p0 c0 fs p c Hp), Hr.
    + apply (ReadFile_stepFiles dir p0 c0 fs p c Hp), Hr.
Qed.

Lemma dirs_stepFiles (dir : pkey) (p proto : string) (fs : gmap pkey node) :
  stepOK dir p fs -> Forall (dirOrFree (stepFiles dir p proto fs)) (dirKeys dir).
Proof.
  intros Hok.
  apply (stepOK_stepFiles dir p proto p fs Hok). apply Hok.
Qed.

Lemma free_stepFiles (dir : pkey) (p proto : string) (fs : gmap pkey node)
    (ps : list string) :
  stepOK dir p fs ->
  Forall (fun p' => fileOrFree (stepFiles dir p proto fs)
                      (child dir (manifestName p'))) ps
  <-> Forall (fun p' => fileOrFree fs (child dir (manifestName p'))) ps.
Proof.
  intros Hok. rewrite !Forall_forall. split; intros H p' Hin.
  - apply (stepOK_stepFiles dir p proto p' fs Hok).
    split; [apply dirs_stepFiles, Hok|apply H, Hin].
  - apply (stepOK_stepFiles dir p proto p' fs Hok). apply H, Hin.
Qed.

Lemma generateEach_pure (outputDir : string) (ps gen g : list string)
    (fs : gmap pkey node) (out : list string) (w' : world) :
  Forall (outsideDir (resolve outputDir)) ps ->
  generateEach outputDir ps gen (World fs out) = (Ok g, w') <->
  exists cs,
    Forall2 (fun p c => ReadFile fs p = Ok c) ps cs
    /\ (ps <> [] -> Forall (dirOrFree fs) (dirKeys (resolve outputDir)))
    /\ Forall (fun p => fileOrFree fs (child (resolve outputDir) (manifestName p))) ps
    /\ g = (gen ++ map manifestName ps)%list
    /\ w' = World (runFiles (resolve outputDir) (zip ps cs) fs)
                  (out ++ map (progressLine outputDir) ps).
Proof.
  intros Hout. revert gen g fs out w'.
  induction Hout as [|p ps Hp Hps IH]; intros gen g fs out w'.
  - cbn [generateEach]. unfold ret. split.
    + intros [= <- <-]. exists []. rewrite !app_nil_r.
      repeat split; try constructor. intros []. reflexivity.
    + intros (cs & _ & _ & _ & -> & ->). rewrite !app_nil_r. reflexivity.
  - rewrite generateEach_cons. split.
    + intros (proto & Hr & Hok & H).
      apply IH in H as (cs & Hreads & Hd & Hf & -> & ->).
      exists (proto :: cs).
      split; [constructor; [exact Hr|apply (reads_stepFiles _ p proto fs _ _ Hps), Hreads]|].
      split; [intros _; apply Hok|].
      split; [constructor; [apply Hok|apply (free_stepFiles _ _ proto _ _ Hok), Hf]|].
      cbn [map zip zip_with]. rewrite <- !app_assoc. split; reflexivity.
    + intros (cs & Hreads & Hd & Hf & -> & ->).
      inversion Hreads as [|? proto ? cs' Hr Hrest]; subst.
      inversion Hf as [|? ? Hfp Hfrest]; subst.
      assert (Hok : stepOK (resolve outputDir) p fs).
      { split; [apply Hd; discriminate|exact Hfp]. }
      exists proto. split; [exact Hr|]. split; [exact Hok|].
      apply IH. exists cs'.
      split; [apply (reads_stepFiles _ p proto fs _ _ Hps), Hrest|].
      split; [intros _; apply dirs_stepFiles, Hok|].
      split; [apply (free_stepFiles _ _ proto _ _ Hok), Hfrest|].
      cbn [map zip zip_with]. rewrite <- !app_assoc. split; reflexivity.
Qed.

(** ** The files after the loop, in closed form *)

Lemma withDirs_insert_child (dir : pkey) (n : string) (v : node)
    (fs : gmap pkey node) :
  withDirs (dirKeys dir) (<[child dir n := v]> fs)
  = <[child dir n := v]> (withDirs (dirKeys dir) fs).
Proof.
  apply map_eq. intros k. rewrite lookup_withDirs.
  destruct (decide (k = child dir n)) as [->|Hne].
  - rewrite !lookup_insert_eq. reflexivity.
  - rewrite !lookup_insert_ne by congruence. rewrite lookup_withDirs. reflexivity.
Qed.

Lemma withDirs_idem (ks : list pkey) (fs : gmap pkey node) :
  withDirs ks (withDirs ks fs) = withDirs ks fs.
Proof.
  apply map_eq. intros k. rewrite !lookup_withDirs.
  destruct (fs !! k); [reflexivity|]. case_bool_decide; [|reflexivity].
  reflexivity.
Qed.

Lemma putAll_cons (dir : pkey) (pc : string * string)
    (pcs : list (string * string)) (fs : gmap pkey node) :
  putAll dir (pc :: pcs) fs
  = putAll dir pcs
      (<[child dir (manifestName pc.1) := File (manifestBody pc.1 pc.2)]> fs).
Proof. reflexivity. Qed.

Lemma runFiles_cons (dir : pkey) (pc : string * string)
    (pcs : list (string * string)) (fs : gmap pkey node) :
  runFiles dir (pc :: pcs) fs = runFiles dir pcs (stepFiles dir pc.1 pc.2 fs).
Proof. reflexivity. Qed.

Lemma withDirs_putAll (dir : pkey) (pcs : list (string * string))
    (fs : gmap pkey node) :
  withDirs (dirKeys dir) (putAll dir pcs fs)
  = putAll dir pcs (withDirs (dirKeys dir) fs).
Proof.
  revert fs. induction pcs as [|pc pcs IH]; intros fs; [reflexivity|].
  rewrite !putAll_cons, IH, withDirs_insert_child. reflexivity.
Qed.

Lemma runFiles_putAll (dir : pkey) (pcs : list (string * string))
    (fs : gmap pkey node) :
  pcs <> [] ->
  runFiles dir pcs fs = putAll dir pcs (withDirs (dirKeys dir) fs).
Proof.
  revert fs. induction pcs as [|pc pcs IH]; intros fs Hne; [contradiction|].
  rewrite runFiles_cons, putAll_cons. unfold stepFiles.
  destruct pcs as [|pc' pcs]; [reflexivity|].
  rewrite IH by discriminate.
  rewrite withDirs_insert_child, withDirs_idem. reflexivity.
Qed.

Lemma lookup_putAll_other (dir : pkey) (pcs : list (string * string))
    (fs : gmap pkey node) (k : pkey) :
  Forall (fun pc => child dir (manifestName pc.1) <> k) pcs ->
  putAll dir pcs fs !! k = fs !! k.
Proof.
  revert fs. induction pcs as [|pc pcs IH]; intros fs H; [reflexivity|].
  inversion H as [|? ? Hpc Hrest]; subst.
  rewrite putAll_cons, IH by exact Hrest. apply lookup_insert_ne, Hpc.
Qed.

Lemma lookup_putAll_ext (dir : pkey) (pcs : list (string * string))
    (fs fs' : gmap pkey node) (k : pkey) :
  Exists (fun pc => child dir (manifestName pc.1) = k) pcs \/ fs !! k = fs' !! k ->
  putAll dir pcs fs !! k = putAll dir pcs fs' !! k.
Proof.
  revert fs fs'. induction pcs as [|pc pcs IH]; intros fs fs' H.
  - destruct H as [H|H]; [inversion H|exact H].
  - rewrite !putAll_cons. apply IH.
    destruct (decide (child dir (manifestName pc.1) = k)) as [<-|Hne].
    + right. rewrite !lookup_insert_eq. reflexivity.
    + rewrite !lookup_insert_ne by exact Hne.
      destruct H as [H|H]; [|right; exact H].
      left. inversion H; subst; [contradiction|assumption].
Qed.

Lemma lookup_putAll_last (dir : pkey) (l1 l3 : list (string * string))
    (pc : string * string) (fs : gmap pkey node) :
  Forall (fun pc' => child dir (manifestName pc'.1)
                     <> child dir (manifestName pc.1)) l3 ->
  putAll dir (l1 ++ pc :: l3) fs !! child dir (manifestName pc.1)
  = Some (File (manifestBody pc.1 pc.2)).
Proof.
  intros H. unfold putAll. rewrite fold_left_app. cbn [fold_left].
  fold (putAll dir l1 fs).
  change (fold_left _ l3 ?m) with (putAll dir l3 m).
  rewrite lookup_putAll_other by exact H. apply lookup_insert_eq.
Qed.

Lemma lookup_putAll_File (dir : pkey) (pcs : list (string * string))
    (fs : gmap pkey node) (k : pkey) :
  Exists (fun pc => child dir (manifestName pc.1) = k) pcs ->
  exists c, putAll dir pcs fs !! k = Some (File c).
Proof.
  revert fs. induction pcs as [|pc pcs IH]; intros fs H; [inversion H|].
  rewrite putAll_cons.
  destruct (decide (Exists (fun pc => child dir (manifestName pc.1) = k) pcs))
    as [Hex|Hnex].
  - apply IH, Hex.
  - inversion H as [? ? Hk|]; subst; [|contradiction].
    rewrite lookup_putAll_other.
    + rewrite lookup_insert_eq. eauto.
    + apply Forall_forall. intros pc' Hin E. apply Hnex.
      apply Exists_exists. eauto.
Qed.

Lemma manifestName_not_index (p : string) : manifestName p <> indexName.
Proof.
  intros E.
  assert (H : Strings.HasSuffix (manifestName p) manifestSuffix = true)
    by apply HasSuffix_app.
  rewrite E in H. discriminate.
Qed.

Lemma index_key_fresh (dir : pkey) (pcs : list (string * string)) :
  Forall (fun pc => child dir (manifestName pc.1) <> child dir indexName) pcs.
Proof.
  apply Forall_forall. intros pc _ E%child_inj.
  exact (manifestName_not_index _ E).
Qed.

Lemma lookup_loop_index (dir : pkey) (pcs : list (string * string))
    (fs : gmap pkey node) :
  putAll dir pcs (withDirs (dirKeys dir) fs) !! child dir indexName
  = fs !! child dir indexName.
Proof.
  rewrite lookup_putAll_other by apply index_key_fresh.
  apply lookup_withDirs_child.
Qed.

Lemma zip_nonempty (ps cs : list string) (P : string -> string -> Prop) :
  Forall2 P ps cs -> ps <> [] -> zip ps cs <> [].
Proof. intros H Hne. destruct H; [contradiction|discriminate]. Qed.

Lemma generateAll_pure (ps : list string) (outputDir : string) (w w' : world) :
  Forall (outsideDir (resolve outputDir)) ps ->
  generateAll ps outputDir w = (Ok tt, w') <->
  ps <> []
  /\ exists w1 cs,
       removeGeneratedSchemas outputDir w = (Ok tt, w1)
       /\ Forall2 (fun p c => ReadFile (files w1) p = Ok c) ps cs
       /\ Forall (dirOrFree (files w1)) (dirKeys (resolve outputDir))
       /\ Forall (fun p => fileOrFree (files w1)
                             (child (resolve outputDir) (manifestName p))) ps
       /\ fileOrFree (files w1) (child (resolve outputDir) indexName)
       /\ w' = World (finalFiles (resolve outputDir) ps cs (files w1))
                     (stdout w1 ++ map (progressLine outputDir) ps).
Proof.
  intros Hout. rewrite generateAll_Ok. split.
  - intros (Hne & [fs1 out1] & g & w2 & Hclean & Hgen & Hidx).
    apply (generateEach_pure _ _ _ _ _ _ _ Hout) in Hgen
      as (cs & Hreads & Hd & Hf & -> & ->).
    apply (writeFile_entry _ _ _ _ _ _ validName_indexName) in Hidx
      as (_ & Hfree & ->).
    rewrite (runFiles_putAll _ _ _ (zip_nonempty _ _ _ Hreads Hne)) in *.
    unfold fileOrFree in Hfree. rewrite lookup_loop_index in Hfree.
    split; [exact Hne|]. exists (World fs1 out1), cs. cbn [files stdout].
    split; [exact Hclean|]. split; [exact Hreads|]. split; [apply Hd, Hne|].
    split; [exact Hf|]. split; [exact Hfree|].
    unfold finalFiles, indexBody.
    rewrite withDirs_putAll, withDirs_idem. reflexivity.
  - intros (Hne & [fs1 out1] & cs & Hclean & Hreads & Hd & Hf & Hfree & ->).
    cbn [files stdout] in *. split; [exact Hne|].
    exists (World fs1 out1), (map manifestName ps),
      (World (runFiles (resolve outputDir) (zip ps cs) fs1)
             (out1 ++ map (progressLine outputDir) ps)).
    split; [exact Hclean|]. split.
    + apply (generateEach_pure _ _ _ _ _ _ _ Hout). exists cs.
      split; [exact Hreads|]. split; [intros _; exact Hd|].
      split; [exact Hf|]. split; reflexivity.
    + apply (writeFile_entry _ _ _ _ _ _ validName_indexName).
      rewrite (runFiles_putAll _ _ _ (zip_nonempty _ _ _ Hreads Hne)).
      split; [|split].
      * rewrite <- withDirs_putAll. apply Forall_forall. intros k Hk. right.
        apply withDirs_dirKey; [|exact Hk].
        apply Forall_forall. intros k' Hk'. unfold dirOrFree.
        rewrite lookup_putAll_other.
        -- rewrite Forall_forall in Hd. apply Hd, Hk'.
        -- apply Forall_forall. intros pc _ E. symmetry in E.
           exact (dirKey_not_child _ _ _ Hk' E).
      * unfold fileOrFree. rewrite lookup_loop_index. exact Hfree.
      * unfold finalFiles, indexBody.
        rewrite withDirs_putAll, withDirs_idem. reflexivity.
Qed.

(** ** The files after the cleanup *)

Lemma removeGeneratedSchemas_Ok (outputDir : string) (w w1 : world) :
  removeGeneratedSchemas outputDir w = (Ok tt, w1) ->
  w1 = World (cleanedFiles outputDir (files w)) (stdout w).
Proof.
  unfold cleanedFiles. destruct (ReadDir (files w) outputDir) as [entries|e] eqn:E.
  - rewrite (removeGeneratedSchemas_listed _ _ _ E). intros [= <-]. reflexivity.
  - unfold removeGeneratedSchemas. rewrite E.
    destruct (IsNotExist e); [|discriminate]. intros [= <-].
    destruct w; reflexivity.
Qed.

Lemma removeGeneratedSchemas_total (outputDir : string) (w : world) :
  lookupPath (files w) outputDir = inl ENOENT
  \/ lookupPath (files w) outputDir = inr Dir ->
  removeGeneratedSchemas outputDir w
  = (Ok tt, World (cleanedFiles outputDir (files w)) (stdout w)).
Proof.
  intros H. unfold cleanedFiles.
  pose proof (ReadDir_lookupPath (files w) outputDir) as HL.
  destruct H as [H|H]; rewrite H in HL.
  - unfold removeGeneratedSchemas. rewrite HL. destruct w; reflexivity.
  - rewrite HL. apply removeGeneratedSchemas_listed, HL.
Qed.

Lemma lookupPath_Dir (fs : gmap pkey node) (path : string) :
  lookupPath fs path = inr Dir
  <-> path <> "" /\ walk fs path = inr (resolve path)
      /\ nodeAt fs (resolve path) = Some Dir.
Proof.
  unfold lookupPath. destruct (String.eqb_spec path "") as [->|Hne].
  { split; [discriminate|]. intros [[] _]. reflexivity. }
  destruct (walk fs path) as [e|k] eqn:Ew.
  { split; [discriminate|]. intros (_ & Hw & _). discriminate Hw. }
  apply walk_resolve in Ew as ->.
  destruct (nodeAt fs (resolve path)) as [n|]; split.
  - intros [= ->]. auto.
  - intros (_ & _ & [= ->]). reflexivity.
  - discriminate.
  - intros (_ & _ & Hd). discriminate Hd.
Qed.

Lemma lookupPath_ReadDir (fs : gmap pkey node) (path : string) :
  lookupPath fs path = inr Dir
  <-> ReadDir fs path = Ok (children fs (resolve path)).
Proof.
  rewrite lookupPath_Dir, ReadDir_Ok. tauto.
Qed.

Lemma lookup_cleanedFiles (outputDir : string) (fs : gmap pkey node) (k : pkey) :
  cleanedFiles outputDir fs !! k = fs !! k
  \/ (cleanedFiles outputDir fs !! k = None
      /\ nodeAt fs (resolve outputDir) = Some Dir
      /\ exists name n,
           k = child (resolve outputDir) name /\ validName name = true
           /\ fs !! k = Some n /\ IsDir n = false
           /\ Strings.HasSuffix name manifestSuffix = true).
Proof.
  unfold cleanedFiles.
  destruct (ReadDir fs outputDir) as [entries|e] eqn:E; [|left; reflexivity].
  apply ReadDir_entries in E as (-> & _ & Hd).
  rewrite lookup_removeKeys. case_bool_decide as Hk; [|left; reflexivity].
  right. split; [reflexivity|]. split; [exact Hd|].
  apply elem_of_staleKeys, Hk.
Qed.

Lemma lookup_cleanedFiles_stale (outputDir : string) (fs : gmap pkey node)
    (name : string) (n : node) :
  lookupPath fs outputDir = inr Dir ->
  validName name = true ->
  fs !! child (resolve outputDir) name = Some n -> IsDir n = false ->
  Strings.HasSuffix name manifestSuffix = true ->
  cleanedFiles outputDir fs !! child (resolve outputDir) name = None.
Proof.
  intros Hd%lookupPath_ReadDir Hv Hl Hn Hs. unfold cleanedFiles.
  rewrite Hd.
  rewrite lookup_removeKeys, bool_decide_eq_true_2; [reflexivity|].
  apply elem_of_staleKeys. eauto 10.
Qed.

Lemma lookup_cleanedFiles_outside (outputDir : string) (fs : gmap pkey node)
    (k : pkey) :
  (forall name, k <> child (resolve outputDir) name) ->
  cleanedFiles outputDir fs !! k = fs !! k.
Proof.
  intros Hk. destruct (lookup_cleanedFiles outputDir fs k)
    as [H|(_ & _ & name & n & -> & _)]; [exact H|].
  destruct (Hk name). reflexivity.
Qed.

Lemma ReadFile_cleanedFiles (outputDir : string) (fs : gmap pkey node)
    (p c : string) :
  outsideDir (resolve outputDir) p ->
  ReadFile (cleanedFiles outputDir fs) p = Ok c <-> ReadFile fs p = Ok c.
Proof.
  intros Hout. rewrite !ReadFile_Ok.
  rewrite lookup_cleanedFiles_outside; [reflexivity|].
  intros name. apply outsideDir_not_child, Hout.
Qed.

(** ** Inputs with the same derived name *)

Lemma manifestName_inj (p q : string) :
  manifestName p = manifestName q ->
  deriveSchemaNameFromFilename p = deriveSchemaNameFromFilename q.
Proof.
  unfold manifestName. intros H.
  apply (f_equal (fun x => Strings.TrimSuffix x manifestSuffix)) in H.
  rewrite !TrimSuffix_app in H. exact H.
Qed.

Lemma lookup_finalFiles_manifest (dir : pkey) (ps cs : list string)
    (fs : gmap pkey node) (p : string) :
  finalFiles dir ps cs fs !! child dir (manifestName p)
  = putAll dir (zip ps cs) (withDirs (dirKeys dir) fs) !! child dir (manifestName p).
Proof.
  unfold finalFiles. apply lookup_insert_ne.
  intros E%child_inj. symmetry in E. exact (manifestName_not_index _ E).
Qed.

Lemma ReadFile_entry (fs : gmap pkey node) (d n c : string) :
  validName n = true ->
  fs !! child (resolve d) n = Some (File c) ->
  ReadFile fs (Filepath.Join d n) = Ok c.
Proof.
  intros Hv Hl. destruct (Join_name d n Hv) as (Hres & _ & Hne & _).
  apply ReadFile_Ok. rewrite Hres.
  split; [exact Hne|]. split; [apply child_not_root|exact Hl].
Qed.

Lemma count_two (l1 l2 l3 : list string) (x : string) :
  2 <= count_occ string_dec (l1 ++ x :: l2 ++ x :: l3) x.
Proof.
  rewrite count_occ_app, count_occ_cons_eq by reflexivity.
  rewrite count_occ_app, count_occ_cons_eq by reflexivity. lia.
Qed.

(** ** A second run *)

Lemma cleanedFiles_cases (outputDir : string) (fs : gmap pkey node) (k : pkey) :
  cleanedFiles outputDir fs !! k = fs !! k
  \/ (cleanedFiles outputDir fs !! k = None
      /\ lookupPath fs outputDir = inr Dir
      /\ exists name n,
           k = child (resolve outputDir) name /\ validName name = true
           /\ fs !! k = Some n /\ IsDir n = false
           /\ Strings.HasSuffix name manifestSuffix = true).
Proof.
  unfold cleanedFiles.
  destruct (ReadDir fs outputDir) as [entries|e] eqn:E; [|left; reflexivity].
  assert (Hd : lookupPath fs outputDir = inr Dir).
  { apply lookupPath_ReadDir. rewrite E. f_equal.
    apply ReadDir_Ok in E as (_ & _ & _ & ->). reflexivity. }
  apply ReadDir_entries in E as (-> & _ & _).
  rewrite lookup_removeKeys. case_bool_decide as Hk; [|left; reflexivity].
  right. split; [reflexivity|]. split; [exact Hd|].
  apply elem_of_staleKeys, Hk.
Qed.

Lemma lookup_finalFiles_other (dir : pkey) (ps cs : list string)
    (fs : gmap pkey node) (k : pkey) :
  k <> child dir indexName ->
  (forall p, k <> child dir (manifestName p)) ->
  finalFiles dir ps cs fs !! k = withDirs (dirKeys dir) fs !! k.
Proof.
  intros Hi Hm. unfold finalFiles. rewrite lookup_insert_ne by congruence.
  apply lookup_putAll_other, Forall_forall. intros pc _ E.
  exact (Hm pc.1 (eq_sym E)).
Qed.

Lemma lookup_finalFiles_dirKey (dir : pkey) (ps cs : list string)
    (fs : gmap pkey node) (k : pkey) :
  Forall (dirOrFree fs) (dirKeys dir) -> k ∈ dirKeys dir ->
  finalFiles dir ps cs fs !! k = Some Dir.
Proof.
  intros Hd Hk. rewrite lookup_finalFiles_other.
  - apply withDirs_dirKey; assumption.
  - apply dirKey_not_child, Hk.
  - intros p. apply dirKey_not_child, Hk.
Qed.

Lemma self_dirKey (dir : pkey) : dir.2 <> [] -> dir ∈ dirKeys dir.
Proof.
  intros H. unfold dirKeys. destruct dir as [r l]. simpl in *.
  apply (last_dirKey r [] l H).
Qed.

Lemma nodeAt_finalFiles (dir : pkey) (ps cs : list string) (fs : gmap pkey node) :
  Forall (dirOrFree fs) (dirKeys dir) ->
  nodeAt (finalFiles dir ps cs fs) dir = Some Dir.
Proof.
  intros Hd. unfold nodeAt. destruct dir.2 as [|e l] eqn:E; [reflexivity|].
  apply lookup_finalFiles_dirKey; [exact Hd|].
  apply self_dirKey. rewrite E. discriminate.
Qed.

Lemma ReadFile_finalFiles (dir : pkey) (ps cs : list string)
    (fs : gmap pkey node) (p c : string) :
  outsideDir dir p ->
  ReadFile (finalFiles dir ps cs fs) p = Ok c <-> ReadFile fs p = Ok c.
Proof.
  intros Hout. rewrite !ReadFile_Ok. rewrite lookup_finalFiles_other.
  - rewrite withDirs_File. reflexivity.
  - apply outsideDir_not_child, Hout.
  - intros q. apply outsideDir_not_child, Hout.
Qed.

Lemma reads_transfer (dir : pkey) (fs fs' : gmap pkey node) (ps cs : list string) :
  (forall p c, outsideDir dir p -> ReadFile fs p = Ok c -> ReadFile fs' p = Ok c) ->
  Forall (outsideDir dir) ps ->
  Forall2 (fun p c => ReadFile fs p = Ok c) ps cs ->
  Forall2 (fun p c => ReadFile fs' p = Ok c) ps cs.
Proof.
  intros H Hout HF. revert Hout. induction HF as [|p c ps cs Hr _ IH]; intros Hout.
  - constructor.
  - inversion Hout; subst. constructor; [apply H; assumption|apply IH; assumption].
Qed.

Lemma zip_key (dir : pkey) (ps cs : list string) (P : string -> string -> Prop)
    (p : string) :
  Forall2 P ps cs -> p ∈ ps ->
  Exists (fun pc => child dir (manifestName pc.1) = child dir (manifestName p))
         (zip ps cs).
Proof.
  intros HF Hin. induction HF as [|q c ps cs _ _ IH].
  - apply elem_of_nil in Hin. contradiction.
  - cbn [zip_with]. apply elem_of_cons in Hin as [->|Hin].
    + left. reflexivity.
    + right. apply IH, Hin.
Qed.

Lemma wellFormedb_correct (fs : gmap pkey node) :
  wellFormedb fs = true -> wellFormed fs.
Proof.
  unfold wellFormedb, wellFormed. rewrite forallb_forall.
  intros H k n Hl Hne. specialize (H (k, n)). cbn [fst snd] in H.
  destruct k.2 as [|e l] eqn:E; [contradiction|].
  destruct (nodeAt fs (parent k)) as [[| | |]|]; try reflexivity;
    exfalso; (assert (false = true); [apply H|discriminate]);
    apply list_elem_of_In, elem_of_map_to_list, Hl.
Qed.

(** ** The loop on any inputs: what it leaves untouched *)

Lemma generateEach_frame (outputDir : string) (ps gen g : list string)
    (fs fs' : gmap pkey node) (out out' : list string) :
  ps <> [] ->
  generateEach outputDir ps gen (World fs out) = (Ok g, World fs' out') ->
  Forall (dirOrFree fs) (dirKeys (resolve outputDir))
  /\ Forall (fun p => fileOrFree fs (child (resolve outputDir) (manifestName p))) ps
  /\ (forall p, p ∈ ps ->
        exists c, fs' !! child (resolve outputDir) (manifestName p) = Some (File c))
  /\ (forall k, (forall p, p ∈ ps -> k <> child (resolve outputDir) (manifestName p)) ->
        fs' !! k = withDirs (dirKeys (resolve outputDir)) fs !! k).
Proof.
  set (dir := resolve outputDir).
  revert gen fs out. induction ps as [|p ps IH]; intros gen fs out Hne H;
    [contradiction|].
  apply generateEach_cons in H as (proto & Hr & Hok & H). fold dir in Hok, H.
  destruct ps as [|q ps].
  - cbn [generateEach] in H. unfold ret in H. injection H as _ <- _.
    split; [apply Hok|]. split; [constructor; [apply Hok|constructor]|]. split.
    + intros p' ->%list_elem_of_singleton.
      rewrite lookup_stepFiles, bool_decide_eq_true_2 by reflexivity. eauto.
    + intros k Hk. rewrite lookup_stepFiles.
      rewrite bool_decide_eq_false_2; [reflexivity|].
      apply Hk. left.
  - apply IH in H as (Hd & Hf & Hfile & Hframe); [|discriminate].
    split; [apply Hok|].
    split; [constructor; [apply Hok|apply (free_stepFiles _ _ proto _ _ Hok), Hf]|].
    split.
    + intros p' Hp'. destruct (decide (p' ∈ q :: ps)) as [Hin|Hnin].
      * apply Hfile, Hin.
      * apply elem_of_cons in Hp' as [->|Hp']; [|contradiction].
        destruct (decide (Exists (fun p' => child dir (manifestName p')
                                            = child dir (manifestName p))
                                 (q :: ps))) as [Hex|Hnex].
        -- apply Exists_exists in Hex as (p'' & Hin'' & E).
           rewrite <- E. apply Hfile, Hin''.
        -- rewrite Hframe.
           ++ rewrite lookup_withDirs_child, lookup_stepFiles.
              rewrite bool_decide_eq_true_2 by reflexivity. eauto.
           ++ intros p'' Hin'' E. apply Hnex, Exists_exists. eauto.
    + intros k Hk. rewrite Hframe by (intros p' Hp'; apply Hk; right; exact Hp').
      rewrite lookup_withDirs, lookup_stepFiles.
      rewrite bool_decide_eq_false_2 by (apply Hk; left).
      destruct (withDirs (dirKeys dir) fs !! k) as [n|] eqn:E; [reflexivity|].
      case_bool_decide as Hin; [|reflexivity].
      rewrite (withDirs_dirKey dir fs k (proj1 Hok) Hin) in E. discriminate.
Qed.

(** ** The loop run again *)

Lemma withDirs_stepFiles (dir : pkey) (p proto : string) (fs : gmap pkey node) :
  withDirs (dirKeys dir) (stepFiles dir p proto fs) = stepFiles dir p proto fs.
Proof.
  unfold stepFiles. rewrite withDirs_insert_child, withDirs_idem. reflexivity.
Qed.

Lemma lookup_stepFiles_index (dir : pkey) (p proto : string) (fs : gmap pkey node) :
  stepFiles dir p proto fs !! child dir indexName = fs !! child dir indexName.
Proof.
  rewrite lookup_stepFiles, bool_decide_eq_false_2.
  - apply lookup_withDirs_child.
  - intros E%child_inj. symmetry in E. exact (manifestName_not_index _ E).
Qed.

Lemma dirOrFree_of_withDirs (ks : list pkey) (fs : gmap pkey node) (k : pkey) :
  withDirs ks fs !! k = Some Dir -> dirOrFree fs k.
Proof.
  rewrite lookup_withDirs. unfold dirOrFree.
  destruct (fs !! k) as [n|]; [intros [= ->]; right; reflexivity|left; reflexivity].
Qed.

Lemma replayed_start (ks : list pkey) (fa fb : gmap pkey node) :
  replayed ks [] fa fb fa fb.
Proof.
  intros k. right. split; [apply not_elem_of_nil|]. split; reflexivity.
Qed.

Lemma replayed_stepFiles (dir : pkey) (written : list pkey) (p proto : string)
    (fa fb K L : gmap pkey node) :
  replayed (dirKeys dir) written fa fb K L ->
  replayed (dirKeys dir) (written ++ [child dir (manifestName p)])
    fa fb (stepFiles dir p proto K) (stepFiles dir p proto L).
Proof.
  intros H k. rewrite !withDirs_stepFiles, !lookup_stepFiles.
  case_bool_decide as Hk; [left; reflexivity|].
  destruct (H k) as [E|(Hw & EK & EL)]; [left; exact E|right].
  split; [|split; assumption].
  intros [Hin|Hin%list_elem_of_singleton]%elem_of_app; contradiction.
Qed.

Lemma replayed_read (ks written : list pkey) (fa fb K L : gmap pkey node)
    (p c : string) :
  replayed ks written fa fb K L ->
  (ReadFile fa p = Ok c -> ReadFile fb p = Ok c) ->
  ReadFile K p = Ok c -> ReadFile L p = Ok c.
Proof.
  intros H Hab. rewrite !ReadFile_Ok in *. intros (H1 & H2 & H3).
  split; [exact H1|]. split; [exact H2|].
  apply (withDirs_File ks) in H3.
  destruct (H (resolve p)) as [E|(_ & EK & EL)].
  - apply (withDirs_File ks). rewrite <- E. exact H3.
  - apply (withDirs_File ks). rewrite EL. apply withDirs_File.
    apply Hab. split; [exact H1|]. split; [exact H2|].
    apply (withDirs_File ks). rewrite <- EK. exact H3.
Qed.

Lemma replayed_stepOK (dir : pkey) (written : list pkey) (p : string)
    (fa fb K L : gmap pkey node) :
  replayed (dirKeys dir) written fa fb K L ->
  Forall (dirOrFree fb) (dirKeys dir) ->
  fileOrFree fb (child dir (manifestName p)) ->
  stepOK dir p K -> stepOK dir p L.
Proof.
  intros H Hdb Hfb [Hd Hf]. split.
  - apply Forall_forall. intros k Hk.
    apply (dirOrFree_of_withDirs (dirKeys dir)).
    destruct (H k) as [E|(_ & _ & EL)].
    + rewrite <- E. apply withDirs_dirKey; assumption.
    + rewrite EL. apply withDirs_dirKey; assumption.
  - unfold fileOrFree in *.
    destruct (H (child dir (manifestName p))) as [E|(_ & _ & EL)];
      rewrite !lookup_withDirs_child in *.
    + rewrite <- E. exact Hf.
    + rewrite EL. exact Hfb.
Qed.

Lemma generateEach_replay (outputDir : string) (ps gen g : list string)
    (written : list pkey) (fa fb K K' L : gmap pkey node)
    (out1 out1' out2 : list string) :
  (forall p c, p ∈ ps -> ReadFile fa p = Ok c -> ReadFile fb p = Ok c) ->
  Forall (dirOrFree fb) (dirKeys (resolve outputDir)) ->
  Forall (fun p => fileOrFree fb (child (resolve outputDir) (manifestName p))) ps ->
  replayed (dirKeys (resolve outputDir)) written fa fb K L ->
  generateEach outputDir ps gen (World K out1) = (Ok g, World K' out1') ->
  exists L',
    generateEach outputDir ps gen (World L out2)
    = (Ok g, World L' (out2 ++ map (progressLine outputDir) ps))
    /\ replayed (dirKeys (resolve outputDir))
         (written ++ map (fun p => child (resolve outputDir) (manifestName p)) ps)
         fa fb K' L'.
Proof.
  set (dir := resolve outputDir).
  revert gen written K L out1 out2.
  induction ps as [|p ps IH]; intros gen written K L out1 out2 Hrd Hdb Hfb Hinv H.
  - cbn [generateEach] in *. unfold ret in *. injection H as <- <- _.
    exists L. cbn [map]. rewrite !app_nil_r. auto.
  - apply generateEach_cons in H as (proto & Hr & Hok & H). fold dir in Hok, H.
    inversion Hfb as [|? ? Hfp Hfps]; subst.
    assert (Hr2 : ReadFile L p = Ok proto).
    { apply (replayed_read _ _ _ _ _ _ _ _ Hinv); [|exact Hr].
      apply Hrd. left. }
    destruct (IH (gen ++ [manifestName p])%list
                (written ++ [child dir (manifestName p)])%list
                (stepFiles dir p proto K) (stepFiles dir p proto L)
                (out1 ++ [progressLine outputDir p])%list
                (out2 ++ [progressLine outputDir p])%list)
      as (L' & H2 & Hinv').
    + intros q c Hq. apply Hrd. right. exact Hq.
    + exact Hdb.
    + exact Hfps.
    + apply replayed_stepFiles, Hinv.
    + exact H.
    + exists L'. split.
      * apply generateEach_cons. exists proto. split; [exact Hr2|].
        split; [apply (replayed_stepOK dir written p fa fb K L); assumption|].
        fold dir. rewrite H2. cbn [map]. rewrite <- app_assoc. reflexivity.
      * cbn [map]. rewrite (cons_middle _ written), app_assoc. exact Hinv'.
Qed.

(** ** A second run, for any inputs *)

Lemma generateEach_valid (outputDir : string) (ps gen g : list string)
    (w w' : world) :
  generateEach outputDir ps gen w = (Ok g, w') ->
  Forall (fun p => validName (manifestName p) = true) ps.
Proof.
  revert gen w. induction ps as [|p ps IH]; intros gen [fs out] H; [constructor|].
  apply generateEach_cons in H as (proto & Hr & _ & H).
  constructor; [apply (ReadFile_validName _ _ _ Hr)|apply (IH _ _ H)].
Qed.

Lemma cleanedFiles_index (outputDir : string) (fs : gmap pkey node) :
  cleanedFiles outputDir fs !! child (resolve outputDir) indexName
  = fs !! child (resolve outputDir) indexName.
Proof.
  destruct (cleanedFiles_cases outputDir fs (child (resolve outputDir) indexName))
    as [E|(_ & _ & name & n & Hk & _ & _ & _ & Hs)]; [exact E|].
  apply child_inj in Hk. subst name. discriminate.
Qed.

Lemma withDirs_absorb (ks : list pkey) (fs fs' : gmap pkey node) (k : pkey) :
  (forall k', k' ∈ ks -> withDirs ks fs !! k' = Some Dir) ->
  fs' !! k = withDirs ks fs !! k ->
  withDirs ks fs' !! k = withDirs ks fs !! k.
Proof.
  intros Hd E. rewrite (lookup_withDirs ks fs'), E.
  destruct (withDirs ks fs !! k) as [n|] eqn:Ew; [reflexivity|].
  case_bool_decide as Hin; [|reflexivity].
  rewrite (Hd k Hin) in Ew. discriminate.
Qed.

Lemma elem_of_dirKeysFrom_prefix (rooted : bool) (done todo : list string)
    (k : pkey) :
  k ∈ dirKeysFrom rooted done todo ->
  exists t1 t2, todo = (t1 ++ t2)%list /\ t1 <> [] /\ k = (rooted, (done ++ t1)%list).
Proof.
  revert done. induction todo as [|e todo IH]; intros done H.
  - apply elem_of_nil in H. contradiction.
  - simpl in H. apply elem_of_cons in H as [->|H].
    + exists [e], todo. split; [reflexivity|]. split; [discriminate|reflexivity].
    + apply IH in H as (t1 & t2 & -> & _ & ->).
      exists (e :: t1), t2. split; [reflexivity|]. split; [discriminate|].
      rewrite <- app_assoc. reflexivity.
Qed.

Lemma wellFormed_prefix (fs : gmap pkey node) (rooted : bool)
    (t1 t2 : list string) (n : node) :
  wellFormed fs -> t1 <> [] -> t2 <> [] ->
  fs !! (rooted, (t1 ++ t2)%list) = Some n ->
  fs !! (rooted, t1) = Some Dir.
Proof.
  intros Hwf H1. revert n. induction t2 as [|x t2 IH] using rev_ind;
    intros n H2 Hl; [contradiction|].
  pose proof (Hwf _ _ Hl) as Hp. unfold parent, nodeAt in Hp. cbn [fst snd] in Hp.
  rewrite app_assoc, removelast_last in Hp.
  assert (Hne : (t1 ++ t2 ++ [x])%list <> []).
  { destruct t1; [contradiction|discriminate]. }
  rewrite app_assoc in Hne. specialize (Hp Hne).
  destruct t2 as [|y t2].
  - rewrite app_nil_r in Hp. destruct t1; [contradiction|exact Hp].
  - apply (IH Dir); [discriminate|].
    destruct (t1 ++ y :: t2)%list eqn:E; [|exact Hp].
    destruct t1; discriminate.
Qed.

Lemma walkFrom_ENOENT (fs : gmap pkey node) (rooted : bool)
    (stack elems : list string) :
  walkFrom fs rooted stack elems = inl ENOENT ->
  exists v, v ∈ walkKeysFrom rooted stack elems /\ nodeAt fs v = None.
Proof.
  revert stack. induction elems as [|e elems IH]; intros stack;
    cbn [walkFrom walkKeysFrom]; [discriminate|].
  destruct (nodeAt fs (rooted, rev stack)) as [[| | |]|] eqn:E; try discriminate.
  - intros (v & Hv & Hn)%IH. exists v. split; [right; exact Hv|exact Hn].
  - intros _. exists (rooted, rev stack). split; [left|exact E].
Qed.

Lemma lookupPath_ENOENT (fs : gmap pkey node) (path : string) :
  lookupPath fs path = inl ENOENT ->
  path = ""
  \/ exists v, (v ∈ walkKeys path \/ v = resolve path) /\ nodeAt fs v = None.
Proof.
  unfold lookupPath. destruct (String.eqb_spec path "") as [->|Hne]; [auto|].
  destruct (walk fs path) as [e|k] eqn:Ew.
  - intros [= ->]. apply walkFrom_ENOENT in Ew as (v & Hv & Hn). eauto.
  - apply walk_resolve in Ew as ->.
    destruct (nodeAt fs (resolve path)) as [n|] eqn:E; [discriminate|].
    intros _. eauto.
Qed.

Lemma lookupPath_Dir_keys (fs : gmap pkey node) (path : string) (v : pkey) :
  lookupPath fs path = inr Dir ->
  v ∈ walkKeys path \/ v = resolve path -> nodeAt fs v = Some Dir.
Proof.
  intros (_ & Hw & Hd)%lookupPath_Dir [Hv| ->]; [|exact Hd].
  apply walk_dirs in Hw. rewrite Forall_forall in Hw. apply Hw, Hv.
Qed.

Lemma removeGeneratedSchemas_Ok_path (outputDir : string) (w w1 : world) :
  removeGeneratedSchemas outputDir w = (Ok tt, w1) ->
  lookupPath (files w) outputDir = inl ENOENT
  \/ lookupPath (files w) outputDir = inr Dir.
Proof.
  unfold removeGeneratedSchemas.
  pose proof (ReadDir_lookupPath (files w) outputDir) as HL.
  destruct (lookupPath (files w) outputDir) as [[]|[]]; auto;
    try (rewrite HL; discriminate);
    destruct HL as [HL|HL]; rewrite HL; discriminate.
Qed.

Lemma removeGeneratedSchemas_fails (outputDir : string) (w : world) :
  lookupPath (files w) outputDir <> inl ENOENT ->
  lookupPath (files w) outputDir <> inr Dir ->
  exists e, removeGeneratedSchemas outputDir w = (Err e, w)
            /\ IsNotExist e = false.
Proof.
  unfold removeGeneratedSchemas.
  pose proof (ReadDir_lookupPath (files w) outputDir) as HL.
  destruct (lookupPath (files w) outputDir) as [[]|[]]; intros H1 H2;
    try contradiction;
    try (rewrite HL; eexists; split; reflexivity);
    destruct HL as [HL|HL]; rewrite HL; eexists; split; reflexivity.
Qed.

Lemma cleanedFiles_skipped (outputDir : string) (fs : gmap pkey node) :
  lookupPath fs outputDir <> inr Dir -> cleanedFiles outputDir fs = fs.
Proof.
  intros H. unfold cleanedFiles.
  destruct (ReadDir fs outputDir) as [entries|e] eqn:E; [|reflexivity].
  destruct H. apply lookupPath_ReadDir. rewrite E. f_equal.
  apply ReadDir_Ok in E as (_ & _ & _ & ->). reflexivity.
Qed.

(** After a listing of the output directory nothing that the cleanup
    removes is left. *)
Lemma cleanedFiles_clean (outputDir : string) (fs : gmap pkey node)
    (name : string) (n : node) :
  lookupPath fs outputDir = inr Dir ->
  validName name = true ->
  Strings.HasSuffix name manifestSuffix = true ->
  cleanedFiles outputDir fs !! child (resolve outputDir) name = Some n ->
  IsDir n = false -> False.
Proof.
  intros Hd Hv Hs Hl Hn.
  assert (H0 : fs !! child (resolve outputDir) name = Some n).
  { destruct (cleanedFiles_cases outputDir fs (child (resolve outputDir) name))
      as [E|(E & _)]; congruence. }
  pose proof (lookup_cleanedFiles_stale outputDir fs name n Hd Hv H0 Hn Hs).
  congruence.
Qed.

Lemma generateAll_again (ps : list string) (outputDir : string) (w0 w1 : world) :
  wellFormed (files w0) ->
  (forall p c, p ∈ ps ->
     ReadFile (files w0) p = Ok c -> ReadFile (files w1) p = Ok c) ->
  generateAll ps outputDir w0 = (Ok tt, w1) ->
  lookupPath (files w1) outputDir = inl ENOENT
  \/ lookupPath (files w1) outputDir = inr Dir ->
  exists w2,
    generateAll ps outputDir w1 = (Ok tt, w2)
    /\ files w2 = files w1
    /\ stdout w2 = (stdout w1 ++ map (progressLine outputDir) ps)%list.
Proof.
  intros Hwf Hreads Hrun Hpath.
  apply generateAll_Ok in Hrun as (Hps & wa & g & [gn sn] & Hclean & Hgen & Hidx).
  pose proof (removeGeneratedSchemas_Ok_path _ _ _ Hclean) as Hpath0.
  apply removeGeneratedSchemas_Ok in Hclean. subst wa.
  destruct w0 as [f0 s0]. cbn [files stdout] in *.
  pose proof (generateEach_valid _ _ _ _ _ _ Hgen) as Hvalid.
  pose proof (generateEach_frame _ _ _ _ _ _ _ _ Hps Hgen)
    as (Hd & Hf & Hfile & Hframe).
  apply (writeFile_entry _ _ _ _ _ _ validName_indexName) in Hidx
    as (Hdn & Hfn & ->).
  cbn [files stdout] in *.
  set (dir := resolve outputDir) in *.
  set (fa := cleanedFiles outputDir f0) in *.
  set (body := Strings.ReplaceAll (kustomizationText (sortStrings g)) crlf nl) in *.
  set (f1 := <[child dir indexName := File body]> (withDirs (dirKeys dir) gn)) in *.
  assert (Hdirs : forall k', k' ∈ dirKeys dir ->
            withDirs (dirKeys dir) fa !! k' = Some Dir).
  { intros k' Hk'. apply withDirs_dirKey; assumption. }
  assert (H1idx : f1 !! child dir indexName = Some (File body))
    by apply lookup_insert_eq.
  assert (H1man : forall p, p ∈ ps ->
            exists c, f1 !! child dir (manifestName p) = Some (File c)).
  { intros p Hp. unfold f1. rewrite lookup_insert_ne.
    - rewrite lookup_withDirs_child. apply Hfile, Hp.
    - intros E%child_inj. symmetry in E. exact (manifestName_not_index _ E). }
  assert (H1oth : forall k, k <> child dir indexName ->
            (forall p, p ∈ ps -> k <> child dir (manifestName p)) ->
            f1 !! k = withDirs (dirKeys dir) fa !! k).
  { intros k Hk Hnm. unfold f1. rewrite lookup_insert_ne by congruence.
    apply withDirs_absorb; [exact Hdirs|apply Hframe, Hnm]. }
  assert (H1key : forall k, k ∈ dirKeys dir -> f1 !! k = Some Dir).
  { intros k Hk. rewrite H1oth.
    - apply Hdirs, Hk.
    - apply dirKey_not_child, Hk.
    - intros p _. apply dirKey_not_child, Hk. }
  set (fb := cleanedFiles outputDir f1).
  assert (Hfb : forall k,
            fb !! k = f1 !! k
            \/ (lookupPath f1 outputDir = inr Dir
                /\ exists name n,
                     k = child dir name /\ validName name = true
                     /\ f1 !! k = Some n /\ IsDir n = false
                     /\ Strings.HasSuffix name manifestSuffix = true)).
  { intros k. destruct (cleanedFiles_cases outputDir f1 k) as [E|(_ & E & H)];
      [left; exact E|right; split; assumption]. }
  assert (Hclean : lookupPath f1 outputDir = inr Dir ->
            forall name n, validName name = true ->
              Strings.HasSuffix name manifestSuffix = true ->
              fa !! child dir name = Some n -> IsDir n = false -> False).
  { intros H1 name n Hv Hs Hl Hn.
    destruct Hpath0 as [H0|H0];
      [|exact (cleanedFiles_clean outputDir f0 name n H0 Hv Hs Hl Hn)].
    assert (Efa : fa = f0).
    { apply cleanedFiles_skipped. rewrite H0. discriminate. }
    rewrite Efa in *.
    apply lookupPath_ENOENT in H0 as [->|(v & Hv0 & Hnone)].
    { apply lookupPath_Dir in H1 as [[] _]. reflexivity. }
    pose proof (lookupPath_Dir_keys f1 outputDir v H1 Hv0) as Hv1.
    unfold nodeAt in Hnone, Hv1. destruct v.2 as [|e l] eqn:Ev; [discriminate|].
    assert (Hin : v ∈ dirKeys dir).
    { destruct (decide (v = child dir indexName)) as [->|Hi]; [congruence|].
      destruct (decide (Exists (fun p => v = child dir (manifestName p)) ps))
        as [Hex|Hnex].
      - apply Exists_exists in Hex as (p & Hp & ->).
        destruct (H1man p Hp) as [c Hc]. congruence.
      - rewrite H1oth in Hv1; [|exact Hi|].
        + rewrite lookup_withDirs, Hnone in Hv1.
          case_bool_decide; [assumption|discriminate].
        + intros p Hp E. apply Hnex, Exists_exists. eauto. }
    unfold dirKeys in Hin.
    apply elem_of_dirKeysFrom_prefix in Hin as (t1 & t2 & Edir & Ht1 & ->).
    cbn [app] in Hnone.
    assert (Hd1 : f0 !! (dir.1, t1) = Some Dir).
    { apply (wellFormed_prefix f0 dir.1 t1 (t2 ++ [name]) n Hwf Ht1).
      - destruct t2; discriminate.
      - rewrite app_assoc, <- Edir. exact Hl. }
    cbn [fst snd] in *. congruence. }
  assert (Hrd : forall p c, p ∈ ps -> ReadFile fa p = Ok c -> ReadFile fb p = Ok c).
  { intros p c Hp Hr.
    assert (Hr0 : ReadFile f0 p = Ok c).
    { rewrite ReadFile_Ok in *. destruct Hr as (H1 & H2 & H3).
      split; [exact H1|]. split; [exact H2|].
      destruct (cleanedFiles_cases outputDir f0 (resolve p)) as [E|(E & _)];
        fold fa in E; congruence. }
    pose proof (Hreads p c Hp Hr0) as Hr1.
    rewrite ReadFile_Ok in *. destruct Hr1 as (H1 & H2 & H3).
    split; [exact H1|]. split; [exact H2|].
    destruct (Hfb (resolve p)) as [E|(Hl1 & name & n & Hk & Hv & Hl & Hn & Hs)];
      [congruence|].
    exfalso. destruct Hr as (_ & _ & Hra). rewrite Hk in Hra.
    exact (Hclean Hl1 name (File c) Hv Hs Hra eq_refl). }
  assert (Hdb : Forall (dirOrFree fb) (dirKeys dir)).
  { apply Forall_forall. intros k Hk. right.
    destruct (Hfb k) as [E|(_ & name & _ & Ek & _)].
    - rewrite E. apply H1key, Hk.
    - destruct (dirKey_not_child _ _ name Hk Ek). }
  assert (Hmb : Forall (fun p => fileOrFree fb (child dir (manifestName p))) ps).
  { apply Forall_forall. intros p Hp. unfold fileOrFree.
    destruct (cleanedFiles_cases outputDir f1 (child dir (manifestName p)))
      as [E|(E & _)]; fold fb in E; [|left; exact E].
    right. rewrite E. apply H1man, Hp. }
  destruct (generateEach_replay outputDir ps [] g [] fa fb fa gn fb s0 sn sn
              Hrd Hdb Hmb (replayed_start _ fa fb) Hgen)
    as (g2 & Hgen2 & Hinv). fold dir in Hinv. cbn [app] in Hinv.
  pose proof (generateEach_frame _ _ _ _ _ _ _ _ Hps Hgen2)
    as (_ & _ & _ & Hframe2).
  fold dir in Hframe2.
  exists (World (<[child dir indexName := File body]> (withDirs (dirKeys dir) g2))
            (sn ++ map (progressLine outputDir) ps)).
  split; [|split].
  - apply generateAll_Ok. split; [exact Hps|].
    exists (World fb sn), g, (World g2 (sn ++ map (progressLine outputDir) ps)).
    split; [|split].
    + apply (removeGeneratedSchemas_total outputDir (World f1 sn)). exact Hpath.
    + exact Hgen2.
    + apply (writeFile_entry _ _ _ _ _ _ validName_indexName).
      fold dir. split; [|split; [|reflexivity]].
      * apply Forall_forall. intros k Hk.
        apply (dirOrFree_of_withDirs (dirKeys dir)).
        rewrite lookup_withDirs, Hframe2
          by (intros p _; apply dirKey_not_child, Hk).
        rewrite (withDirs_dirKey dir fb k Hdb Hk). reflexivity.
      * right. exists body. rewrite Hframe2.
        -- rewrite lookup_withDirs_child. unfold fb, dir.
           rewrite cleanedFiles_index. exact H1idx.
        -- intros p _ E%child_inj. symmetry in E. exact (manifestName_not_index _ E).
  - cbn [files]. apply map_eq. intros k.
    destruct (decide (k = child dir indexName)) as [->|Hk].
    { unfold f1. rewrite !lookup_insert_eq. reflexivity. }
    unfold f1. rewrite !lookup_insert_ne by congruence.
    destruct (Hinv k) as [E|(Hw & EK & EL)]; [symmetry; exact E|].
    rewrite EK, EL.
    assert (Hnm : forall p, p ∈ ps -> k <> child dir (manifestName p)).
    { intros p Hp ->. apply Hw, list_elem_of_fmap. eauto. }
    apply withDirs_absorb; [exact Hdirs|].
    destruct (Hfb k) as [E|(Hl1 & name & n & Ek & Hv & Hl & Hn & Hs)].
    + rewrite E. apply H1oth; assumption.
    + exfalso. rewrite H1oth in Hl by assumption. subst k.
      rewrite lookup_withDirs_child in Hl.
      exact (Hclean Hl1 name n Hv Hs Hl Hn).
  - reflexivity.
Qed.

(** C9: on a well-formed file system, when a run succeeds and leaves the
    input set unchanged (the same paths are resolved, and they read the
    same), a second run leaves every file exactly as the first run left
    it.  The second run succeeds, and prints the progress lines again,
    when the path of the output directory can still be followed to the
    directory (or ends at a missing entry, as it may have for the first
    run); it fails in the cleanup, having changed nothing, when the path
    now passes through a file that the first run wrote. *)
Theorem run_twice_same_files (pubsubDir globPattern outputDir : string)
    (inputs : list string) (w0 w1 : world) :
  wellFormed (files w0) ->
  resolveInputs (files w0) pubsubDir globPattern = Ok inputs ->
  resolveInputs (files w1) pubsubDir globPattern = Ok inputs ->
  (forall p, p ∈ inputs -> ReadFile (files w1) p = ReadFile (files w0) p) ->
  run pubsubDir globPattern outputDir w0 = (Ok tt, w1) ->
  files (run pubsubDir globPattern outputDir w1).2 = files w1
  /\ (lookupPath (files w1) outputDir = inr Dir
      \/ lookupPath (files w1) outputDir = inl ENOENT ->
      run pubsubDir globPattern outputDir w1
      = (Ok tt, World (files w1)
                  (stdout w1 ++ map (progressLine outputDir) inputs)))
  /\ (lookupPath (files w1) outputDir <> inr Dir ->
      lookupPath (files w1) outputDir <> inl ENOENT ->
      exists e, run pubsubDir globPattern outputDir w1 = (Err e, w1)).
Proof.
  intros Hwf Hin0 Hin1 Hsame Hrun. unfold run in *.
  destruct (String.eqb_spec outputDir "") as [|Hne]; [discriminate|].
  unfold bind, reading in *. rewrite Hin0 in Hrun. rewrite Hin1.
  assert (Hok : lookupPath (files w1) outputDir = inr Dir
                \/ lookupPath (files w1) outputDir = inl ENOENT ->
                generateAll inputs outputDir w1
                = (Ok tt, World (files w1)
                            (stdout w1 ++ map (progressLine outputDir) inputs))).
  { intros Hp.
    destruct (generateAll_again inputs outputDir w0 w1 Hwf) as (w2 & H2 & Hf & Hs).
    - intros p c Hp' Hr. rewrite (Hsame p Hp'). exact Hr.
    - exact Hrun.
    - tauto.
    - rewrite H2. destruct w2 as [f2 s2]. cbn [files stdout] in *.
      subst. reflexivity. }
  assert (Herr : lookupPath (files w1) outputDir <> inr Dir ->
                 lookupPath (files w1) outputDir <> inl ENOENT ->
                 exists e, generateAll inputs outputDir w1 = (Err e, w1)).
  { intros H1 H2.
    destruct (removeGeneratedSchemas_fails outputDir w1 H2 H1) as [e [He _]].
    exists e. apply generateAll_Ok in Hrun as (Hps & _).
    rewrite (generateAll_unfold _ _ _ Hps), He. reflexivity. }
  split; [|split; [exact Hok|exact Herr]].
  destruct (lookupPath (files w1) outputDir) as [e|n] eqn:E.
  - destruct e; try (destruct Herr as [e' ->]; [discriminate|discriminate|reflexivity]).
    rewrite Hok by auto. reflexivity.
  - destruct n; try (destruct Herr as [e' ->]; [discriminate|discriminate|reflexivity]).
    rewrite Hok by auto. reflexivity.
Qed.

(** Two runs on the example file system: the stale manifest is gone
    after both, and the files are the same. *)
Lemma run_twice_same_files_witness :
  let w0 := World demoFS [] in
  exists w1,
    run "in" "*.pubsub.proto" "out" w0 = (Ok tt, w1)
    /\ files (run "in" "*.pubsub.proto" "out" w1).2 = files w1
    /\ ReadFile (files w1) "out/old.schema.yaml"
       = Err (PathError "open" "out/old.schema.yaml" ENOENT).
Proof.
  intros w0.
  pose (w1 := (run "in" "*.pubsub.proto" "out" w0).2).
  assert (Hrun : run "in" "*.pubsub.proto" "out" w0 = (Ok tt, w1)).
  { apply result_pair. vm_compute. reflexivity. }
  destruct (run_twice_same_files "in" "*.pubsub.proto" "out"
              ["in/a.v1.One.pubsub.proto"; "in/b.v1.Two.pubsub.proto"] w0 w1)
    as (Hfiles & _).
  - apply wellFormedb_correct. vm_compute. reflexivity.
  - vm_compute. reflexivity.
  - vm_compute. reflexivity.
  - intros p Hp. apply list_elem_of_In in Hp. simpl in Hp.
    destruct Hp as [<-|[<-|[]]]; vm_compute; reflexivity.
  - exact Hrun.
  - exists w1. split; [exact Hrun|]. split; [exact Hfiles|].
    vm_compute. reflexivity.
Defined.

(** The second run can fail: with the output directory given as
    [out/kustomization.yaml/..] the first run finds no such path, skips
    the cleanup and writes into [out]; for the second run the path passes
    through the index, a regular file, and the run fails, the files being
    as the first run left them. *)
Lemma run_twice_second_fails :
  let w0 := World abFS [] in
  exists w1,
    run "in" "*.pubsub.proto" "out/kustomization.yaml/.." w0 = (Ok tt, w1)
    /\ run "in" "*.pubsub.proto" "out/kustomization.yaml/.." w1
       = (Err (PathError "open" "out/kustomization.yaml/.." ENOTDIR), w1).
Proof.
  intros w0. eexists. split.
  - apply result_pair. vm_compute. reflexivity.
  - vm_compute. reflexivity.
Qed.

(** * Further properties of the generator *)

(** ** Newline normalization, again *)

Lemma ReplaceAll_no_crlf (r : string) :
  Strings.Contains r crlf = false -> Strings.ReplaceAll r crlf nl = r.
Proof.
  induction r as [|a r IH]; [reflexivity|].
  rewrite Contains_cons, HasPrefix_crlf. intros [H1 H2]%orb_false_iff.
  rewrite ReplaceAll_crlf_cons, H1, (IH H2). reflexivity.
Qed.

Lemma length_ReplaceAll_crlf (n : nat) (r : string) :
  String.length r <= n ->
  String.length (Strings.ReplaceAll r crlf nl) <= String.length r
  /\ (Strings.Contains r crlf = true ->
      String.length (Strings.ReplaceAll r crlf nl) < String.length r)
  /\ (endsWith r Strings.LF = true ->
      endsWith (Strings.ReplaceAll r crlf nl) Strings.LF = true).
Proof.
  revert r. induction n as [|n IH]; intros r Hn.
  { destruct r; [|simpl in Hn; lia]. cbn. repeat split; try discriminate; lia. }
  destruct r as [|a r]; [cbn; repeat split; try discriminate; lia|].
  simpl in Hn. rewrite ReplaceAll_crlf_cons, Contains_cons, HasPrefix_crlf.
  destruct (Ascii.eqb a Strings.CR && Strings.HasPrefix r nl) eqn:E.
  - apply andb_true_iff in E as [_ E]. rewrite HasPrefix_nl in E.
    destruct r as [|b r]; [discriminate|].
    apply Ascii.eqb_eq in E. subst b. cbn [Strings.drop].
    destruct (IH r ltac:(simpl in Hn; lia)) as (H1 & H2 & H3).
    cbn [String.length]. split; [lia|]. split; [intros _; lia|].
    intros He. rewrite endsWith_cons in He.
    replace (endsWith (String Strings.LF r) Strings.LF)
      with (match r with "" => true | _ => endsWith r Strings.LF end) in He
      by (rewrite endsWith_cons; destruct r; reflexivity).
    rewrite endsWith_cons.
    destruct r as [|c r]; [reflexivity|].
    specialize (H3 He).
    destruct (Strings.ReplaceAll (String c r) crlf nl); [discriminate|exact H3].
  - destruct (IH r ltac:(lia)) as (H1 & H2 & H3).
    cbn [String.length orb]. split; [lia|]. split; [intros H; specialize (H2 H); lia|].
    rewrite !endsWith_cons. destruct r as [|c r]; [intros H; exact H|].
    intros He. specialize (H3 He).
    destruct (Strings.ReplaceAll (String c r) crlf nl); [discriminate|exact H3].
Qed.

Lemma TrimRight_app_nl (t : string) :
  endsWith t Strings.LF = false ->
  Strings.TrimRight (t ++ nl) Strings.LF = t.
Proof.
  induction t as [|a t IH]; [reflexivity|].
  rewrite endsWith_cons, str_app_cons. cbn [Strings.TrimRight].
  destruct t as [|b t].
  - intros H. cbn. rewrite H. reflexivity.
  - intros H. rewrite (IH H). reflexivity.
Qed.

Lemma length_TrimRight (s : string) (c : ascii) :
  endsWith s c = true ->
  String.length (Strings.TrimRight s c) < String.length s.
Proof.
  intros He. destruct (TrimRight_decomp s c) as [k Hk].
  destruct k as [|k].
  - cbn in Hk. rewrite str_app_nil_r in Hk.
    pose proof (TrimRight_endsWith s c) as H. rewrite <- Hk in H. congruence.
  - rewrite Hk at 2. rewrite str_length_app. cbn. lia.
Qed.

Lemma ContainsByte_Contains_crcrlf (s : string) :
  Strings.ContainsByte s Strings.CR = false ->
  Strings.Contains s crcrlf = false /\ endsWith s Strings.CR = false.
Proof.
  induction s as [|a s IH]; [auto|].
  cbn [Strings.ContainsByte]. intros [H1 H2]%orb_false_iff.
  destruct (IH H2) as [H3 H4].
  rewrite Contains_cons, HasPrefix_crcrlf, H1, H3, endsWith_cons.
  split; [reflexivity|]. destruct s; assumption.
Qed.

(** X1: normalizing a text twice gives the same as normalizing it once
    exactly when the text has no CR CR LF sequence and does not end with
    CR; in particular for every text without CR. *)
Theorem normalizeNewlines_idempotent_iff (s : string) :
  (normalizeNewlines (normalizeNewlines s) = normalizeNewlines s
   <-> Strings.Contains s crcrlf = false /\ endsWith s Strings.CR = false)
  /\ (Strings.ContainsByte s Strings.CR = false ->
      normalizeNewlines (normalizeNewlines s) = normalizeNewlines s).
Proof.
  assert (Hiff : normalizeNewlines (normalizeNewlines s) = normalizeNewlines s
                 <-> Strings.Contains s crcrlf = false
                     /\ endsWith s Strings.CR = false).
  { rewrite <- orb_false_iff, <- Contains_normalizeNewlines.
    set (t := Strings.TrimRight (Strings.ReplaceAll s crlf nl) Strings.LF).
    assert (Hr : normalizeNewlines s = t ++ nl) by reflexivity.
    assert (Ht : endsWith t Strings.LF = false) by apply TrimRight_endsWith.
    split.
    - intros Hidem.
      destruct (Strings.Contains (normalizeNewlines s) crlf) eqn:E; [|reflexivity].
      exfalso.
      destruct (length_ReplaceAll_crlf _ (normalizeNewlines s) (le_n _))
        as (_ & Hlt & Hends).
      specialize (Hlt E).
      assert (He : endsWith (normalizeNewlines s) Strings.LF = true).
      { rewrite Hr. unfold nl. rewrite endsWith_snoc. reflexivity. }
      pose proof (length_TrimRight _ _ (Hends He)) as H2.
      apply (f_equal String.length) in Hidem.
      unfold normalizeNewlines at 1 in Hidem.
      rewrite str_length_app in Hidem. cbn [String.length nl Strings.str] in Hidem.
      lia.
    - intros E. unfold normalizeNewlines at 1.
      rewrite (ReplaceAll_no_crlf _ E), Hr, (TrimRight_app_nl _ Ht). reflexivity. }
  split; [exact Hiff|].
  intros H. apply Hiff, ContainsByte_Contains_crcrlf, H.
Qed.

Lemma normalizeNewlines_idempotent_iff_witness :
  normalizeNewlines (normalizeNewlines ("message M {}" ++ nl ++ nl))
  = normalizeNewlines ("message M {}" ++ nl ++ nl).
Proof.
  apply (normalizeNewlines_idempotent_iff ("message M {}" ++ nl ++ nl)).
  reflexivity.
Defined.


Lemma ReplaceAll_no_CR (a : string) :
  Strings.ContainsByte a Strings.CR = false ->
  Strings.ReplaceAll a crlf nl = a.
Proof.
  induction a as [|c a IH]; [reflexivity|].
  cbn [Strings.ContainsByte]. intros [H1 H2]%orb_false_iff.
  rewrite ReplaceAll_crlf_cons, H1, (IH H2). reflexivity.
Qed.

Lemma ReplaceAll_line_crlf (a b : string) :
  Strings.ContainsByte a Strings.CR = false ->
  Strings.ReplaceAll (a ++ crlf ++ b) crlf nl
  = a ++ nl ++ Strings.ReplaceAll b crlf nl.
Proof.
  induction a as [|c a IH].
  - intros _. rewrite !str_app_nil_l. apply ReplaceAll_crlf_hit.
  - cbn [Strings.ContainsByte]. intros [H1 H2]%orb_false_iff.
    rewrite !str_app_cons, ReplaceAll_crlf_cons, H1, (IH H2). reflexivity.
Qed.

Lemma ReplaceAll_Join_crlf (ls : list string) :
  Forall (fun l => Strings.ContainsByte l Strings.CR = false) ls ->
  Strings.ReplaceAll (Strings.Join ls crlf) crlf nl = Strings.Join ls nl.
Proof.
  induction 1 as [|l ls Hl Hls IH]; [reflexivity|].
  destruct ls as [|l' ls]; [apply ReplaceAll_no_CR, Hl|].
  rewrite !Join_cons by discriminate.
  rewrite (ReplaceAll_line_crlf _ _ Hl), IH. reflexivity.
Qed.

Lemma ContainsByte_Join (ls : list string) (sep : string) (c : ascii) :
  Forall (fun l => Strings.ContainsByte l c = false) ls ->
  Strings.ContainsByte sep c = false ->
  Strings.ContainsByte (Strings.Join ls sep) c = false.
Proof.
  intros H Hsep. induction H as [|l ls Hl Hls IH]; [reflexivity|].
  destruct ls as [|l' ls]; [exact Hl|].
  rewrite Join_cons by discriminate.
  rewrite !ContainsByte_app, Hl, Hsep, IH. reflexivity.
Qed.

(** X2: a text whose lines end with CR LF is normalized to the same text
    as its version with LF line ends: the lines joined by LF, with the
    newlines at the end replaced by one. *)
Theorem normalizeNewlines_crlf_lines (ls : list string) :
  Forall (fun l => Strings.ContainsByte l Strings.CR = false) ls ->
  normalizeNewlines (Strings.Join ls crlf) = normalizeNewlines (Strings.Join ls nl)
  /\ normalizeNewlines (Strings.Join ls nl)
     = Strings.TrimRight (Strings.Join ls nl) Strings.LF ++ nl.
Proof.
  intros H.
  assert (E : Strings.ReplaceAll (Strings.Join ls nl) crlf nl = Strings.Join ls nl).
  { apply ReplaceAll_no_CR, ContainsByte_Join; [exact H|reflexivity]. }
  unfold normalizeNewlines. rewrite (ReplaceAll_Join_crlf ls H), E. auto.
Qed.

Lemma normalizeNewlines_crlf_lines_witness :
  normalizeNewlines ("syntax = 3;" ++ crlf ++ "message M {}" ++ crlf ++ crlf)
  = "syntax = 3;" ++ nl ++ "message M {}" ++ nl.
Proof.
  destruct (normalizeNewlines_crlf_lines ["syntax = 3;"; "message M {}"; ""; ""])
    as [H1 H2].
  - repeat constructor.
  - change (Strings.Join ["syntax = 3;"; "message M {}"; ""; ""] crlf)
      with ("syntax = 3;" ++ crlf ++ "message M {}" ++ crlf ++ crlf) in H1.
    rewrite H1, H2. vm_compute. reflexivity.
Defined.

(** ** Indentation and manifest text, again *)

Lemma indentLine_app (indent line : string) : indentLine indent line = indent ++ line.
Proof.
  unfold indentLine. destruct (String.eqb_spec line "") as [->|_];
    [rewrite str_app_nil_r|]; reflexivity.
Qed.

Lemma Join_app (l1 l2 : list string) (sep : string) :
  l1 <> [] -> l2 <> [] ->
  Strings.Join (l1 ++ l2) sep = Strings.Join l1 sep ++ sep ++ Strings.Join l2 sep.
Proof.
  intros H1 H2. induction l1 as [|e l1 IH]; [contradiction|].
  destruct l1 as [|e' l1].
  - cbn [app]. apply Join_cons, H2.
  - rewrite <- app_comm_cons, Join_cons by discriminate.
    rewrite IH by discriminate.
    rewrite (Join_cons e (e' :: l1)) by discriminate.
    rewrite !str_app_assoc. reflexivity.
Qed.

Lemma length_Join_indent (indent : string) (ls : list string) :
  ls <> [] ->
  String.length (Strings.Join (map (indentLine indent) ls) nl)
  = String.length (Strings.Join ls nl) + length ls * String.length indent.
Proof.
  induction ls as [|l ls IH]; [contradiction|]. intros _.
  destruct ls as [|l' ls].
  - cbn [map Strings.Join length]. rewrite indentLine_app, str_length_app. lia.
  - change (map (indentLine indent) (l :: l' :: ls))
      with (indentLine indent l :: map (indentLine indent) (l' :: ls)).
    rewrite !Join_cons by discriminate.
    rewrite !str_length_app, IH by discriminate.
    rewrite indentLine_app, str_length_app. cbn [length]. lia.
Qed.

Lemma Join_map_id (ls : list string) (sep : string) :
  Strings.Join (map (indentLine "") ls) sep = Strings.Join ls sep.
Proof.
  f_equal. rewrite <- (map_id ls) at 2. apply map_ext.
  intros l. apply indentLine_app.
Qed.

Lemma indent_app_nl (a b indent : string) :
  indentForYAMLLiteralBlock (a ++ nl ++ b) indent
  = indentForYAMLLiteralBlock a indent ++ nl ++ indentForYAMLLiteralBlock b indent.
Proof.
  unfold indentForYAMLLiteralBlock.
  unfold nl, Strings.str. rewrite str_app_cons, str_app_nil_l.
  rewrite Split_app_list, map_app.
  rewrite Join_app; [reflexivity| |];
    intros E%map_eq_nil; exact (Split_nonempty _ _ E).
Qed.

(** X3: the indentation works line by line: the indented text of two
    texts joined by a newline is the two indented texts joined by a
    newline, a text of one line (the empty one too) gets the indent in
    front, the length grows by one indent for each line, and the empty
    indent changes nothing. *)
Theorem indent_line_by_line (a b indent : string) :
  indentForYAMLLiteralBlock (a ++ nl ++ b) indent
  = indentForYAMLLiteralBlock a indent ++ nl ++ indentForYAMLLiteralBlock b indent
  /\ (Strings.ContainsByte a Strings.LF = false ->
      indentForYAMLLiteralBlock a indent = indent ++ a)
  /\ String.length (indentForYAMLLiteralBlock a indent)
     = String.length a + length (Strings.Split a Strings.LF) * String.length indent
  /\ indentForYAMLLiteralBlock a "" = a.
Proof.
  split; [|unfold indentForYAMLLiteralBlock; split; [|split]].
  - apply indent_app_nl.
  - intros H. rewrite (Split_no_sep _ _ H). apply indentLine_app.
  - rewrite length_Join_indent by apply Split_nonempty.
    change nl with (Strings.str Strings.LF). rewrite Join_Split. reflexivity.
  - rewrite Join_map_id. apply Join_Split.
Qed.

Lemma indent_line_by_line_witness :
  indentForYAMLLiteralBlock ("message M {" ++ nl ++ "}") "    "
  = "    message M {" ++ nl ++ "    }".
Proof.
  destruct (indent_line_by_line "message M {" "}" "    ") as (H1 & H2 & _).
  destruct (indent_line_by_line "}" "" "    ") as (_ & H3 & _).
  rewrite H1, H2, H3; reflexivity.
Defined.

Lemma str_app_inv_head (a x y : string) : a ++ x = a ++ y -> x = y.
Proof.
  induction a as [|c a IH]; [rewrite !str_app_nil_l; auto|].
  rewrite !str_app_cons. intros [= H]. auto.
Qed.

Lemma first_sep_inj (a b x y : string) (c : ascii) :
  Strings.ContainsByte a c = false ->
  Strings.ContainsByte b c = false ->
  a ++ String c x = b ++ String c y -> a = b /\ x = y.
Proof.
  revert b. induction a as [|a0 a IH]; intros [|b0 b] Ha Hb;
    rewrite ?str_app_nil_l, ?str_app_cons; intros E.
  - injection E as ->. auto.
  - injection E as -> _. cbn in Hb. rewrite Ascii.eqb_refl in Hb. discriminate.
  - injection E as <- _. cbn in Ha. rewrite Ascii.eqb_refl in Ha. discriminate.
  - injection E as -> E. cbn [Strings.ContainsByte] in Ha, Hb.
    apply orb_false_iff in Ha as [_ Ha]. apply orb_false_iff in Hb as [_ Hb].
    destruct (IH b Ha Hb E) as [-> ->]. auto.
Qed.

Lemma indent_injective (d1 d2 indent : string) :
  Strings.ContainsByte indent Strings.LF = false ->
  indentForYAMLLiteralBlock d1 indent = indentForYAMLLiteralBlock d2 indent ->
  d1 = d2.
Proof.
  intros Hi E.
  pose proof (stripIndent_indent d1 indent Hi) as H1.
  rewrite E, (stripIndent_indent d2 indent Hi) in H1. congruence.
Qed.

(** X4: the manifest text determines the schema name (a name of one
    line) and the definition: two manifests are equal only when both
    are. *)
Theorem schemaManifest_injective (n1 n2 d1 d2 : string) :
  Strings.ContainsByte n1 Strings.LF = false ->
  Strings.ContainsByte n2 Strings.LF = false ->
  schemaManifest n1 d1 = schemaManifest n2 d2 ->
  n1 = n2 /\ d1 = d2.
Proof.
  intros H1 H2 E. unfold schemaManifest in E.
  repeat apply str_app_inv_head in E.
  unfold nl, Strings.str in E. rewrite !str_app_cons, !str_app_nil_l in E.
  apply (first_sep_inj _ _ _ _ _ H1 H2) in E as [-> E].
  split; [reflexivity|].
  repeat match type of E with String _ _ = String _ _ => injection E as E end.
  apply (indent_injective d1 d2 "    "); [reflexivity|exact E].
Qed.

Lemma schemaManifest_injective_witness :
  schemaManifest "a" ("message A {}" ++ nl) <> schemaManifest "a" ("message B {}" ++ nl).
Proof.
  intros E. apply schemaManifest_injective in E as [_ E];
    [discriminate|reflexivity|reflexivity].
Defined.

(** X5: the manifest of a normalized definition ends with a line that
    holds the four blanks of the indent only, and not with a newline:
    it is the manifest of the definition without its last newline,
    then a newline and the indent. *)
Theorem schemaManifest_last_line (name proto : string) :
  let t := Strings.TrimRight (Strings.ReplaceAll proto crlf nl) Strings.LF in
  schemaManifest name (normalizeNewlines proto)
  = schemaManifest name t ++ nl ++ "    "
  /\ Strings.HasSuffix (schemaManifest name (normalizeNewlines proto)) (nl ++ "    ")
     = true
  /\ endsWith (schemaManifest name (normalizeNewlines proto)) Strings.LF = false.
Proof.
  intros t.
  assert (E : schemaManifest name (normalizeNewlines proto)
              = schemaManifest name t ++ nl ++ "    ").
  { unfold normalizeNewlines. fold t. unfold schemaManifest.
    rewrite <- (str_app_nil_r (t ++ nl)), str_app_assoc, indent_app_nl.
    rewrite !str_app_assoc. reflexivity. }
  split; [exact E|]. rewrite E, <- str_app_assoc. split.
  - rewrite str_app_assoc. apply HasSuffix_app.
  - change "    " with ("   " ++ Strings.str " "%char).
    rewrite <- !str_app_assoc, endsWith_snoc. reflexivity.
Qed.

(** ** Name derivation, again *)






(** ** The index text *)

Lemma fold_left_items (rs : list string) (b : string) :
  fold_left (fun b r => b ++ "  - " ++ r ++ nl) rs b
  = b ++ fold_right (fun r t => "  - " ++ r ++ nl ++ t) "" rs.
Proof.
  revert b. induction rs as [|r rs IH]; intros b; cbn [fold_left fold_right].
  - rewrite str_app_nil_r. reflexivity.
  - rewrite IH, !str_app_assoc. reflexivity.
Qed.

Lemma nl_app (x : string) : nl ++ x = String Strings.LF x.
Proof. reflexivity. Qed.

Lemma Split_sep_head (x : string) (c : ascii) :
  Strings.Split (String c x) c = "" :: Strings.Split x c.
Proof. exact (Split_app_sep "" x c eq_refl). Qed.

Lemma Split_items (rs : list string) :
  Forall (fun r => Strings.ContainsByte r Strings.LF = false) rs ->
  Strings.Split (fold_right (fun r t => "  - " ++ r ++ nl ++ t) "" rs) Strings.LF
  = (map (fun r => ("  - " ++ r)%string) rs ++ [""])%list.
Proof.
  induction 1 as [|r rs Hr _ IH]; [reflexivity|].
  cbn [fold_right map app]. rewrite <- IH.
  rewrite <- (str_app_assoc "  - " r), nl_app.
  apply Split_app_sep. rewrite ContainsByte_app, Hr. reflexivity.
Qed.

(** X7: the index text, read line by line, is the four lines of the
    header, then one line [  - name] for each resource (names of one
    line), in the order given, and it ends with a newline. *)
Theorem kustomizationText_lines (resources : list string) :
  Forall (fun r => Strings.ContainsByte r Strings.LF = false) resources ->
  Strings.Split (kustomizationText resources) Strings.LF
  = ("apiVersion: kustomize.config.k8s.io/v1beta1"
       :: "kind: Kustomization" :: "" :: "resources:"
       :: map (fun r => ("  - " ++ r)%string) resources ++ [""])%list.
Proof.
  intros H. unfold kustomizationText. rewrite fold_left_items.
  rewrite !str_app_assoc, str_app_nil_l, !nl_app.
  rewrite Split_app_sep by reflexivity.
  rewrite Split_app_sep by reflexivity.
  rewrite Split_sep_head.
  rewrite Split_app_sep by reflexivity.
  rewrite (Split_items _ H). reflexivity.
Qed.

Lemma kustomizationText_lines_witness :
  Strings.Split (kustomizationText ["a.schema.yaml"; "b.schema.yaml"]) Strings.LF
  = ["apiVersion: kustomize.config.k8s.io/v1beta1"; "kind: Kustomization"; "";
     "resources:"; "  - a.schema.yaml"; "  - b.schema.yaml"; ""].
Proof.
  apply (kustomizationText_lines ["a.schema.yaml"; "b.schema.yaml"]).
  repeat constructor.
Defined.

(** ** Writing a file *)

Lemma HasPrefix_ReplaceAll_nl (s : string) :
  Strings.HasPrefix (Strings.ReplaceAll s crlf nl) nl
  = Strings.HasPrefix s nl || Strings.HasPrefix s crlf.
Proof.
  destruct s as [|a s]; [reflexivity|].
  rewrite ReplaceAll_crlf_cons, HasPrefix_crlf.
  destruct (Ascii.eqb a Strings.CR && Strings.HasPrefix s nl) eqn:E.
  - rewrite orb_true_r. reflexivity.
  - rewrite orb_false_r, !HasPrefix_nl. reflexivity.
Qed.

Lemma Contains_ReplaceAll_only (n : nat) (s : string) :
  String.length s <= n ->
  Strings.Contains (Strings.ReplaceAll s crlf nl) crlf = Strings.Contains s crcrlf.
Proof.
  revert s. induction n as [|n IH]; intros s Hn.
  - destruct s; [reflexivity|simpl in Hn; lia].
  - destruct s as [|a s]; [reflexivity|]. simpl in Hn.
    rewrite ReplaceAll_crlf_cons, (Contains_cons a s), HasPrefix_crcrlf.
    destruct (Ascii.eqb a Strings.CR && Strings.HasPrefix s nl) eqn:E.
    + apply andb_prop in E as [-> E]. rewrite HasPrefix_nl in E.
      destruct s as [|b s]; [discriminate|]. apply Ascii.eqb_eq in E as ->.
      simpl in Hn. simpl Strings.drop.
      rewrite Contains_cons, IH by lia.
      rewrite (Contains_cons Strings.LF s). reflexivity.
    + rewrite Contains_cons, HasPrefix_crlf, IH by lia.
      rewrite HasPrefix_ReplaceAll_nl.
      destruct (Ascii.eqb a Strings.CR); [|reflexivity].
      rewrite andb_true_l in E. rewrite E. reflexivity.
Qed.

Lemma WriteFile_Ok_inv (fs fs' : gmap pkey node) (path c : string) :
  WriteFile fs path c = Ok fs' -> fs' = <[resolve path := File c]> fs.
Proof.
  unfold WriteFile. destruct (String.eqb path ""); [discriminate|].
  destruct (nodeAt fs (resolve path)) as [[| | |]|]; try discriminate.
  - intros [= <-]. reflexivity.
  - destruct (nodeAt fs (parent (resolve path))) as [[| | |]|]; try discriminate.
    intros [= <-]. reflexivity.
Qed.

Lemma writeFile_cases (path contents : string) (fs : gmap pkey node)
    (out : list string) (r : result unit) (w' : world) :
  writeFile path contents (World fs out) = (r, w') ->
  (exists e, r = Err e /\ w' = World fs out)
  \/ (exists e, r = Err e
      /\ w' = World (withDirs (dirKeys (resolve (Filepath.Dir path))) fs) out)
  \/ (r = Ok tt
      /\ w' = World (<[resolve path := File (Strings.ReplaceAll contents crlf nl)]>
                       (withDirs (dirKeys (resolve (Filepath.Dir path))) fs)) out).
Proof.
  unfold writeFile, bind, writing. cbn [files stdout].
  destruct (MkdirAll fs (Filepath.Dir path)) as [fs1|e] eqn:E1.
  - assert (Hne : Filepath.Dir path <> "").
    { intros E. unfold MkdirAll in E1. rewrite E in E1. discriminate. }
    apply (MkdirAll_spec _ _ _ Hne) in E1 as [_ ->]. cbn [files stdout].
    destruct (WriteFile _ path _) as [fs2|e] eqn:E2.
    + apply WriteFile_Ok_inv in E2 as ->. intros [= <- <-]. right. right. auto.
    + intros [= <- <-]. right. left. eauto.
  - intros [= <- <-]. left. eauto.
Qed.



(** X9: when [writeFile] succeeds on a file name in a directory, reading
    the file back gives the text with each CR LF replaced by LF, the
    directory exists, and the file holds a CR LF afterwards exactly
    when the text held the three bytes CR CR LF. *)
Theorem writeFile_read_back (d n contents : string) (w w' : world) :
  validName n = true ->
  writeFile (Filepath.Join d n) contents w = (Ok tt, w') ->
  ReadFile (files w') (Filepath.Join d n)
  = Ok (Strings.ReplaceAll contents crlf nl)
  /\ nodeAt (files w') (resolve d) = Some Dir
  /\ Strings.Contains (Strings.ReplaceAll contents crlf nl) crlf
     = Strings.Contains contents crcrlf
  /\ (Strings.ContainsByte contents Strings.CR = false ->
      ReadFile (files w') (Filepath.Join d n) = Ok contents).
Proof.
  intros Hv H. destruct w as [fs out].
  apply (writeFile_entry _ _ _ _ _ _ Hv) in H as (Hd & _ & ->). cbn [files].
  split; [apply ReadFile_insert, Hv|]. split; [|split].
  - unfold nodeAt. destruct (resolve d).2 as [|e l] eqn:E; [reflexivity|].
    assert (Hself : resolve d ∈ dirKeys (resolve d))
      by (apply self_dirKey; rewrite E; discriminate).
    rewrite lookup_insert_ne.
    + apply withDirs_dirKey; assumption.
    + intros E'. symmetry in E'. revert E'. apply dirKey_not_child, Hself.
  - apply (Contains_ReplaceAll_only _ _ (le_n _)).
  - intros Hcr. rewrite <- (ReplaceAll_no_CR _ Hcr) at 2.
    apply ReadFile_insert, Hv.
Qed.

Lemma writeFile_read_back_witness :
  let text := "a" ++ crlf ++ "b" in
  let w' := (writeFile (Filepath.Join "out/new" "x.yaml") text (World demoFS [])).2 in
  ReadFile (files w') (Filepath.Join "out/new" "x.yaml")
  = Ok (Strings.ReplaceAll text crlf nl)
  /\ nodeAt (files w') (resolve "out/new") = Some Dir.
Proof.
  intros text w'.
  destruct (writeFile_read_back "out/new" "x.yaml" text (World demoFS []) w')
    as (H1 & H2 & _).
  - reflexivity.
  - apply result_pair. vm_compute. reflexivity.
  - split; [exact H1|exact H2].
Defined.

(** ** Cleaning twice *)

Lemma removeGeneratedSchemas_any (outputDir : string) (w : world) :
  (removeGeneratedSchemas outputDir w).2
  = World (cleanedFiles outputDir (files w)) (stdout w).
Proof.
  unfold cleanedFiles.
  destruct (ReadDir (files w) outputDir) as [entries|e] eqn:E.
  - rewrite (removeGeneratedSchemas_listed _ _ _ E). reflexivity.
  - unfold removeGeneratedSchemas. rewrite E.
    destruct (IsNotExist e); destruct w; reflexivity.
Qed.

Lemma staleKeys_cleaned (dir : pkey) (fs : gmap pkey node) :
  removeKeys (staleKeys dir (children (removeKeys (staleKeys dir (children fs dir)) fs) dir))
    (removeKeys (staleKeys dir (children fs dir)) fs)
  = removeKeys (staleKeys dir (children fs dir)) fs.
Proof.
  apply map_eq. intros k. rewrite lookup_removeKeys.
  case_bool_decide as Hin; [|reflexivity].
  apply elem_of_staleKeys in Hin as (name & n & -> & Hv & Hl & Hn & Hs).
  rewrite lookup_removeKeys in Hl. case_bool_decide as Hin'; [discriminate|].
  exfalso. apply Hin', elem_of_staleKeys. eauto 10.
Qed.

Lemma nodeAt_removeStale (dir : pkey) (fs : gmap pkey node) (v : pkey) :
  nodeAt fs v = Some Dir ->
  nodeAt (removeKeys (staleKeys dir (children fs dir)) fs) v = Some Dir.
Proof.
  unfold nodeAt. destruct v.2; [reflexivity|]. intros H.
  rewrite lookup_removeKeys, bool_decide_eq_false_2; [exact H|].
  intros (name & n & _ & _ & Hl & Hn & _)%elem_of_staleKeys.
  rewrite H in Hl. injection Hl as <-. discriminate.
Qed.

(** X10: removing the stale manifests a second time does nothing more:
    from the files that [removeGeneratedSchemas] leaves it returns the
    same result and changes no file. *)
Theorem removeGeneratedSchemas_idempotent (outputDir : string) (w : world) :
  removeGeneratedSchemas outputDir (removeGeneratedSchemas outputDir w).2
  = removeGeneratedSchemas outputDir w.
Proof.
  destruct (ReadDir (files w) outputDir) as [entries|e] eqn:E.
  - rewrite (removeGeneratedSchemas_listed _ _ _ E). cbn [snd].
    apply ReadDir_Ok in E as (Hne & Hw & Hd & ->).
    set (dir := resolve outputDir) in *.
    set (fs' := removeKeys (staleKeys dir (children (files w) dir)) (files w)).
    assert (E' : ReadDir fs' outputDir = Ok (children fs' dir)).
    { apply ReadDir_Ok. split; [exact Hne|]. fold dir.
      split; [|split; [apply nodeAt_removeStale, Hd|reflexivity]].
      apply walk_dirs. apply walk_dirs in Hw.
      eapply Forall_impl; [exact Hw|].
      intros v Hv. apply nodeAt_removeStale, Hv. }
    rewrite (removeGeneratedSchemas_listed _ (World fs' (stdout w)) _ E').
    cbn [files stdout]. fold dir. unfold fs'. rewrite staleKeys_cleaned. reflexivity.
  - unfold removeGeneratedSchemas at 2 3. rewrite E.
    destruct (IsNotExist e) eqn:Ee; cbn [snd]; unfold removeGeneratedSchemas;
      rewrite E, Ee; reflexivity.
Qed.

(** ** What a run leaves alone, whatever its outcome *)

Lemma keptOrMade_refl (ks : list pkey) (fs : gmap pkey node) (k : pkey) :
  keptOrMade ks fs fs k.
Proof. left. reflexivity. Qed.

Lemma keptOrMade_trans (ks : list pkey) (fs1 fs2 fs3 : gmap pkey node) (k : pkey) :
  keptOrMade ks fs1 fs2 k -> keptOrMade ks fs2 fs3 k -> keptOrMade ks fs1 fs3 k.
Proof.
  intros [E1|(Hk & N1 & D1)] [E2|(Hk' & N2 & D2)].
  - left. congruence.
  - right. rewrite <- E1. auto.
  - right. rewrite E2. auto.
  - congruence.
Qed.

Lemma keptOrMade_withDirs (ks : list pkey) (fs : gmap pkey node) (k : pkey) :
  keptOrMade ks fs (withDirs ks fs) k.
Proof.
  unfold keptOrMade. rewrite lookup_withDirs.
  destruct (fs !! k) as [n|]; [left; reflexivity|].
  case_bool_decide; [right|left]; auto.
Qed.

Lemma keptOrMade_outside (ks : list pkey) (fs fs' : gmap pkey node) (k : pkey) :
  keptOrMade ks fs fs' k -> k ∉ ks -> fs' !! k = fs !! k.
Proof. intros [E|(Hk & _)] Hn; [exact E|contradiction]. Qed.

Lemma writeFile_any (d n contents : string) (fs : gmap pkey node)
    (out : list string) (r : result unit) (w' : world) :
  validName n = true ->
  writeFile (Filepath.Join d n) contents (World fs out) = (r, w') ->
  stdout w' = out
  /\ (forall k, k <> child (resolve d) n ->
        keptOrMade (dirKeys (resolve d)) fs (files w') k)
  /\ (forall e, r = Err e ->
        files w' !! child (resolve d) n = fs !! child (resolve d) n).
Proof.
  intros Hv H. destruct (Join_name d n Hv) as (Hres & _ & _ & _ & Hdir).
  apply writeFile_cases in H as [(e & -> & ->)|[(e & -> & ->)|(-> & ->)]];
    rewrite ?Hres, ?Hdir; cbn [files stdout].
  - split; [reflexivity|]. split; [intros; apply keptOrMade_refl|reflexivity].
  - split; [reflexivity|]. split; [intros; apply keptOrMade_withDirs|].
    intros _ _. apply lookup_withDirs_child.
  - split; [reflexivity|]. split; [|discriminate].
    intros k Hk. unfold keptOrMade. rewrite lookup_insert_ne by congruence.
    apply keptOrMade_withDirs.
Qed.

Lemma generateEach_any (outputDir : string) (ps gen : list string)
    (fs : gmap pkey node) (out : list string) (r : result (list string))
    (w' : world) :
  generateEach outputDir ps gen (World fs out) = (r, w') ->
  (exists n, n <= length ps
     /\ stdout w' = (out ++ map (progressLine outputDir) (take n ps))%list
     /\ (forall g, r = Ok g -> n = length ps))
  /\ (forall k, (forall p, p ∈ ps -> k <> child (resolve outputDir) (manifestName p)) ->
        keptOrMade (dirKeys (resolve outputDir)) fs (files w') k).
Proof.
  revert gen fs out. induction ps as [|p ps IH]; intros gen fs out H.
  - cbn [generateEach] in H. unfold ret in H. injection H as <- <-.
    cbn [files stdout]. split.
    + exists 0. cbn. rewrite app_nil_r. auto.
    + intros; apply keptOrMade_refl.
  - rewrite generateEach_unfold in H.
    destruct (ReadFile fs p) as [proto|e] eqn:Er.
    2:{ injection H as <- <-. cbn [files stdout]. split.
        - exists 0. cbn. rewrite app_nil_r. split; [lia|]. split; [reflexivity|].
          discriminate.
        - intros; apply keptOrMade_refl. }
    pose proof (ReadFile_validName _ _ _ Er) as Hv.
    destruct (writeFile _ _ (World fs out)) as [[[]|e] [fs1 out1]] eqn:Ew;
      apply (writeFile_any _ _ _ _ _ _ _ Hv) in Ew as (Hout & Hk & _);
      cbn [files stdout] in *; subst out1.
    + apply IH in H as [(n & Hn & Hs & Hg) Hfr]. split.
      * exists (S n). cbn [length take map]. split; [lia|].
        rewrite Hs, <- app_assoc. split; [reflexivity|].
        intros g Hr. rewrite (Hg g Hr). reflexivity.
      * intros k Hnk. apply (keptOrMade_trans _ fs fs1).
        -- apply Hk, Hnk. left.
        -- apply Hfr. intros q Hq. apply Hnk. right. exact Hq.
    + injection H as <- <-. cbn [files stdout]. split.
      * exists 0. cbn. rewrite app_nil_r. split; [lia|]. split; [reflexivity|].
        discriminate.
      * intros k Hnk. apply Hk, Hnk. left.
Qed.
Lemma generateAll_any (ps : list string) (outputDir : string) (w : world)
    (r : result unit) (w' : world) :
  generateAll ps outputDir w = (r, w') ->
  (exists n, n <= length ps
     /\ stdout w' = (stdout w ++ map (progressLine outputDir) (take n ps))%list
     /\ (r = Ok tt -> n = length ps))
  /\ (forall k,
        (forall name, Strings.HasSuffix name manifestSuffix = true ->
           k <> child (resolve outputDir) name) ->
        k <> child (resolve outputDir) indexName \/ (exists e, r = Err e) ->
        keptOrMade (dirKeys (resolve outputDir)) (files w) (files w') k).
Proof.
  destruct ps as [|p0 ps0] eqn:Eps.
  { intros [= <- <-]. split.
    - exists 0. cbn. rewrite app_nil_r. split; [lia|]. split; [reflexivity|].
      discriminate.
    - intros. apply keptOrMade_refl. }
  rewrite <- Eps. assert (Hne : ps <> []) by (rewrite Eps; discriminate).
  clear Eps p0 ps0. rewrite (generateAll_unfold _ _ _ Hne).
  pose proof (removeGeneratedSchemas_any outputDir w) as Hc.
  assert (Hclean : forall k,
            (forall name, Strings.HasSuffix name manifestSuffix = true ->
               k <> child (resolve outputDir) name) ->
            cleanedFiles outputDir (files w) !! k = files w !! k).
  { intros k Hk.
    destruct (lookup_cleanedFiles outputDir (files w) k)
      as [E|(_ & _ & name & n & Hkn & _ & _ & _ & Hs)]; [exact E|].
    exfalso. exact (Hk name Hs Hkn). }
  destruct (removeGeneratedSchemas outputDir w) as [[[]|e] w1];
    cbn [snd] in Hc; subst w1.
  2:{ intros [= <- <-]. cbn [files stdout]. split.
      - exists 0. cbn. rewrite app_nil_r. split; [lia|]. split; [reflexivity|].
        discriminate.
      - intros k Hk _. left. apply Hclean, Hk. }
  destruct (generateEach outputDir ps [] _) as [[g|e] [fs2 out2]] eqn:Eg;
    apply generateEach_any in Eg as [(n & Hn & Hs & Hg) Hfr];
    cbn [files stdout] in *.
  - intros Hw.
    apply (writeFile_any _ _ _ _ _ _ _ validName_indexName) in Hw
      as (Hout & Hk & He).
    split.
    + exists n. rewrite Hout, Hs. split; [exact Hn|]. split; [reflexivity|].
      intros _. apply (Hg g eq_refl).
    + intros k Hnm Hidx.
      assert (H2 : keptOrMade (dirKeys (resolve outputDir)) (files w) fs2 k).
      { apply (keptOrMade_trans _ _ (cleanedFiles outputDir (files w))).
        - left. apply Hclean, Hnm.
        - apply Hfr. intros p _. apply Hnm, HasSuffix_app. }
      destruct (decide (k = child (resolve outputDir) indexName)) as [->|Hne'].
      * destruct Hidx as [Hidx|[e ->]]; [contradiction|].
        destruct H2 as [E2|(Hin & _)].
        -- left. rewrite (He e eq_refl). exact E2.
        -- exfalso. exact (child_not_dirKey _ _ Hin).
      * apply (keptOrMade_trans _ _ fs2); [exact H2|apply Hk, Hne'].
  - intros [= <- <-]. cbn [files stdout]. split.
    + exists n. split; [exact Hn|]. split; [exact Hs|discriminate].
    + intros k Hnm _.
      apply (keptOrMade_trans _ _ (cleanedFiles outputDir (files w))).
      * left. apply Hclean, Hnm.
      * apply Hfr. intros p _. apply Hnm, HasSuffix_app.
Qed.
Lemma generateEach_app (outputDir : string) (l1 l2 gen : list string) (w : world) :
  generateEach outputDir (l1 ++ l2) gen w
  = match generateEach outputDir l1 gen w with
    | (Ok g1, w1) => generateEach outputDir l2 g1 w1
    | (Err e, w1) => (Err e, w1)
    end.
Proof.
  revert gen w. induction l1 as [|p l1 IH]; intros gen [fs out]; [reflexivity|].
  rewrite <- app_comm_cons, !generateEach_unfold.
  destruct (ReadFile fs p); [|reflexivity].
  destruct (writeFile _ _ _) as [[[]|e] w1]; [apply IH|reflexivity].
Qed.

(** ** Inputs with the same derived name: the run *)

(** C10: when two inputs of a run have the same derived name, a run
    that succeeds leaves one manifest of that name, holding the
    definition that the later input held when its turn came (the last
    input with the name overwrites the earlier ones); this is what the
    input held before the run, unless the manifest of an earlier input
    was written over the input itself.  The index still has one resource
    line per input (each manifest name as often as inputs derive it), so
    it lists the manifest at least twice. *)
Theorem duplicate_names_last_wins (ps l1 l2 l3 : list string)
    (p1 p2 outputDir : string) (w w' : world) :
  ps = (l1 ++ p1 :: l2 ++ p2 :: l3)%list ->
  deriveSchemaNameFromFilename p1 = deriveSchemaNameFromFilename p2 ->
  Forall (fun p => deriveSchemaNameFromFilename p
                   <> deriveSchemaNameFromFilename p2) l3 ->
  generateAll ps outputDir w = (Ok tt, w') ->
  let name := deriveSchemaNameFromFilename p2 ++ ".schema.yaml" in
  let resources := sortStrings (map manifestName ps) in
  exists proto2 g1 w1,
    generateEach outputDir (l1 ++ p1 :: l2) []
      (removeGeneratedSchemas outputDir w).2 = (Ok g1, w1)
    /\ ReadFile (files w1) p2 = Ok proto2
    /\ (Forall (fun q => resolve p2
                         <> child (resolve outputDir) (manifestName q))
          (l1 ++ p1 :: l2) ->
        ReadFile (files w) p2 = Ok proto2)
    /\ ReadFile (files w') (Filepath.Join outputDir name)
       = Ok (manifestBody p2 proto2)
    /\ count_occ string_dec (map fst (children (files w') (resolve outputDir)))
         name = 1
    /\ ReadFile (files w') (Filepath.Join outputDir indexName)
       = Ok (Strings.ReplaceAll (kustomizationText resources) crlf nl)
    /\ 2 <= count_occ string_dec resources name
    /\ (forall x, count_occ string_dec resources x
                  = count_occ string_dec (map manifestName ps) x).
Proof.
  intros Eps Hsame Hlast Hrun name resources.
  pose proof (generateAll_index _ _ _ _ Hrun) as Hidx.
  apply generateAll_Ok in Hrun as (_ & wa & g & [gn sn] & Hclean & Hgen & Hw).
  rewrite Hclean. cbn [snd].
  apply removeGeneratedSchemas_Ok in Hclean. subst wa ps.
  set (dir := resolve outputDir) in *.
  set (fa := cleanedFiles outputDir (files w)) in *.
  replace (l1 ++ p1 :: l2 ++ p2 :: l3)%list
    with ((l1 ++ p1 :: l2) ++ p2 :: l3)%list in Hgen
    by (rewrite <- app_assoc; reflexivity).
  rewrite generateEach_app in Hgen.
  destruct (generateEach outputDir (l1 ++ p1 :: l2) [] (World fa (stdout w)))
    as [[g1|e] [f1 o1]] eqn:E1; [|discriminate].
  apply generateEach_cons in Hgen as (proto2 & Hr2 & _ & Hrest).
  fold dir in Hrest.
  pose proof (ReadFile_validName _ _ _ Hr2) as Hv.
  apply generateEach_any in Hrest as [_ Hfr3]. fold dir in Hfr3. cbn [files] in Hfr3.
  apply generateEach_any in E1 as [_ Hfr1]. fold dir in Hfr1. cbn [files] in Hfr1.
  apply (writeFile_entry _ _ _ _ _ _ validName_indexName) in Hw as (_ & _ & ->).
  fold dir. cbn [files].
  assert (Hkey : (<[child dir indexName :=
                      File (Strings.ReplaceAll (kustomizationText (sortStrings g))
                              crlf nl)]> (withDirs (dirKeys dir) gn))
                 !! child dir (manifestName p2)
                 = Some (File (manifestBody p2 proto2))).
  { rewrite lookup_insert_ne, lookup_withDirs_child.
    2:{ intros E%child_inj. symmetry in E. exact (manifestName_not_index _ E). }
    assert (Hl3 : forall p, p ∈ l3 ->
              child dir (manifestName p2) <> child dir (manifestName p)).
    { intros p Hp E%child_inj%manifestName_inj.
      rewrite Forall_forall in Hlast. exact (Hlast p Hp (eq_sym E)). }
    rewrite (keptOrMade_outside _ _ _ _ (Hfr3 (child dir (manifestName p2)) Hl3)).
    - rewrite lookup_stepFiles, bool_decide_eq_true_2 by reflexivity. reflexivity.
    - apply child_not_dirKey. }
  exists proto2, g1, (World f1 o1). cbn [files].
  split; [reflexivity|]. split; [exact Hr2|].
  split; [|split; [|split; [|split; [|split]]]].
  - intros Hfree. rewrite ReadFile_Ok in *. destruct Hr2 as (H1 & H2 & H3).
    split; [exact H1|]. split; [exact H2|].
    assert (Ha : fa !! resolve p2 = Some (File proto2)).
    { destruct (Hfr1 (resolve p2)) as [E|(_ & _ & E)]; [|congruence|congruence].
      rewrite Forall_forall in Hfree. exact Hfree. }
    destruct (cleanedFiles_cases outputDir (files w) (resolve p2))
      as [E|(E & _)]; fold fa in E; congruence.
  - apply ReadFile_entry; assumption.
  - apply NoDup_count_occ'; [apply NoDup_ListNoDup, NoDup_children|].
    apply in_map_iff. exists (name, File (manifestBody p2 proto2)).
    split; [reflexivity|]. apply list_elem_of_In, elem_of_children. auto.
  - replace (l1 ++ p1 :: l2 ++ p2 :: l3)%list
      with ((l1 ++ p1 :: l2) ++ p2 :: l3)%list
      by (rewrite <- app_assoc; reflexivity).
    exact Hidx.
  - unfold resources.
    rewrite (proj1 (Permutation_count_occ string_dec _ _)
               (sortStrings_perm _)).
    rewrite map_app. cbn [map]. rewrite map_app. cbn [map].
    fold manifestSuffix in name.
    change name with (manifestName p2).
    replace (manifestName p1) with (manifestName p2)
      by (unfold manifestName; rewrite Hsame; reflexivity).
    apply count_two.
  - intros x. unfold resources.
    apply (proj1 (Permutation_count_occ string_dec _ _) (sortStrings_perm _)).
Qed.

(** Two inputs with the derived name [x-y]: the manifest holds the
    second one, the index lists it twice. *)
Lemma duplicate_names_last_wins_witness :
  let w := World dupFS [] in
  exists w',
    generateAll ["in/x.y.pubsub.proto"; "in/x_y.pubsub.proto"] "out" w = (Ok tt, w')
    /\ ReadFile (files w') "out/x-y.schema.yaml"
       = Ok ("apiVersion: pubsub.cnrm.cloud.google.com/v1beta1" ++ nl ++
             "kind: PubSubSchema" ++ nl ++
             "metadata:" ++ nl ++
             "  name: x-y" ++ nl ++
             "spec:" ++ nl ++
             "  type: PROTOCOL_BUFFER" ++ nl ++
             "  definition: |" ++ nl ++
             "    message Second {}" ++ nl ++
             "    ")
    /\ ReadFile (files w') "out/kustomization.yaml"
       = Ok ("apiVersion: kustomize.config.k8s.io/v1beta1" ++ nl ++
             "kind: Kustomization" ++ nl ++ nl ++
             "resources:" ++ nl ++
             "  - x-y.schema.yaml" ++ nl ++
             "  - x-y.schema.yaml" ++ nl).
Proof.
  intros w.
  pose (w' := (generateAll ["in/x.y.pubsub.proto"; "in/x_y.pubsub.proto"] "out" w).2).
  assert (G : generateAll ["in/x.y.pubsub.proto"; "in/x_y.pubsub.proto"] "out" w
              = (Ok tt, w')).
  { apply result_pair. vm_compute. reflexivity. }
  exists w'. split; [exact G|].
  destruct (duplicate_names_last_wins
              ["in/x.y.pubsub.proto"; "in/x_y.pubsub.proto"] [] [] []
              "in/x.y.pubsub.proto" "in/x_y.pubsub.proto" "out" w w')
    as (proto2 & g1 & w1 & _ & _ & Hp & Hm & _ & Hi & _ & _).
  - reflexivity.
  - reflexivity.
  - constructor.
  - exact G.
  - assert (Hp2 : ReadFile (files w) "in/x_y.pubsub.proto" = Ok proto2).
    { apply Hp. repeat constructor. vm_compute. discriminate. }
    assert (proto2 = "message Second {}" ++ nl) as ->.
    { vm_compute in Hp2. injection Hp2 as <-. reflexivity. }
    split.
    + etransitivity; [exact Hm|]. vm_compute. reflexivity.
    + etransitivity; [exact Hi|]. vm_compute. reflexivity.
Defined.






(** X13: the progress lines follow the inputs: whatever the outcome,
    the generator prints one line for each input of a first part of the
    list, in order, and nothing else; when it succeeds, for all of them. *)
Theorem progress_lines (ps : list string) (outputDir : string) (w w' : world)
    (r : result unit) :
  generateAll ps outputDir w = (r, w') ->
  exists n, n <= length ps
    /\ stdout w' = (stdout w ++ map (progressLine outputDir) (take n ps))%list
    /\ (r = Ok tt -> n = length ps).
Proof. intros H. apply generateAll_any in H as [H _]. exact H. Qed.

Lemma progress_lines_witness :
  let ps := ["in/a.pubsub.proto"; "in/keep.pubsub.proto"] in
  let w' := (generateAll ps "out" (World failFS [])).2 in
  exists n, n <= 2 /\ stdout w' = map (progressLine "out") (take n ps).
Proof.
  intros ps w'.
  destruct (progress_lines ps "out" (World failFS []) w'
              (generateAll ps "out" (World failFS [])).1) as (n & Hn & Hs & _).
  - unfold w'. destruct (generateAll ps "out" (World failFS [])); reflexivity.
  - exists n. split; [exact Hn|exact Hs].
Defined.

(** ** The manifests after a run that succeeds *)

Lemma statsRegular_child (fs : gmap pkey node) (d n : string) :
  validName n = true ->
  statsRegular fs (Filepath.Join d n) = true
  <-> exists c, fs !! child (resolve d) n = Some (File c).
Proof.
  intros Hv. destruct (Join_name d n Hv) as (Hres & _ & Hne & _).
  unfold statsRegular, Stat.
  destruct (String.eqb_spec (Filepath.Join d n) ""); [contradiction|].
  rewrite Hres, nodeAt_child.
  destruct (fs !! child (resolve d) n) as [[c| | |]|]; cbn [IsRegular];
    split; try discriminate; eauto; intros [c' [=]].
Qed.




(** ** What a successful run needed and made *)

(** X15: the generator succeeds only if there is an input, the path
    given for the output directory could be followed to a directory or
    ended at a missing entry, and nothing but directories was on the way
    to the output directory; afterwards the output directory and the
    directories on the way to it exist, and every input has its manifest
    in the output directory. *)
Theorem generateAll_success_needs (ps : list string) (outputDir : string)
    (w w' : world) :
  generateAll ps outputDir w = (Ok tt, w') ->
  ps <> []
  /\ (lookupPath (files w) outputDir = inl ENOENT
      \/ lookupPath (files w) outputDir = inr Dir)
  /\ Forall (dirOrFree (files w)) (dirKeys (resolve outputDir))
  /\ Forall (fun k => files w' !! k = Some Dir) (dirKeys (resolve outputDir))
  /\ forall p, p ∈ ps ->
       exists c, ReadFile (files w')
                   (Filepath.Join outputDir (manifestName p)) = Ok c.
Proof.
  intros Hrun.
  apply generateAll_Ok in Hrun as (Hps & wa & g & [gn sn] & Hclean & Hgen & Hidx).
  pose proof (removeGeneratedSchemas_Ok_path _ _ _ Hclean) as Hpath.
  apply removeGeneratedSchemas_Ok in Hclean. subst wa.
  pose proof (generateEach_valid _ _ _ _ _ _ Hgen) as Hvalid.
  pose proof (generateEach_frame _ _ _ _ _ _ _ _ Hps Hgen)
    as (Hd & _ & Hfile & Hframe).
  apply (writeFile_entry _ _ _ _ _ _ validName_indexName) in Hidx as (_ & _ & ->).
  cbn [files]. set (dir := resolve outputDir) in *.
  assert (Hclean : forall k, k ∈ dirKeys dir ->
            cleanedFiles outputDir (files w) !! k = files w !! k).
  { intros k Hk. apply lookup_cleanedFiles_outside.
    intros name. apply dirKey_not_child, Hk. }
  split; [exact Hps|]. split; [exact Hpath|]. split; [|split].
  - apply Forall_forall. intros k Hk. rewrite Forall_forall in Hd.
    unfold dirOrFree. rewrite <- (Hclean k Hk). apply Hd, Hk.
  - apply Forall_forall. intros k Hk.
    rewrite lookup_insert_ne
      by (intros E; symmetry in E; exact (dirKey_not_child _ _ _ Hk E)).
    rewrite lookup_withDirs, Hframe
      by (intros p _; apply dirKey_not_child, Hk).
    rewrite (withDirs_dirKey dir _ k Hd Hk). reflexivity.
  - intros p Hp. destruct (Hfile p Hp) as [c Hc]. exists c.
    rewrite Forall_forall in Hvalid.
    apply ReadFile_entry; [apply Hvalid, Hp|]. fold dir.
    rewrite lookup_insert_ne, lookup_withDirs_child; [exact Hc|].
    intros E%child_inj. symmetry in E. exact (manifestName_not_index _ E).
Qed.

Lemma generateAll_success_needs_witness :
  let w' := (generateAll ["in/a.pubsub.proto"; "in/b.pubsub.proto"] "out/deep"
               (World abFS [])).2 in
  files w' !! resolve "out" = Some Dir
  /\ files w' !! resolve "out/deep" = Some Dir
  /\ exists c, ReadFile (files w') "out/deep/a.schema.yaml" = Ok c.
Proof.
  intros w'.
  destruct (generateAll_success_needs ["in/a.pubsub.proto"; "in/b.pubsub.proto"]
              "out/deep" (World abFS []) w')
    as (_ & _ & _ & Hd & Hm).
  - apply result_pair. vm_compute. reflexivity.
  - rewrite Forall_forall in Hd. split; [|split].
    + apply Hd. apply list_elem_of_In. vm_compute. left. reflexivity.
    + apply Hd. apply list_elem_of_In. vm_compute. right. left. reflexivity.
    + apply (Hm "in/a.pubsub.proto"). left.
Defined.

(** ** The inputs found in a plain directory *)

Lemma hasMeta_take (n : nat) (s : string) :
  Filepath.hasMeta s = false -> Filepath.hasMeta (Strings.take n s) = false.
Proof.
  intros H. rewrite <- (str_take_drop n s) in H. unfold Filepath.hasMeta in *.
  rewrite ContainsAny_app in H. apply orb_false_iff in H as [H _]. exact H.
Qed.

Lemma str_app_snoc_ne (x : string) (c : ascii) : x ++ Strings.str c <> "".
Proof. destruct x; discriminate. Qed.

Lemma Join_elems_nonempty (e : string) (st : list string) :
  e <> "" -> Strings.Join (e :: st) "/" <> "".
Proof.
  intros He. destruct st as [|e' st]; [exact He|].
  rewrite Join_cons by discriminate. destruct e; [contradiction|discriminate].
Qed.

Lemma cleanGlobPath_prefix (d : string) :
  Filepath.hasMeta d = false ->
  let dir := Filepath.cleanGlobPath (cleanPrefix (resolve d).1 (resolve d).2) in
  dir <> "" /\ resolve dir = resolve d /\ Filepath.hasMeta dir = false.
Proof.
  intros Hd dir.
  pose proof (cleanPrefix_no_meta d Hd) as Hm.
  pose proof (cleanElems_ok d) as Hok.
  assert (Hres : forall stack, Filepath.cleanElems d = rev stack ->
            stackOK (Filepath.isRooted d) stack = true ->
            cleanPrefix (Filepath.isRooted d) (Filepath.cleanElems d) <> "" ->
            resolve (cleanPrefix (Filepath.isRooted d) (Filepath.cleanElems d))
            = resolve d).
  { intros stack E1 E2 E3. apply (resolve_cleanPrefix _ _ stack); assumption. }
  specialize (Hres _ eq_refl Hok).
  assert (Helems : Forall (fun e => okElem e = true) (Filepath.cleanElems d)).
  { unfold Filepath.cleanElems. apply Forall_rev, (stackOK_elems _ _ Hok). }
  assert (Er : resolve d = (Filepath.isRooted d, Filepath.cleanElems d))
    by reflexivity.
  subst dir. rewrite Er in *. cbn [fst snd] in *.
  destruct (Filepath.cleanElems d) as [|e st].
  - destruct (Filepath.isRooted d); vm_compute; repeat split; discriminate.
  - assert (He : e <> "").
    { apply Forall_cons in Helems as [He _]. apply okElem_inv in He. tauto. }
    set (x := (if Filepath.isRooted d then "/" else "") ++ Strings.Join (e :: st) "/").
    assert (Hx : x <> "").
    { unfold x. pose proof (Join_elems_nonempty e st He).
      destruct (Filepath.isRooted d); [discriminate|].
      rewrite str_app_nil_l. assumption. }
    assert (Hpre : cleanPrefix (Filepath.isRooted d) (e :: st) = x ++ "/").
    { unfold cleanPrefix, x. rewrite str_app_assoc. reflexivity. }
    rewrite Hpre in *.
    assert (Hdir : Filepath.cleanGlobPath (x ++ "/") = x).
    { unfold Filepath.cleanGlobPath.
      destruct (String.eqb_spec (x ++ "/") "") as [E|_];
        [exfalso; exact (str_app_snoc_ne x "/" E)|].
      destruct (String.eqb_spec (x ++ "/") "/") as [E|_].
      { exfalso. destruct x as [|a [|b x]]; [contradiction|discriminate|discriminate]. }
      rewrite str_length_app. cbn [String.length].
      replace (String.length x + 1 - 1) with (String.length x) by lia.
      apply str_take_app_length. }
    rewrite Hdir. split; [exact Hx|]. split.
    + rewrite <- (resolve_trailing_sep x Hx). apply Hres.
      exact (str_app_snoc_ne x "/").
    + unfold Filepath.hasMeta in *. rewrite ContainsAny_app in Hm.
      apply orb_false_iff in Hm as [Hm _]. exact Hm.
Qed.
Lemma walkFrom_app (fs : gmap pkey node) (rooted : bool)
    (stack l1 l2 : list string) :
  walkFrom fs rooted stack (l1 ++ l2)
  = match walkFrom fs rooted stack l1 with
    | inl e => inl e
    | inr _ => walkFrom fs rooted (fold_left (Filepath.cleanStep rooted) l1 stack) l2
    end.
Proof.
  revert stack. induction l1 as [|e l1 IH]; intros stack; [reflexivity|].
  cbn [app walkFrom fold_left].
  destruct (nodeAt fs (rooted, rev stack)) as [[| | |]|]; try reflexivity.
  apply IH.
Qed.

Lemma walkFrom_stack (fs : gmap pkey node) (rooted : bool) (stack : list string) :
  wellFormed fs -> stackOK rooted stack = true ->
  nodeAt fs (rooted, rev stack) = Some Dir ->
  walkFrom fs rooted [] (rev stack) = inr (rooted, rev stack).
Proof.
  intros Hwf. induction stack as [|e stack IH]; intros Hok Hd; [reflexivity|].
  assert (Hp : nodeAt fs (rooted, rev stack) = Some Dir).
  { assert (Hne : (rev stack ++ [e])%list <> [])
      by (destruct (rev stack); discriminate).
    assert (Hl : fs !! (rooted, (rev stack ++ [e])%list) = Some Dir).
    { unfold nodeAt in Hd. cbn [snd rev] in Hd.
      destruct (rev stack ++ [e])%list; [contradiction|exact Hd]. }
    pose proof (Hwf _ _ Hl Hne) as Hp.
    unfold parent in Hp. cbn [fst snd] in Hp.
    rewrite removelast_last in Hp. exact Hp. }
  cbn [rev]. rewrite walkFrom_app, IH by (eauto using stackOK_tail).
  rewrite cleanFold_rev by (eapply stackOK_tail, Hok).
  cbn [walkFrom]. rewrite Hp, (cleanStep_push _ _ _ Hok). reflexivity.
Qed.

(** Following a cleaned path leads where the path says, when what lies
    there is a directory of a well-formed file system. *)
Lemma cleanGlobPath_walk (fs : gmap pkey node) (d : string) :
  wellFormed fs -> nodeAt fs (resolve d) = Some Dir ->
  walk fs (Filepath.cleanGlobPath (cleanPrefix (resolve d).1 (resolve d).2))
  = inr (resolve d).
Proof.
  intros Hwf Hdir.
  pose proof (cleanElems_ok d) as Hok.
  assert (Helems : Forall (fun e => okElem e = true) (Filepath.cleanElems d)).
  { unfold Filepath.cleanElems. apply Forall_rev, (stackOK_elems _ _ Hok). }
  unfold resolve in *. cbn [fst snd]. unfold Filepath.cleanElems in *.
  set (stack := fold_left (Filepath.cleanStep (Filepath.isRooted d))
                  (Strings.Split d Filepath.Separator) []) in *.
  pose proof (walkFrom_stack fs _ stack Hwf Hok Hdir) as Hwalk.
  destruct (rev stack) as [|e st] eqn:Est.
  - destruct (Filepath.isRooted d); reflexivity.
  - assert (He : okElem e = true) by (apply Forall_cons in Helems as [He _]; exact He).
    assert (He' : e <> "") by (apply okElem_inv in He; tauto).
    set (x := (if Filepath.isRooted d then "/" else "") ++ Strings.Join (e :: st) "/").
    assert (Hx : x <> "").
    { unfold x. pose proof (Join_elems_nonempty e st He').
      destruct (Filepath.isRooted d); [discriminate|].
      rewrite str_app_nil_l. assumption. }
    assert (Hpre : cleanPrefix (Filepath.isRooted d) (e :: st) = x ++ "/").
    { unfold cleanPrefix, x. rewrite str_app_assoc. reflexivity. }
    rewrite Hpre.
    assert (Hcg : Filepath.cleanGlobPath (x ++ "/") = x).
    { unfold Filepath.cleanGlobPath.
      destruct (String.eqb_spec (x ++ "/") "") as [E|_];
        [exfalso; exact (str_app_snoc_ne x "/" E)|].
      destruct (String.eqb_spec (x ++ "/") "/") as [E|_].
      { exfalso. destruct x as [|a [|b x]]; [contradiction|discriminate|discriminate]. }
      rewrite str_length_app. cbn [String.length].
      replace (String.length x + 1 - 1) with (String.length x) by lia.
      apply str_take_app_length. }
    rewrite Hcg. unfold walk, x.
    destruct (Filepath.isRooted d).
    + change (Filepath.isRooted ("/" ++ Strings.Join (e :: st) "/")) with true.
      change (Strings.Split ("/" ++ Strings.Join (e :: st) "/") Filepath.Separator)
        with ("" :: Strings.Split (Strings.Join (e :: st) "/") Filepath.Separator).
      rewrite Split_Join_elems by (discriminate || exact Helems).
      cbn [walkFrom rev nodeAt snd]. exact Hwalk.
    + rewrite str_app_nil_l, (isRooted_Join _ _ He).
      rewrite Split_Join_elems by (discriminate || exact Helems).
      exact Hwalk.
Qed.

Lemma parseFrom_plain_prefix_Some (pre g : string) (ts : list Filepath.term) :
  Filepath.hasMeta pre = false ->
  Filepath.parseFrom 0 Filepath.Plain g = Some ts ->
  exists ts', Filepath.parseFrom 0 Filepath.Plain (pre ++ g) = Some ts'.
Proof.
  unfold Filepath.hasMeta. intros Hpre Hg.
  induction pre as [|c pre IH]; [rewrite str_app_nil_l; eauto|].
  simpl in Hpre. apply orb_false_elim in Hpre as [Hc Hpre].
  destruct (IH Hpre) as [ts' E].
  rewrite str_app_cons. cbn [Filepath.parseFrom].
  rewrite (scanByte_plain c _ Hc), E. eauto.
Qed.

Lemma meta_validName (g : string) :
  Filepath.hasMeta g = true ->
  Strings.ContainsByte g Filepath.Separator = false ->
  validName g = true.
Proof.
  intros Hm Hs. unfold validName. rewrite Hs.
  destruct (String.eqb_spec g "") as [->|_]; [discriminate|].
  destruct (String.eqb_spec g ".") as [->|_]; [discriminate|].
  destruct (String.eqb_spec g "..") as [->|_]; [discriminate|].
  reflexivity.
Qed.

Lemma globNames_spec (dir g : string) (ts : list Filepath.term)
    (names acc : list string) :
  Filepath.parsePattern g = Some ts ->
  globNames dir g names acc
  = Ok (acc ++ map (Filepath.Join dir)
                 (List.filter (fun n => bool_decide (Filepath.Match g n = Some true))
                    names))%list.
Proof.
  intros Hp. revert acc. induction names as [|n names IH]; intros acc.
  - cbn. rewrite app_nil_r. reflexivity.
  - cbn [globNames List.filter].
    assert (Hmn : Filepath.Match g n
                  = Some (Filepath.matchChunks (Filepath.chunksFrom false [] ts) n))
      by (unfold Filepath.Match; rewrite Hp; reflexivity).
    rewrite Hmn, IH.
    destruct (Filepath.matchChunks (Filepath.chunksFrom false [] ts) n).
    + rewrite bool_decide_eq_true_2 by reflexivity.
      cbn [map]. rewrite <- app_assoc. reflexivity.
    + rewrite bool_decide_eq_false_2 by discriminate. reflexivity.
Qed.

Lemma globWithLimit_S (fuel : nat) (fs : gmap pkey node) (pattern : string) :
  globWithLimit (S fuel) fs pattern
  = match Filepath.Match pattern "" with
    | None => Err ErrBadPattern
    | Some _ =>
        if negb (Filepath.hasMeta pattern) then
          match Lstat fs pattern with
          | Err _ => Ok []
          | Ok _ => Ok [pattern]
          end
        else
          let '(dir, file) := Filepath.Split pattern in
          let dir := Filepath.cleanGlobPath dir in
          if negb (Filepath.hasMeta dir) then glob fs dir file []
          else if String.eqb dir pattern then Err ErrBadPattern
          else
            match globWithLimit fuel fs dir with
            | Err e => Err e
            | Ok m => globDirs fs file m []
            end
    end.
Proof. reflexivity. Qed.

Lemma Glob_plain_dir (fs : gmap pkey node) (d g : string) :
  wellFormed fs \/ nodeAt fs (resolve d) <> Some Dir ->
  Filepath.hasMeta d = false ->
  Strings.ContainsByte g Filepath.Separator = false ->
  Filepath.hasMeta g = true ->
  Filepath.Match g "" <> None ->
  Glob fs (Filepath.Join d g)
  = Ok (match nodeAt fs (resolve d) with
        | Some Dir =>
            map (Filepath.Join d)
              (List.filter (fun n => bool_decide (Filepath.Match g n = Some true))
                 (sortStrings (map fst (children fs (resolve d)))))
        | _ => []
        end).
Proof.
  intros Hfs Hd Hs Hm Hwf.
  pose proof (meta_validName g Hm Hs) as Hv.
  destruct (Filepath.parsePattern g) as [ts|] eqn:Hp.
  2:{ exfalso. apply Hwf, Match_None, Hp. }
  rewrite (Join_name_string d g Hv).
  set (pre := cleanPrefix (resolve d).1 (resolve d).2).
  pose proof (cleanPrefix_no_meta d Hd) as Hpm. fold pre in Hpm.
  destruct (cleanGlobPath_prefix d Hd) as (Hne & Hres & Hdm). fold pre in Hne, Hres, Hdm.
  unfold Glob.
  assert (E : exists n, pathSeparatorsLimit = S n) by (eexists; reflexivity).
  destruct E as [n ->]. rewrite globWithLimit_S.
  destruct (parseFrom_plain_prefix_Some pre g ts Hpm Hp) as [ts' Hp'].
  unfold Filepath.Match at 1. unfold Filepath.parsePattern. rewrite Hp'.
  assert (Hmeta : Filepath.hasMeta (pre ++ g) = true).
  { unfold Filepath.hasMeta in *. rewrite ContainsAny_app, Hm. apply orb_true_r. }
  rewrite Hmeta. cbv iota beta delta [negb].
  rewrite (Split_app_name pre g Hv (cleanPrefix_ends _ _)).
  cbv iota beta zeta. rewrite Hdm. cbv iota beta delta [negb].
  unfold glob, Stat.
  destruct (String.eqb_spec (Filepath.cleanGlobPath pre) ""); [contradiction|].
  rewrite Hres.
  destruct (nodeAt fs (resolve d)) as [[| | |]|] eqn:En; try reflexivity.
  destruct Hfs as [Hfs|Hfs]; [|contradiction].
  assert (Hrd : ReadDir fs (Filepath.cleanGlobPath pre)
                = Ok (children fs (resolve d))).
  { apply ReadDir_Ok. rewrite Hres. split; [assumption|].
    split; [apply (cleanGlobPath_walk fs d Hfs En)|]. split; [exact En|reflexivity]. }
  cbn [IsDir negb]. rewrite Hrd, (globNames_spec _ _ _ _ _ Hp). cbn [app].
  f_equal. apply map_ext_in. intros name Hin.
  apply filter_In in Hin as [Hin _].
  assert (Hvn : validName name = true).
  { apply list_elem_of_In in Hin. rewrite sortStrings_perm in Hin.
    apply list_elem_of_fmap in Hin as ([name' node'] & -> & Hin).
    apply elem_of_children in Hin as [Hvn _]. exact Hvn. }
  rewrite !(Join_name_string _ _ Hvn), Hres. reflexivity.
Qed.

Lemma sortStrings_nil : sortStrings [] = [].
Proof. apply Permutation_nil. symmetry. apply sortStrings_perm. Qed.

Lemma NoDup_List_filter {A : Type} (f : A -> bool) (l : list A) :
  NoDup l -> NoDup (List.filter f l).
Proof. intros H. apply NoDup_ListNoDup, List.NoDup_filter, NoDup_ListNoDup, H. Qed.

(** X16: on a well-formed file system, in a directory given by a path
    without pattern bytes, for a well-formed pattern for names (with a
    pattern byte and without separator), [resolveInputs] returns, each
    once, exactly the paths
    [Join pubsubDir name] of the regular files directly in the directory
    whose name matches the pattern; no error is reported for a
    directory that is missing or is not a directory: the list is empty
    then. *)
Theorem resolveInputs_plain_dir (fs : gmap pkey node)
    (pubsubDir globPattern : string) :
  wellFormed fs ->
  Filepath.hasMeta pubsubDir = false ->
  Strings.ContainsByte globPattern Filepath.Separator = false ->
  Filepath.hasMeta globPattern = true ->
  Filepath.Match globPattern "" <> None ->
  exists inputs,
    resolveInputs fs pubsubDir globPattern = Ok inputs
    /\ NoDup inputs
    /\ (forall f, f ∈ inputs <->
          exists name c,
            f = Filepath.Join pubsubDir name
            /\ validName name = true
            /\ Filepath.Match globPattern name = Some true
            /\ nodeAt fs (resolve pubsubDir) = Some Dir
            /\ fs !! child (resolve pubsubDir) name = Some (File c))
    /\ (nodeAt fs (resolve pubsubDir) <> Some Dir -> inputs = []).
Proof.
  intros Hfs Hd Hs Hm Hwf. eexists. split.
  { apply resolveInputs_of_matches, Glob_plain_dir; auto. }
  set (names := sortStrings (map fst (children fs (resolve pubsubDir)))).
  set (P := fun n => bool_decide (Filepath.Match globPattern n = Some true)).
  assert (Hnames : forall n, n ∈ names <->
            validName n = true
            /\ exists node, fs !! child (resolve pubsubDir) n = Some node).
  { intros n. unfold names. rewrite sortStrings_perm.
    change (map fst) with (fmap (M:=list) (@fst string node)).
    rewrite list_elem_of_fmap. split.
    - intros ([n' node] & -> & Hin). apply elem_of_children in Hin as [Hv Hl].
      eauto.
    - intros (Hv & node & Hl). exists (n, node). split; [reflexivity|].
      apply elem_of_children. auto. }
  assert (Hnd : NoDup names).
  { unfold names. rewrite sortStrings_perm. apply NoDup_children. }
  split; [|split].
  - rewrite sortStrings_perm. apply NoDup_List_filter.
    destruct (nodeAt fs (resolve pubsubDir)) as [[| | |]|]; try constructor.
    change (map (Filepath.Join pubsubDir)) with (fmap (M:=list) (Filepath.Join pubsubDir)).
    apply NoDup_fmap_2_strong; [|apply NoDup_List_filter, Hnd].
    intros x y Hx Hy E.
    apply list_elem_of_In, filter_In in Hx as [Hx%list_elem_of_In%Hnames _].
    apply list_elem_of_In, filter_In in Hy as [Hy%list_elem_of_In%Hnames _].
    destruct Hx as [Hx _], Hy as [Hy _].
    apply (f_equal resolve) in E.
    rewrite (resolve_Join_name _ _ Hx), (resolve_Join_name _ _ Hy) in E.
    apply child_inj in E. exact E.
  - intros f. rewrite sortStrings_perm, list_elem_of_In, filter_In. split.
    + intros [Hin Hreg].
      destruct (nodeAt fs (resolve pubsubDir)) as [[| | |]|] eqn:En;
        try (destruct Hin).
      apply in_map_iff in Hin as (n & <- & Hin).
      apply filter_In in Hin as [Hin%list_elem_of_In%Hnames HP].
      destruct Hin as [Hv _]. apply bool_decide_eq_true in HP.
      apply (statsRegular_child _ _ _ Hv) in Hreg as [c Hc].
      exists n, c. auto.
    + intros (n & c & -> & Hv & HP & -> & Hc). split.
      * apply in_map, filter_In. split.
        -- apply list_elem_of_In, Hnames. eauto.
        -- apply bool_decide_eq_true, HP.
      * apply (statsRegular_child _ _ _ Hv). eauto.
  - intros Hno.
    destruct (nodeAt fs (resolve pubsubDir)) as [[| | |]|]; try reflexivity;
      try apply sortStrings_nil.
    contradiction.
Qed.

Lemma resolveInputs_plain_dir_witness :
  exists inputs,
    resolveInputs demoFS "in" "*.pubsub.proto" = Ok inputs
    /\ (Filepath.Join "in" "a.v1.One.pubsub.proto" ∈ inputs)
    /\ ~ (Filepath.Join "in" "dir.pubsub.proto" ∈ inputs).
Proof.
  destruct (resolveInputs_plain_dir demoFS "in" "*.pubsub.proto")
    as (inputs & Hin & _ & H & _).
  - apply wellFormedb_correct. vm_compute. reflexivity.
  - reflexivity.
  - reflexivity.
  - reflexivity.
  - vm_compute. discriminate.
  - exists inputs. split; [exact Hin|]. split.
    + apply H. exists "a.v1.One.pubsub.proto", "message One {}".
      repeat split; vm_compute; reflexivity.
    + intros (name & c & E & Hv & _ & _ & Hl)%H.
      apply (f_equal resolve) in E.
      rewrite (resolve_Join_name _ _ Hv),
        (resolve_Join_name "in" "dir.pubsub.proto" eq_refl) in E.
      apply child_inj in E. subst name. vm_compute in Hl. discriminate Hl.
Defined.



(** ** An output path that is not a directory *)

(** X18: when the output directory path leads to something that is not
    a directory (a regular file, say), the generator fails before it
    changes anything: the listing of the directory fails with an error
    that does not mean that the path is missing, and no file is removed
    or written. *)
Theorem output_path_not_a_directory (ps : list string) (outputDir : string)
    (w : world) (n : node) :
  ps <> [] ->
  lookupPath (files w) outputDir = inr n ->
  n <> Dir ->
  exists e,
    generateAll ps outputDir w = (Err e, w) /\ IsNotExist e = false.
Proof.
  intros Hps Hn Hd.
  destruct (removeGeneratedSchemas_fails outputDir w) as (e & He & Hex).
  - rewrite Hn. discriminate.
  - rewrite Hn. congruence.
  - exists e. split; [|exact Hex].
    rewrite (generateAll_unfold _ _ _ Hps), He. reflexivity.
Qed.

Lemma output_path_not_a_directory_witness :
  exists e,
    generateAll ["in/a.v1.One.pubsub.proto"] "out/README.md" (World demoFS [])
    = (Err e, World demoFS []).
Proof.
  destruct (output_path_not_a_directory ["in/a.v1.One.pubsub.proto"] "out/README.md"
              (World demoFS []) (File "notes")) as (e & H & _).
  - intros E. discriminate E.
  - vm_compute. reflexivity.
  - intros E. discriminate E.
  - exists e. exact H.
Defined.

(** ** Writing a file twice *)

(** X19: writing a file again replaces what the first write left: after
    a successful [writeFile] a second one to the same name succeeds,
    the file then holds the second text (with LF for CR LF), every other
    entry is as after the first write, and writing the same text again
    changes nothing. *)
Theorem writeFile_overwrite (d n c1 c2 : string) (w w1 : world) :
  validName n = true ->
  writeFile (Filepath.Join d n) c1 w = (Ok tt, w1) ->
  exists w2,
    writeFile (Filepath.Join d n) c2 w1 = (Ok tt, w2)
    /\ ReadFile (files w2) (Filepath.Join d n)
       = Ok (Strings.ReplaceAll c2 crlf nl)
    /\ (forall k, k <> child (resolve d) n -> files w2 !! k = files w1 !! k)
    /\ (c1 = c2 -> w2 = w1).
Proof.
  intros Hv H. destruct w as [fs out].
  apply (writeFile_entry _ _ _ _ _ _ Hv) in H as (Hd & Hf & ->).
  set (ks := dirKeys (resolve d)) in *.
  set (key := child (resolve d) n) in *.
  set (f1 := <[key := File (Strings.ReplaceAll c1 crlf nl)]> (withDirs ks fs)).
  assert (Hdir : forall k, k ∈ ks -> f1 !! k = Some Dir).
  { intros k Hk. unfold f1.
    rewrite lookup_insert_ne by (symmetry; apply dirKey_not_child, Hk).
    apply withDirs_dirKey; assumption. }
  assert (Hd1 : Forall (dirOrFree f1) ks).
  { apply Forall_forall. intros k Hk. right. apply Hdir, Hk. }
  assert (Hsame : withDirs ks f1 = f1).
  { apply map_eq. intros k. rewrite lookup_withDirs.
    destruct (f1 !! k) as [x|] eqn:E; [reflexivity|].
    case_bool_decide as Hk; [|reflexivity].
    rewrite (Hdir k Hk) in E. discriminate E. }
  exists (World (<[key := File (Strings.ReplaceAll c2 crlf nl)]> f1) out).
  split; [|split; [|split]].
  - apply (writeFile_entry _ _ _ _ _ _ Hv). fold ks key.
    split; [exact Hd1|]. split.
    + right. unfold f1. rewrite lookup_insert_eq. eauto.
    + rewrite Hsame. reflexivity.
  - cbn [files]. apply ReadFile_insert, Hv.
  - intros k Hk. cbn [files]. apply lookup_insert_ne. congruence.
  - intros <-. unfold f1. rewrite insert_insert_eq. reflexivity.
Qed.

Lemma writeFile_overwrite_witness :
  let w1 := (writeFile (Filepath.Join "out" "x.yaml") "first" (World demoFS [])).2 in
  exists w2,
    writeFile (Filepath.Join "out" "x.yaml") "second" w1 = (Ok tt, w2)
    /\ ReadFile (files w2) (Filepath.Join "out" "x.yaml")
       = Ok (Strings.ReplaceAll "second" crlf nl).
Proof.
  intros w1.
  assert (E : (writeFile (Filepath.Join "out" "x.yaml") "first" (World demoFS [])).1
              = Ok tt) by (vm_compute; reflexivity).
  destruct (writeFile_overwrite "out" "x.yaml" "first" "second" (World demoFS []) w1
              eq_refl (result_pair _ tt E)) as (w2 & H1 & H2 & _).
  exists w2. split; [exact H1|exact H2].
Defined.

(** ** A pattern that is a file name *)

Lemma sortStrings_singleton (x : string) : sortStrings [x] = [x].
Proof. apply Permutation_singleton_r, sortStrings_perm. Qed.

(** X20: for a pattern that is a plain file name (no pattern byte) in a
    directory given by a path without pattern bytes, [resolveInputs]
    returns the one path of that file when it is a regular file, and
    the empty list, without an error, when it is missing or is
    anything else. *)
Theorem resolveInputs_literal_name (fs : gmap pkey node)
    (pubsubDir globPattern : string) :
  Filepath.hasMeta pubsubDir = false ->
  Filepath.hasMeta globPattern = false ->
  validName globPattern = true ->
  resolveInputs fs pubsubDir globPattern
  = Ok (if statsRegular fs (Filepath.Join pubsubDir globPattern)
        then [Filepath.Join pubsubDir globPattern] else []).
Proof.
  intros Hd Hg Hv.
  destruct (Join_name pubsubDir globPattern Hv) as (Hres & _ & Hne & _).
  assert (Hmeta : Filepath.hasMeta (Filepath.Join pubsubDir globPattern) = false).
  { rewrite (Join_name_string _ _ Hv). unfold Filepath.hasMeta in *.
    rewrite ContainsAny_app, Hg, orb_false_r.
    apply (cleanPrefix_no_meta pubsubDir Hd). }
  set (pattern := Filepath.Join pubsubDir globPattern) in *.
  assert (Hglob : Glob fs pattern
                  = Ok (match nodeAt fs (resolve pattern) with
                        | Some _ => [pattern]
                        | None => []
                        end)).
  { unfold Glob.
    assert (E : exists n, pathSeparatorsLimit = S n) by (eexists; reflexivity).
    destruct E as [n ->]. rewrite globWithLimit_S.
    destruct (parseFrom_plain_prefix_Some pattern "" [] Hmeta eq_refl) as [ts Hp].
    rewrite str_app_nil_r in Hp.
    unfold Filepath.Match, Filepath.parsePattern. rewrite Hp, Hmeta.
    cbv iota beta delta [negb]. unfold Lstat.
    destruct (String.eqb_spec pattern ""); [contradiction|].
    destruct (nodeAt fs (resolve pattern)); reflexivity. }
  rewrite (resolveInputs_of_matches _ _ _ _ Hglob). f_equal.
  unfold statsRegular, Stat. fold pattern.
  destruct (String.eqb_spec pattern ""); [contradiction|].
  destruct (nodeAt fs (resolve pattern)) as [[c| | |]|] eqn:En;
    cbn [List.filter]; unfold statsRegular, Stat;
    try (destruct (String.eqb_spec pattern ""); [contradiction|]);
    rewrite ?En; cbn [IsRegular];
    first [apply sortStrings_singleton|apply sortStrings_nil].
Qed.

Lemma resolveInputs_literal_name_witness :
  resolveInputs demoFS "in" "a.v1.One.pubsub.proto"
  = Ok [Filepath.Join "in" "a.v1.One.pubsub.proto"]
  /\ resolveInputs demoFS "in" "dir.pubsub.proto" = Ok [].
Proof.
  split.
  - rewrite (resolveInputs_literal_name demoFS "in" "a.v1.One.pubsub.proto"
               eq_refl eq_refl eq_refl).
    reflexivity.
  - rewrite (resolveInputs_literal_name demoFS "in" "dir.pubsub.proto"
               eq_refl eq_refl eq_refl).
    reflexivity.
Defined.

(** ** An input in the output directory *)


